(** * GGCE batch driver ([._submit.py]): partitioning, resume, checkpoint
    buffer and the per-config executor, embedded in Rocq.

    Python [float]s (numpy [float64]) are the kernel's binary64 floats,
    Python [int]s are [Z], lists are [list], the STATE directory is a finite
    map from file names to the pickled list of records each file holds. *)

From Stdlib Require Import Floats ZArith Lia.
From stdpp Require Import gmap strings list pretty.

Local Open Scope Z_scope.

(** ** Floats *)

(** [np.pi]: the binary64 number nearest to pi. *)
Definition np_pi : float := 0x1.921fb54442d18p+1%float.

(** Whether two floats are the same binary64 value, bit for bit.  This is
    the equality of the logic, used to tell events, messages and records
    apart; it is not Python's [==], which is the IEEE comparison
    [PrimFloat.eqb] (see [key_eqb] below). *)
#[global] Instance float_eq_dec : EqDecision float.
Proof.
  intros x y. destruct (PrimFloat.Leibniz.eqb x y) eqn:E.
  - left. apply FloatAxioms.Leibniz.eqb_spec. exact E.
  - right. intros H. apply FloatAxioms.Leibniz.eqb_spec in H. congruence.
Defined.

(** ** Partitioner: [RankTools.chunk_jobs] *)

Section Partitioner.
Context {A : Type}.

(** [stride step skip l]: drop [skip] elements, keep one, then keep every
    [step]-th element after it. *)
Fixpoint stride (step skip : nat) (l : list A) : list A :=
  match l with
  | [] => []
  | x :: l' =>
      match skip with
      | O => x :: stride step (Nat.pred step) l'
      | S s => stride step s l'
      end
  end.

(** The extended slice [jobs[ii::SIZE]] for a positive step. *)
Definition slice_from_step (jobs : list A) (ii SIZE : nat) : list A :=
  stride SIZE ii jobs.

(** [[jobs[ii::self.SIZE] for ii in range(self.SIZE)]]; for [SIZE = 0] the
    range is empty and no slice is taken. *)
Definition chunk_jobs (SIZE : nat) (jobs : list A) : list (list A) :=
  (fun ii => slice_from_step jobs ii SIZE) <$> seq 0 SIZE.
End Partitioner.

(** ** Data model *)

(** A grid point [(k, w)], [k] in units of pi. *)
Definition GridPoint : Type := float * float.

(** ** Python sets of grid points *)

(** [a == b] for two [(k, w)] tuples of floats: Python compares them
    coordinate by coordinate with the IEEE comparison, under which
    [0.0 == -0.0] holds and a NaN equals nothing, itself included.  Floats
    that are equal have the same hash, so this is also the test a set or a
    dict makes. *)
Definition key_eqb (a b : GridPoint) : bool :=
  (a.1 =? b.1)%float && (a.2 =? b.2)%float.

(** [x in s] *)
Definition key_in (x : GridPoint) (s : list GridPoint) : bool :=
  existsb (key_eqb x) s.

(** [s.update(l)]: an element equal to one already there is not added.
    A set is the list of its elements in the order they were added.  The
    order in which CPython iterates over a set is not modelled, and no
    property below depends on it.  CPython also takes an object to be equal
    to itself before it asks [==]; this matters only for a NaN met twice as
    the same object.  Values have no identity here, so the model is that of
    the code on keys without NaN, which [no_nan] below says of a list. *)
Fixpoint set_update (s l : list GridPoint) : list GridPoint :=
  match l with
  | [] => s
  | x :: rest => set_update (if key_in x s then s else s ++ [x]) rest
  end.

(** [set(l)] *)
Definition py_set (l : list GridPoint) : list GridPoint := set_update [] l.

(** [a - b] *)
Definition set_difference (a b : list GridPoint) : list GridPoint :=
  filter (fun x => key_in x b = false) a.

(** One checkpoint record, the list
    [[_k, _w, G.real, G.imag, tcomp, largest_mat_dim]]. *)
Record CheckpointRecord : Type := mkRecord {
  rec_k : float;
  rec_w : float;
  rec_re : float;
  rec_im : float;
  rec_tcomp : float;
  rec_dim : Z
}.

(** [tuple(ll[:2])] *)
Definition rec_key (ll : CheckpointRecord) : GridPoint := (rec_k ll, rec_w ll).

(** The STATE directory: file name to the pickled list the file holds. *)
Abbreviation StateDir := (gmap string (list CheckpointRecord)).

(** The target directory [results/<cfg.stem>] of one executor: the DONE
    file (one line per tagging rank), the STATE directory and [res.npy],
    each absent or present. *)
Record TrgDir : Type := mkTrg {
  done_file : option (list nat);
  state_dir : option StateDir;
  res_file : option (list CheckpointRecord)
}.

Inductive Level : Type := DEBUG | INFO | WARNING | ERROR | CRITICAL.

(** Log messages, each with the values its f-string formats. *)
Inductive Message : Type :=
| MsgDoneFileExists (cfg : string)
| MsgNoJobsToRun (cfg : string)
| MsgPriming
| MsgDryRunMode
| MsgPrintingEvery (print_every : Z)
| MsgSolved (k w A tcomp : float)
| MsgNegativeSpectralWeight (A : float)
| MsgDoneIn (cc L : Z) (tcomp : float)
| MsgLargestMatrixSize (largest_mat_dim : Z)
| MsgNoConfigsToRun
| MsgConfig (index total : nat)
| MsgCalculateDone
| MsgFinalizeDone
| MsgCleanupDone
| MsgAllDone.

(** What a run leaves behind besides files: log records (tagged with the
    emitting rank), solver calls, and every access to the STATE directory
    and to [res.npy]. *)
Inductive Event : Type :=
| EvLog (rank : nat) (lvl : Level) (msg : Message)
| EvSolve (k w : float) (solver : Z)
| EvListDir
| EvRead (f : string)
| EvWrite (f : string)
| EvWriteRes.

(** The world one executor runs in.  The three counters say how often the
    nondeterministic sources ([uuid.uuid4], [time.time],
    [np.random.random]) have been drawn from. *)
Record World : Type := mkWorld {
  trg : option TrgDir;
  trace : list Event;
  uuid_calls : nat;
  time_calls : nat;
  random_calls : nat
}.

Inductive Exn : Type := FileNotFoundError | IndexError.

Inductive Result (A : Type) : Type :=
| Ok (a : A)
| Raise (e : Exn).
Arguments Ok {A} a.
Arguments Raise {A} e.

(** State and exceptions: a computation takes the world and returns a
    value or a raised exception, with the world it left. *)
Definition M (A : Type) : Type := World -> Result A * World.

#[global] Instance M_ret : MRet M := fun A a w => (Ok a, w).

#[global] Instance M_bind : MBind M := fun A B f m w =>
  match m w with
  | (Ok a, w') => f a w'
  | (Raise e, w') => (Raise e, w')
  end.

Definition raise {A : Type} (e : Exn) : M A := fun w => (Raise e, w).

Definition emit (e : Event) : M unit := fun w =>
  (Ok tt, mkWorld (trg w) (trace w ++ [e]) (uuid_calls w) (time_calls w)
            (random_calls w)).

Definition set_trg (t : TrgDir) (w : World) : World :=
  mkWorld (Some t) (trace w) (uuid_calls w) (time_calls w) (random_calls w).

(** The STATE directory of a world, when the target directory and it exist. *)
Definition world_state_dir (w : World) : option StateDir :=
  t ← trg w; state_dir t.

(** [self.done_file.exists()] *)
Definition done_file_exists : M bool := fun w =>
  (Ok (bool_decide (is_Some (t ← trg w; done_file t))), w).

(** [pickle.dump(queue, open(path, 'wb'), protocol=4)] for a path in the
    STATE directory: [open] raises when the directory is missing, creates
    the file or truncates an existing one otherwise. *)
Definition pickle_dump (queue : list CheckpointRecord) (f : string) : M unit :=
  fun w =>
  match trg w with
  | Some t =>
      match state_dir t with
      | Some d =>
          emit (EvWrite f)
            (set_trg (mkTrg (done_file t) (Some (<[f := queue]> d)) (res_file t)) w)
      | None => (Raise FileNotFoundError, w)
      end
  | None => (Raise FileNotFoundError, w)
  end.

(** [pickle.load(open(f, 'rb'))] for a file of the STATE directory. *)
Definition pickle_load (f : string) : M (list CheckpointRecord) := fun w =>
  match d ← world_state_dir w; d !! f with
  | Some loaded_jobs =>
      match emit (EvRead f) w with (_, w') => (Ok loaded_jobs, w') end
  | None => (Raise FileNotFoundError, w)
  end.

(** Modelled from the spec: [utils.listdir_fullpath] is not among the
    sources.  It lists the files of the STATE directory; the spec's resume
    engine "must treat a missing directory as zero completed work, never as
    an error", so a missing directory lists as empty. *)
Definition listdir_fullpath : M (list string) := fun w =>
  match emit EvListDir w with
  | (_, w') =>
      (Ok (match world_state_dir w with
           | Some d => (map_to_list d).*1
           | None => []
           end), w')
  end.

(** ** The executor *)

(** What [sy.solve] returns, as far as [calculate] reads it: [G.real],
    [G.imag], [meta['time'][-1]] and [meta['inv'][0]]. *)
Record SolveResult : Type := mkSolve {
  G_real : float;
  G_imag : float;
  meta_time : float;
  meta_inv : Z
}.

(** [self] of [Executor], with the rank tool's fields. *)
Record Executor : Type := mkExecutor {
  SIZE : nat;
  RANK : nat;
  debug_flag : bool;
  dry_run : bool;
  solver : Z;
  self_nbuff : Z;
  cfg : string
}.

Record Buffer : Type := mkBuffer {
  nbuff : Z;
  counter : Z;
  queue : list CheckpointRecord
}.

(** [Buffer(nbuff, target_directory)]; the target is always the executor's
    STATE directory. *)
Definition Buffer_init (nbuff : Z) : Buffer := mkBuffer nbuff 0 [].

(** What [calculate] has when it reaches its main loop: it returned early
    with an elapsed time, or it holds the remaining jobs and the buffer. *)
Inductive Prepared : Type :=
| EarlyReturn (elapsed : float)
| Ready (jobs : list GridPoint) (buffer : Buffer).

Section Executor.

(** The collaborators and the sources of nondeterminism: the [n]-th value
    each yields. *)
Variable uuid4_hex : nat -> string.
Variable time_time : nat -> float.
Variable np_random_random : nat -> float.
Variable sy_solve : float -> float -> Z -> SolveResult.

Definition fresh_uuid : M string := fun w =>
  (Ok (uuid4_hex (uuid_calls w)),
   mkWorld (trg w) (trace w) (S (uuid_calls w)) (time_calls w) (random_calls w)).

Definition now : M float := fun w =>
  (Ok (time_time (time_calls w)),
   mkWorld (trg w) (trace w) (uuid_calls w) (S (time_calls w)) (random_calls w)).

Definition random : M float := fun w =>
  (Ok (np_random_random (random_calls w)),
   mkWorld (trg w) (trace w) (uuid_calls w) (time_calls w) (S (random_calls w))).

(** [LoggerOnRank]: every level but [debug] always logs. *)
Definition log (self : Executor) (lvl : Level) (msg : Message) : M unit :=
  emit (EvLog (RANK self) lvl msg).

Definition log_debug (self : Executor) (msg : Message) : M unit :=
  if debug_flag self then log self DEBUG msg else mret tt.

(** [f"{uuid.uuid4().hex}.pkl"] *)
Definition pkl_name (u : string) : string := u +:+ ".pkl".

(** [Buffer.flush] *)
Definition flush (b : Buffer) : M Buffer :=
  if decide (0 < counter b) then
    u ← fresh_uuid;
    pickle_dump (queue b) (pkl_name u);;
    mret (mkBuffer (nbuff b) 0 [])
  else mret b.

(** [Buffer.__call__] *)
Definition Buffer_call (b : Buffer) (val : CheckpointRecord) : M Buffer :=
  let b' := mkBuffer (nbuff b) (counter b + 1) (queue b ++ [val]) in
  if decide (nbuff b' <= counter b') then flush b' else mret b'.

(** The loop of [find_remaining_jobs] over the listed checkpoint files. *)
Fixpoint load_completed (checkpoints : list string)
    (completed_jobs : list GridPoint) : M (list GridPoint) :=
  match checkpoints with
  | [] => mret completed_jobs
  | f :: rest =>
      loaded_jobs ← pickle_load f;
      load_completed rest (completed_jobs ++ (rec_key <$> loaded_jobs))
  end.

(** [Executor.find_remaining_jobs] with the directory listing it calls,
    [utils.listdir_fullpath(self.state_dir)], as a parameter: the function
    has no guard and no handler of its own, so what the listing does is
    what happens.  It takes [self.jobs] and returns its new value,
    [list(set(self.jobs) - set(completed_jobs))]. *)
Definition find_remaining_jobs_with (listdir : M (list string))
    (jobs : list GridPoint) : M (list GridPoint) :=
  checkpoints ← listdir;
  completed_jobs ← load_completed checkpoints [];
  mret (set_difference (py_set jobs) (py_set completed_jobs)).

(** [Executor.find_remaining_jobs] *)
Definition find_remaining_jobs (jobs : list GridPoint) : M (list GridPoint) :=
  find_remaining_jobs_with listdir_fullpath jobs.

(** [list(product(k_grid, w_grid))] *)
Definition product (k_grid w_grid : list float) : list GridPoint :=
  k ← k_grid; w ← w_grid; [(k, w)].

(** [Executor.prep_jobs]: returns the value it gives [self.jobs]. *)
Definition prep_jobs (self : Executor) (k_grid w_grid : list float)
  : M (list GridPoint) :=
  match chunk_jobs (SIZE self) (product k_grid w_grid) !! RANK self with
  | Some jobs => mret jobs
  | None => raise IndexError
  end.

(** [Executor.prime_system]: the system object is the solver collaborator;
    what is left of priming is two clock reads and rank 0's log line. *)
Definition prime_system (self : Executor) : M unit :=
  _ ← now;
  (if decide (RANK self = 0%nat) then log self INFO MsgPriming else mret tt);;
  _ ← now;
  mret tt.

(** [Executor.calculate], up to the construction of the buffer.  Loading
    the parameter file is left to the parameter collaborator. *)
Definition calculate_prepare (self : Executor) (k_grid w_grid : list float)
  : M Prepared :=
  done ← done_file_exists;
  if (done : bool) then
    log self WARNING (MsgDoneFileExists (cfg self));;
    mret (EarlyReturn 0%float)
  else
    jobs ← prep_jobs self k_grid w_grid;
    if decide (length jobs = 0%nat) then
      log self WARNING (MsgNoJobsToRun (cfg self));;
      mret (EarlyReturn 0%float)
    else
      jobs ← find_remaining_jobs jobs;
      let nbuff :=
        if decide (0 < self_nbuff self) then self_nbuff self
        else Z.max (Z.of_nat (length jobs) / 100) 1 in
      mret (Ready jobs (Buffer_init nbuff)).

(** [A = -G.imag / np.pi] *)
Definition spectral_weight (G_imag : float) : float :=
  (PrimFloat.opp G_imag / np_pi)%float.

(** One result of the solver (or of [dryrun_random_result]), as the four
    values that go into the record: [(G.real, G.imag, tcomp,
    largest_mat_dim)].  In a dry run [G = |r1| + |r2| * 1j] for two draws
    from [[0, 1)], whose real and imaginary parts are [|r1|] and [|r2|]. *)
Definition solve_point (self : Executor) (print_every L cc : Z)
    (_k _w : float) : M (float * float * float * Z) :=
  if negb (dry_run self) then
    emit (EvSolve (_k * np_pi)%float _w (solver self));;
    let r := sy_solve (_k * np_pi)%float _w (solver self) in
    let A := spectral_weight (G_imag r) in
    let tcomp := (meta_time r / 60)%float in
    let largest_mat_dim := meta_inv r in
    log_debug self (MsgSolved _k _w A tcomp);;
    (if (A <? 0)%float then log self ERROR (MsgNegativeSpectralWeight A)
     else mret tt);;
    (if decide ((cc `mod` print_every = 0 \/ cc = 0) /\ RANK self = 0%nat)
     then log self INFO (MsgDoneIn cc L tcomp) else mret tt);;
    mret (G_real r, G_imag r, tcomp, largest_mat_dim)
  else
    r1 ← random;
    r2 ← random;
    mret (PrimFloat.abs r1, PrimFloat.abs r2, 0%float, 0).

(** The body of the main loop for the job [(_k, _w)] at position [cc]. *)
Definition loop_body (self : Executor) (print_every L cc : Z)
    (job : GridPoint) (buffer : Buffer) : M Buffer :=
  let '(_k, _w) := job in
  '(re, im, tcomp, largest_mat_dim) ← solve_point self print_every L cc _k _w;
  let val := mkRecord _k _w re im tcomp largest_mat_dim in
  (if decide (RANK self = 0%nat /\ cc = 0)
   then log self INFO (MsgLargestMatrixSize largest_mat_dim) else mret tt);;
  Buffer_call buffer val.

(** [for cc, (_k, _w) in enumerate(self.jobs)], from position [cc] on. *)
Fixpoint main_loop (self : Executor) (print_every L cc : Z)
    (jobs : list GridPoint) (buffer : Buffer) : M Buffer :=
  match jobs with
  | [] => mret buffer
  | job :: rest =>
      buffer' ← loop_body self print_every L cc job buffer;
      main_loop self print_every L (cc + 1) rest buffer'
  end.

(** [Executor.calculate] from the buffer on.  [print_every] is
    [int(max(L * 5.0 / 100.0, 1))], which for a list length [L] is
    [max(L // 20, 1)].  The loop tests the script's global [dry_run], the
    value the executor was built with. *)
Definition calculate_run (self : Executor) (jobs : list GridPoint)
    (buffer : Buffer) : M float :=
  (if negb (dry_run self) then prime_system self
   else if decide (RANK self = 0%nat) then log self WARNING MsgDryRunMode
   else mret tt);;
  let L := Z.of_nat (length jobs) in
  let print_every := Z.max (L / 20) 1 in
  (if decide (RANK self = 0%nat) then log self INFO (MsgPrintingEvery print_every)
   else mret tt);;
  overall_config_time ← now;
  buffer ← main_loop self print_every L 0 jobs buffer;
  _ ← flush buffer;
  t ← now;
  mret (t - overall_config_time)%float.

(** [Executor.calculate] *)
Definition calculate (self : Executor) (k_grid w_grid : list float) : M float :=
  p ← calculate_prepare self k_grid w_grid;
  match p with
  | EarlyReturn elapsed => mret elapsed
  | Ready jobs buffer => calculate_run self jobs buffer
  end.

(** [np.save(f, arr)] into [open(res_file, 'wb')]. *)
Definition np_save_res (arr : list CheckpointRecord) : M unit := fun w =>
  match trg w with
  | Some t =>
      emit EvWriteRes (set_trg (mkTrg (done_file t) (state_dir t) (Some arr)) w)
  | None => (Raise FileNotFoundError, w)
  end.

(** [Executor.save_final] *)
Definition save_final (self : Executor) (arr : list CheckpointRecord) : M unit :=
  if decide (RANK self <> 0%nat) then mret tt else np_save_res arr.

End Executor.

(** The events one solved grid point adds to the trace before its record
    is pushed: the solver call, the debug line, the error line for a
    negative spectral weight, rank 0's progress line and, at the first
    point, rank 0's matrix size line. *)
Definition point_events (sy_solve : float -> float -> Z -> SolveResult)
    (self : Executor) (print_every L cc : Z) (_k _w : float) : list Event :=
  let r := sy_solve (_k * np_pi)%float _w (solver self) in
  let A := spectral_weight (G_imag r) in
  let tcomp := (meta_time r / 60)%float in
  [EvSolve (_k * np_pi)%float _w (solver self)]
  ++ (if debug_flag self then [EvLog (RANK self) DEBUG (MsgSolved _k _w A tcomp)]
      else [])
  ++ (if (A <? 0)%float
      then [EvLog (RANK self) ERROR (MsgNegativeSpectralWeight A)] else [])
  ++ (if decide ((cc `mod` print_every = 0 \/ cc = 0) /\ RANK self = 0%nat)
      then [EvLog (RANK self) INFO (MsgDoneIn cc L tcomp)] else [])
  ++ (if decide (RANK self = 0%nat /\ cc = 0)
      then [EvLog (RANK self) INFO (MsgLargestMatrixSize (meta_inv r))] else []).

(** ** The driver ([__main__]), rank by rank *)

(** The steps of one rank's script from the broadcasts on: its log lines,
    its collective calls and its calls into the executor, in program order.
    The data that flows through them is left out.  [ASaveFinal] stands for
    the two lines [res = np.concatenate(res, axis=0)] and
    [executor.save_final(res)]. *)
Inductive Action : Type :=
| ALog (lvl : Level) (msg : Message)
| ABcast
| AGather
| AScatter
| ABarrier
| AAbort
| ACalculate (config_path : string)
| AListState (config_path : string)
| AFinalize (config_path : string)
| ASaveFinal (config_path : string)
| ACleanup (config_path : string)
| ARmdirState (config_path : string)
| ASleep.

#[global] Instance Level_eq_dec : EqDecision Level.
Proof. solve_decision. Defined.

#[global] Instance Message_eq_dec : EqDecision Message.
Proof. solve_decision. Defined.

#[global] Instance Action_eq_dec : EqDecision Action.
Proof. solve_decision. Defined.

(** [if mpi_info.RANK == 0: ...] *)
Definition on_rank0 (RANK : nat) (acts : list Action) : list Action :=
  if decide (RANK = 0%nat) then acts else [].

(** The body of the loop over the config files. *)
Definition config_actions (RANK total config_index : nat) (config_path : string)
  : list Action :=
  on_rank0 RANK [ALog INFO (MsgConfig (config_index + 1) total)]
  ++ [ACalculate config_path; AGather]
  ++ on_rank0 RANK [ALog INFO MsgCalculateDone]
  ++ [ABarrier]
  ++ on_rank0 RANK [AListState config_path]
  ++ [AScatter; AFinalize config_path; AGather]
  ++ on_rank0 RANK [ALog INFO MsgFinalizeDone]
  ++ on_rank0 RANK [ASaveFinal config_path]
  ++ [ABarrier; ACleanup config_path; ABarrier]
  ++ on_rank0 RANK [ARmdirState config_path]
  ++ on_rank0 RANK [ALog INFO MsgCleanupDone]
  ++ [ABarrier].

(** The script text from the broadcasts to the end, as if [COMM.Abort()]
    returned. *)
Definition main_script (RANK : nat) (all_configs_paths : list string)
  : list Action :=
  [ABcast; ABcast; ABcast]
  ++ (if decide (all_configs_paths = [])
      then on_rank0 RANK [ALog WARNING MsgNoConfigsToRun] ++ [AAbort]
      else [])
  ++ concat (imap (config_actions RANK (length all_configs_paths))
               all_configs_paths)
  ++ [ABarrier]
  ++ on_rank0 RANK [ASleep; ALog INFO MsgAllDone].

(** [COMM.Abort()] ends the process: nothing after it happens. *)
Fixpoint until_abort (acts : list Action) : list Action :=
  match acts with
  | [] => []
  | AAbort :: _ => [AAbort]
  | a :: rest => a :: until_abort rest
  end.

(** The steps of a rank from the broadcasts on when none of its calls
    raises: the script up to [COMM.Abort()].  This is the control flow
    only; [rank_actions] below cuts it where a call raises. *)
Definition main_actions (RANK : nat) (all_configs_paths : list string)
  : list Action :=
  until_abort (main_script RANK all_configs_paths).

(** The script has no [try]: an exception that a call raises ends the
    process of that rank, and of its steps only those before that call are
    completed.  [raised = Some n] says that the step at index [n] raises,
    [None] that no step does. *)
Definition rank_actions (raised : option nat) (RANK : nat)
    (all_configs_paths : list string) : list Action :=
  match raised with
  | None => main_actions RANK all_configs_paths
  | Some n => take n (main_actions RANK all_configs_paths)
  end.

(** ** Using a buffer *)

(** What a caller can do with a buffer: push a record, or flush. *)
Inductive BufferOp : Type :=
| OpPush (val : CheckpointRecord)
| OpFlush.

Definition run_op (uuid4_hex : nat -> string) (b : Buffer) (op : BufferOp)
  : M Buffer :=
  match op with
  | OpPush val => Buffer_call uuid4_hex b val
  | OpFlush => flush uuid4_hex b
  end.

Fixpoint run_ops (uuid4_hex : nat -> string) (b : Buffer) (ops : list BufferOp)
  : M Buffer :=
  match ops with
  | [] => mret b
  | op :: rest => b' ← run_op uuid4_hex b op; run_ops uuid4_hex b' rest
  end.

(** Push [vals] in order, then flush once: what the compute phase does
    with its buffer. *)
Definition push_all_then_flush (uuid4_hex : nat -> string) (nbuff : Z)
    (vals : list CheckpointRecord) : M Buffer :=
  run_ops uuid4_hex (Buffer_init nbuff) ((OpPush <$> vals) ++ [OpFlush]).

(** Every record held by the files of a STATE directory. *)
Definition records_on_disk (d : StateDir) : list CheckpointRecord :=
  concat (map_to_list d).*2.

(** The file [f] of the STATE directory of [w], when both exist. *)
Definition state_file (w : World) (f : string) : option (list CheckpointRecord) :=
  d ← world_state_dir w; d !! f.

(** No file written is empty: the files of [w'] are files of [w] or hold
    at least one record. *)
Definition only_nonempty_new (w w' : World) : Prop :=
  forall f recs, state_file w' f = Some recs ->
                 state_file w f = Some recs \/ recs <> [].

(** [w] with more events at the end of its trace. *)
Definition add_events (evs : list Event) (w : World) : World :=
  mkWorld (trg w) (trace w ++ evs) (uuid_calls w) (time_calls w)
    (random_calls w).

(** Events that neither call the solver nor write a file: log records,
    directory listings and reads. *)
Definition quiet_event (e : Event) : Prop :=
  match e with
  | EvLog _ _ _ | EvListDir | EvRead _ => True
  | EvSolve _ _ _ | EvWrite _ | EvWriteRes => False
  end.

(** ** The resume engine in the specification's words *)

(** A job is completed when the first two fields of some record of some
    checkpoint file equal it, in the sense of Python's [==]. *)
Definition completed (d : StateDir) (job : GridPoint) : Prop :=
  exists f recs ll,
    d !! f = Some recs /\ ll ∈ recs /\ key_eqb job (rec_key ll) = true.

(** No coordinate of a job of the list is a NaN: every job equals itself. *)
Definition no_nan (jobs : list GridPoint) : bool :=
  forallb (fun job => key_eqb job job) jobs.

(** No element of the list equals a later one. *)
Fixpoint key_distinct (l : list GridPoint) : bool :=
  match l with
  | [] => true
  | x :: rest => negb (key_in x rest) && key_distinct rest
  end.

(** The file names still to be drawn are not in the directory. *)
Definition fresh_names (uuid4_hex : nat -> string) (w : World) (d : StateDir)
  : Prop :=
  forall n, (uuid_calls w <= n)%nat -> d !! pkl_name (uuid4_hex n) = None.

(** [counter] counts the queue. *)
Definition buffer_wf (b : Buffer) : Prop :=
  counter b = Z.of_nat (length (queue b)).

(** ** The partitioner in the specification's words *)

(** The elements of [jobs] whose index is congruent to [i] modulo [W], in
    input order. *)
Definition congruent_indices {A : Type} (W i : nat) (jobs : list A) : list A :=
  (filter (fun p => (p.1 `mod` W)%nat = i) (imap (fun n x => (n, x)) jobs)).*2.

(** ** Concrete inputs *)

(** A supply of distinct names: the decimal numerals. *)
Definition numeral_uuid4_hex (n : nat) : string := pretty n.

Definition constant_clock (n : nat) : float := 0%float.

Definition half_random (n : nat) : float := 0.5%float.

(** A solver whose response is [G = 1 + 2i] everywhere, after 120 time
    units, with largest matrix dimension 7. *)
Definition constant_solver (k w : float) (solver : Z) : SolveResult :=
  mkSolve 1%float 2%float 120%float 7.

(** A target directory with an empty STATE directory and nothing else. *)
Definition started_world : World :=
  mkWorld (Some (mkTrg None (Some ∅) None)) [] 0 0 0.

Definition three_records : list CheckpointRecord :=
  [ mkRecord 0%float 0%float 1%float 2%float 2%float 7;
    mkRecord 0%float 0.5%float 1%float 2%float 2%float 7;
    mkRecord 0%float 1%float 1%float 2%float 2%float 7 ].


(** A STATE directory with one file, which holds the first of
    [three_records]. *)
Definition resumed_world : World :=
  mkWorld (Some (mkTrg None (Some {[ "a.pkl" := take 1 three_records ]}) None))
    [] 0 0 0.

(** One worker, solver 0, batch size chosen by the executor. *)
Definition lone_executor (dry_run : bool) : Executor :=
  mkExecutor 1 0 false dry_run 0 (-1) "configs/000.yaml".


(** A target directory whose DONE file is there, next to a STATE directory
    that still holds a checkpoint file. *)
Definition done_world : World :=
  mkWorld (Some (mkTrg (Some [0%nat])
                   (Some {[ "a.pkl" := take 1 three_records ]}) None))
    [] 0 0 0.

Definition float_of_nat (n : nat) : float :=
  PrimFloat.of_uint63 (Uint63.of_Z (Z.of_nat n)).

(** The frequencies 0.0, 1.0, ..., 199.0. *)
Definition grid_200 : list float := float_of_nat <$> seq 0 200.

(** Rank 3 of a group of four. *)
Definition rank3_executor : Executor :=
  mkExecutor 4 3 false false 0 (-1) "configs/000.yaml".

(** ** Finalize and cleanup *)

(** What [np.array(final)] is for a list of six-number rows: a
    one-dimensional array of shape [(0,)] for the empty list, a
    two-dimensional array of shape [(n, 6)] otherwise. *)
Inductive ndarray : Type :=
| EmptyArray
| RowArray (rows : list CheckpointRecord).

Definition np_array (final : list CheckpointRecord) : ndarray :=
  match final with
  | [] => EmptyArray
  | _ => RowArray final
  end.

Definition array_rows (arr : ndarray) : list CheckpointRecord :=
  match arr with
  | EmptyArray => []
  | RowArray rows => rows
  end.

(** [np.concatenate(res, axis=0)]; [None] is the [ValueError] numpy raises
    for an empty sequence and for arrays that differ in their number of
    dimensions. *)
Fixpoint np_concatenate (res : list ndarray) : option ndarray :=
  match res with
  | [] => None
  | [arr] => Some arr
  | arr :: rest =>
      match arr, np_concatenate rest with
      | EmptyArray, Some EmptyArray => Some EmptyArray
      | RowArray rows, Some (RowArray rows') => Some (RowArray (rows ++ rows'))
      | _, _ => None
      end
  end.

(** The loop of [finalize] over the files handed to this rank. *)
Fixpoint finalize_loop (to_concat_on_rank : list string)
    (final : list CheckpointRecord) : M (list CheckpointRecord) :=
  match to_concat_on_rank with
  | [] => mret final
  | f :: rest =>
      loaded ← pickle_load f;
      finalize_loop rest (final ++ loaded)
  end.

(** [Executor.finalize] *)
Definition finalize (to_concat_on_rank : list string) : M ndarray :=
  final ← finalize_loop to_concat_on_rank [];
  mret (np_array final).

(** [Path(f).unlink()] for a file of the STATE directory: raises when the
    file is not there.  A removal leaves no event; it shows in the
    directory. *)
Definition unlink (f : string) : M unit := fun w =>
  match trg w with
  | Some t =>
      match state_dir t with
      | Some d =>
          match d !! f with
          | Some _ =>
              (Ok tt, set_trg (mkTrg (done_file t) (Some (delete f d)) (res_file t)) w)
          | None => (Raise FileNotFoundError, w)
          end
      | None => (Raise FileNotFoundError, w)
      end
  | None => (Raise FileNotFoundError, w)
  end.

(** [with open(self.done_file, 'a') as f: f.write(f"RANK {self.RANK:05}
    tagged\n")]: creates the file when it is not there, and raises when
    the target directory is missing. *)
Definition tag_done (RANK : nat) : M unit := fun w =>
  match trg w with
  | Some t =>
      (Ok tt,
       set_trg (mkTrg (Some (default [] (done_file t) ++ [RANK]))
                  (state_dir t) (res_file t)) w)
  | None => (Raise FileNotFoundError, w)
  end.

(** The loop of [cleanup] over the files handed to this rank. *)
Fixpoint unlink_all (to_delete_on_rank : list string) : M unit :=
  match to_delete_on_rank with
  | [] => mret tt
  | f :: rest => unlink f;; unlink_all rest
  end.

(** [Executor.cleanup] *)
Definition cleanup (self : Executor) (to_delete_on_rank : list string) : M unit :=
  unlink_all to_delete_on_rank;;
  tag_done (RANK self).

(** [Path(executor.state_dir).rmdir()]; [None] when it raises: the
    directory is missing or still holds a file. *)
Definition rmdir_state (w : World) : option World :=
  match trg w with
  | Some t =>
      match state_dir t with
      | Some d =>
          if decide (d = ∅)
          then Some (set_trg (mkTrg (done_file t) None (res_file t)) w)
          else None
      | None => None
      end
  | None => None
  end.

(** ** The group, phase by phase *)

(** The finalize phase of the driver for a group of [SIZE] ranks: rank 0
    lists the STATE directory and deals the files round robin, every rank
    reads its share, and rank 0 concatenates what it gathered.  No rank
    writes in this phase, so what a rank reads does not depend on the
    order in which the ranks are run; the model runs them by rank. *)
Fixpoint finalize_shares (shares : list (list string)) : M (list ndarray) :=
  match shares with
  | [] => mret []
  | state_files :: rest =>
      res ← finalize state_files;
      others ← finalize_shares rest;
      mret (res :: others)
  end.

Definition finalize_phase (SIZE : nat) : M (option ndarray) :=
  state_files ← listdir_fullpath;
  res ← finalize_shares (chunk_jobs SIZE state_files);
  mret (np_concatenate res).

(** The cleanup phase: the ranks, taken in the order [order], each clean
    the share they were dealt. *)
Fixpoint cleanup_shares (executor : nat -> Executor)
    (shares : list (list string)) (order : list nat) : M unit :=
  match order with
  | [] => mret tt
  | rank :: rest =>
      cleanup (executor rank) (default [] (shares !! rank));;
      cleanup_shares executor shares rest
  end.

(** ** Reading a trace *)

(** The solver calls of a trace, in order. *)
Definition solver_calls (evs : list Event) : list (float * float * Z) :=
  omap (fun e => match e with
                 | EvSolve k w s => Some (k, w, s)
                 | _ => None
                 end) evs.

(** The solver call [calculate] makes for a job. *)
Definition call_of (self : Executor) (job : GridPoint) : float * float * Z :=
  ((job.1 * np_pi)%float, job.2, solver self).

(** The collective calls of a rank's actions, in order. *)
Definition collectives (acts : list Action) : list Action :=
  filter (fun a => a ∈ [ABcast; AGather; AScatter; ABarrier; AAbort]) acts.


(** ** Batches *)

(** [l] cut into consecutive pieces of [n] elements, the last one
    possibly shorter; [fuel] bounds the number of pieces. *)
Fixpoint batches_fuel {A : Type} (fuel n : nat) (l : list A) : list (list A) :=
  match fuel with
  | O => []
  | S fuel' =>
      match l with
      | [] => []
      | _ => take n l :: batches_fuel fuel' n (drop n l)
      end
  end.

Definition batches {A : Type} (n : nat) (l : list A) : list (list A) :=
  batches_fuel (length l) n l.

(** The directory after the files [files] were written one after the
    other. *)
Definition write_files (files : list (string * list CheckpointRecord))
    (d : StateDir) : StateDir :=
  foldl (fun d' fq => <[fq.1 := fq.2]> d') d files.

(** The names of the [n] files written from the [u]-th draw on. *)
Definition drawn_names (uuid4_hex : nat -> string) (u n : nat) : list string :=
  (fun i => pkl_name (uuid4_hex i)) <$> seq u n.

(** The directory after the files [fs] were removed one after the other. *)
Definition remove_files (fs : list string) (d : StateDir) : StateDir :=
  foldl (fun d' f => delete f d') d fs.

(** A STATE directory with two checkpoint files. *)
Definition two_files_world : World :=
  mkWorld
    (Some (mkTrg None
             (Some {[ "a.pkl" := take 2 three_records;
                      "b.pkl" := drop 2 three_records ]}) None))
    [] 0 0 0.

(** ** What a computation does to the world, whatever it returns *)

(** [m] takes every world to one related to it by [R], whether it
    returns or raises. *)
Definition step_inv {A : Type} (R : World -> World -> Prop) (m : M A) : Prop :=
  forall w, R w (m w).2.

(** A log record of [self]'s logger: tagged with its rank, and at level
    DEBUG only when the debug flag is set.  Other events pass. *)
Definition logged_by (self : Executor) (e : Event) : Prop :=
  match e with
  | EvLog rank lvl _ =>
      rank = RANK self /\ (lvl = DEBUG -> debug_flag self = true)
  | _ => True
  end.

(** [w'] has the trace of [w] with events satisfying [P] after it. *)
Definition trace_extends (P : Event -> Prop) (w w' : World) : Prop :=
  exists evs, trace w' = trace w ++ evs /\ Forall P evs.


(** * Properties *)

(** ** Partitioner *)

Section PartitionerFacts.
Context {A : Type}.
Implicit Types (l jobs : list A) (W i j : nat).
Local Open Scope nat_scope.

Lemma stride_lookup W l : 1 <= W ->
  forall skip j, stride W skip l !! j = l !! (skip + j * W).
Proof.
  intros HW. induction l as [|x l IH]; intros skip j; simpl.
  - reflexivity.
  - destruct skip as [|s].
    + destruct j as [|j]; simpl; [reflexivity|].
      rewrite IH. destruct W as [|W']; [lia|]. simpl. f_equal; lia.
    + rewrite IH. reflexivity.
Qed.

Lemma stride_congruent W i l : 1 <= W ->
  forall s skip, skip < W -> (s + skip) `mod` W = i ->
  stride W skip l
  = (filter (fun p => p.1 `mod` W = i) (imap (fun n x => (s + n, x)) l)).*2.
Proof.
  intros HW. induction l as [|x l IH]; intros s skip Hskip Hmod; [reflexivity|].
  rewrite imap_cons. simpl stride.
  assert (Hext : imap ((fun n x => (s + n, x)) ∘ S) l
                 = imap (fun n x => (S s + n, x)) l).
  { apply imap_ext. intros; simpl. f_equal. lia. }
  rewrite Hext. destruct skip as [|k].
  - rewrite filter_cons_True by (simpl; rewrite <- Hmod; f_equal; lia).
    simpl. f_equal. apply (IH (S s) (Nat.pred W)); [lia|].
    rewrite <- Hmod. replace (S s + Nat.pred W) with (s + 0 + 1 * W) by lia.
    apply Nat.Div0.mod_add.
  - rewrite filter_cons_False.
    + apply (IH (S s) k); [lia|]. rewrite <- Hmod. f_equal. lia.
    + simpl. intros Hs. subst i.
      assert (W <> 0) by lia.
      pose proof (Nat.div_mod_eq (s + 0) W).
      pose proof (Nat.div_mod_eq (s + S k) W).
      pose proof (Nat.mod_upper_bound (s + 0) W ltac:(lia)).
      rewrite <- Hs in H1.
      assert (S k = W * ((s + S k) / W) - W * ((s + 0) / W)) by lia.
      assert ((s + 0) / W < (s + S k) / W) by nia.
      nia.
Qed.

Lemma chunk_jobs_length W jobs : length (chunk_jobs W jobs) = W.
Proof. unfold chunk_jobs. rewrite length_fmap. apply length_seq. Qed.

Lemma chunk_jobs_lookup W jobs i : i < W ->
  chunk_jobs W jobs !! i = Some (stride W i jobs).
Proof.
  intros Hi. unfold chunk_jobs, slice_from_step.
  rewrite list_lookup_fmap, lookup_seq_lt by assumption. reflexivity.
Qed.

Lemma chunk_jobs_congruent W jobs i : i < W ->
  chunk_jobs W jobs !! i = Some (congruent_indices W i jobs).
Proof.
  intros Hi. rewrite chunk_jobs_lookup by assumption. f_equal.
  unfold congruent_indices.
  rewrite (stride_congruent W i jobs ltac:(lia) 0 i Hi).
  - reflexivity.
  - rewrite Nat.add_0_l. apply Nat.mod_small. exact Hi.
Qed.

Lemma chunk_jobs_lookup_Some W jobs i c :
  chunk_jobs W jobs !! i = Some c -> i < W /\ c = stride W i jobs.
Proof.
  intros H. assert (Hi : i < W).
  { apply lookup_lt_Some in H. rewrite chunk_jobs_length in H. exact H. }
  rewrite chunk_jobs_lookup in H by assumption. split; congruence.
Qed.

(** Prepending a job rotates the shares: the new job heads share 0, and
    every old share moves one worker up. *)
Lemma concat_strides_cons W x l :
  concat ((fun ii => stride (S W) ii (x :: l)) <$> seq 0 (S W))
  ≡ₚ x :: concat ((fun ii => stride (S W) ii l) <$> seq 0 (S W)).
Proof.
  set (g := fun ii => stride (S W) ii l).
  assert (HL : (fun ii => stride (S W) ii (x :: l)) <$> seq 0 (S W)
               = (x :: g W) :: (g <$> seq 0 W)).
  { simpl seq. rewrite fmap_cons. f_equal.
    rewrite <- fmap_S_seq, <- list_fmap_compose. reflexivity. }
  assert (HR : g <$> seq 0 (S W) = (g <$> seq 0 W) ++ [g W]).
  { rewrite seq_S, fmap_app. reflexivity. }
  rewrite HL, HR. simpl. rewrite concat_app. simpl. rewrite app_nil_r.
  constructor. apply Permutation_app_comm.
Qed.

Lemma concat_chunk_jobs W jobs : 1 <= W -> concat (chunk_jobs W jobs) ≡ₚ jobs.
Proof.
  intros HW. destruct W as [|W]; [lia|]. unfold chunk_jobs, slice_from_step.
  induction jobs as [|x l IH].
  - clear. induction (seq 0 (S W)) as [|n ns IHn]; [reflexivity|exact IHn].
  - rewrite concat_strides_cons. constructor. exact IH.
Qed.

Lemma NoDup_concat_disjoint (ls : list (list A)) i i' c c' x :
  NoDup (concat ls) -> i <> i' ->
  ls !! i = Some c -> ls !! i' = Some c' -> x ∈ c -> x ∉ c'.
Proof.
  revert i i'. induction ls as [|c0 ls IH]; intros i i' Hnd Hne Hi Hi' Hx Hx';
    [discriminate|].
  simpl in Hnd. apply NoDup_app in Hnd as (Hc0 & Hdisj & Hrest).
  assert (Hin : forall k d y, ls !! k = Some d -> y ∈ d -> y ∈ concat ls).
  { intros k d y Hk Hy. apply list_elem_of_In, in_concat. exists d.
    split; apply list_elem_of_In; [eapply list_elem_of_lookup_2|]; eauto. }
  destruct i as [|i], i' as [|i']; simpl in *; try lia.
  - injection Hi as ->. eapply Hdisj; eauto.
  - injection Hi' as ->. eapply Hdisj; eauto.
  - eapply (IH i i'); eauto.
Qed.

End PartitionerFacts.

(** C1. For every job list and every worker count [W >= 1],
    [chunk_jobs] returns [W] shares; share [i] is exactly the elements whose
    index is congruent to [i] modulo [W], in input order (its [j]-th element
    is the input's element [i + j * W]); different workers never receive the
    same input position, every input position [n] goes to worker
    [n mod W], and the shares together are a permutation of the input, so
    every element is handed out exactly once.  When the input has no
    repeated job, the shares are pairwise disjoint as sets too. *)
Theorem chunk_jobs_partition {A : Type} (jobs : list A) (W : nat) :
  (1 <= W)%nat ->
  length (chunk_jobs W jobs) = W
  /\ (forall i, (i < W)%nat ->
        chunk_jobs W jobs !! i = Some (congruent_indices W i jobs))
  /\ (forall i c j, chunk_jobs W jobs !! i = Some c ->
        c !! j = jobs !! (i + j * W)%nat)
  /\ (forall i i' j j', (i < W)%nat -> (i' < W)%nat -> i <> i' ->
        (i + j * W)%nat <> (i' + j' * W)%nat)
  /\ (forall n x, jobs !! n = Some x ->
        exists c, chunk_jobs W jobs !! (n `mod` W)%nat = Some c
                  /\ c !! (n / W)%nat = Some x)
  /\ concat (chunk_jobs W jobs) ≡ₚ jobs
  /\ (NoDup jobs -> forall i i' c c' x, i <> i' ->
        chunk_jobs W jobs !! i = Some c -> chunk_jobs W jobs !! i' = Some c' ->
        x ∈ c -> x ∉ c').
Proof.
  intros HW. repeat split.
  - apply chunk_jobs_length.
  - intros i Hi. apply chunk_jobs_congruent. exact Hi.
  - intros i c j Hc. apply chunk_jobs_lookup_Some in Hc as [_ ->].
    apply stride_lookup. exact HW.
  - intros i i' j j' Hi Hi' Hne Heq. apply Hne.
    assert (j = j') by nia. subst j'. lia.
  - intros n x Hn. exists (stride W (n `mod` W)%nat jobs). split.
    + apply chunk_jobs_lookup. apply Nat.mod_upper_bound. lia.
    + rewrite stride_lookup by exact HW. rewrite <- Hn. f_equal.
      rewrite (Nat.div_mod_eq n W) at 3. lia.
  - apply concat_chunk_jobs. exact HW.
  - intros Hnd i i' c c' x Hne Hc Hc'.
    apply (NoDup_concat_disjoint (chunk_jobs W jobs) i i'); try assumption.
    rewrite concat_chunk_jobs by exact HW. exact Hnd.
Qed.

Lemma chunk_jobs_partition_witness :
  (1 <= 2)%nat
  /\ chunk_jobs 2 [10; 20; 30; 40; 50] !! 1%nat
     = Some (congruent_indices 2 1 [10; 20; 30; 40; 50])
  /\ concat (chunk_jobs 2 [10; 20; 30; 40; 50]) ≡ₚ [10; 20; 30; 40; 50].
Proof.
  assert (H : (1 <= 2)%nat) by lia.
  destruct (chunk_jobs_partition [10; 20; 30; 40; 50] 2 H)
    as (_ & Hshare & _ & _ & _ & Hperm & _).
  split; [exact H|]. split; [apply Hshare; lia | exact Hperm].
Defined.

Example chunk_jobs_5_2 :
  chunk_jobs 2 [10; 20; 30; 40; 50] = [[10; 30; 50]; [20; 40]].
Proof. reflexivity. Qed.

(** On a rank below the group size, [prep_jobs] hands the executor its
    share of the grid product and touches nothing. *)
Lemma prep_jobs_share (self : Executor) (k_grid w_grid : list float) (w : World) :
  (RANK self < SIZE self)%nat ->
  prep_jobs self k_grid w_grid w
  = (Ok (congruent_indices (SIZE self) (RANK self) (product k_grid w_grid)), w).
Proof.
  intros Hr. unfold prep_jobs.
  rewrite chunk_jobs_congruent by exact Hr. reflexivity.
Qed.

(** ** The monad *)

Lemma bind_unfold {A B : Type} (m : M A) (f : A -> M B) (w : World) :
  (m ≫= f) w
  = match m w with
    | (Ok a, w') => f a w'
    | (Raise e, w') => (Raise e, w')
    end.
Proof. reflexivity. Qed.

Lemma bind_Ok {A B : Type} (m : M A) (f : A -> M B) (w w' : World) (a : A) :
  m w = (Ok a, w') -> (m ≫= f) w = f a w'.
Proof. intros H. rewrite bind_unfold, H. reflexivity. Qed.


(** ** File names *)

Lemma string_length_append (s t : string) :
  String.length (s +:+ t) = (String.length s + String.length t)%nat.
Proof. induction s as [|a s IH]; simpl; [reflexivity | rewrite IH; reflexivity]. Qed.

Lemma string_append_inj_l (t s1 s2 : string) : s1 +:+ t = s2 +:+ t -> s1 = s2.
Proof.
  revert s2. induction s1 as [|a s1 IH]; intros [|b s2] H; simpl in H.
  - reflexivity.
  - apply (f_equal String.length) in H.
    rewrite !string_length_append in H. simpl in H. lia.
  - apply (f_equal String.length) in H.
    rewrite !string_length_append in H. simpl in H. lia.
  - change (String a (s1 +:+ t) = String b (s2 +:+ t)) in H.
    injection H as -> H. f_equal. apply IH. exact H.
Qed.

Lemma pkl_name_inj (u1 u2 : string) : pkl_name u1 = pkl_name u2 -> u1 = u2.
Proof. apply string_append_inj_l. Qed.

(** ** Checkpoint buffer *)

Lemma records_on_disk_insert (d : StateDir) (f : string)
    (q : list CheckpointRecord) :
  d !! f = None -> records_on_disk (<[f := q]> d) ≡ₚ records_on_disk d ++ q.
Proof.
  intros Hf. unfold records_on_disk.
  rewrite (map_to_list_insert d f q Hf). simpl.
  apply Permutation_app_comm.
Qed.

Section BufferFacts.
Variable uuid4_hex : nat -> string.

Local Abbreviation fresh_names := (fresh_names uuid4_hex).

Lemma flush_noop (b : Buffer) (w : World) :
  counter b <= 0 -> flush uuid4_hex b w = (Ok b, w).
Proof.
  intros Hc. unfold flush. destruct (decide (0 < counter b)); [lia|reflexivity].
Qed.

(** A flush that has something to write, in a world with a STATE
    directory. *)
Lemma flush_write (b : Buffer) (t : TrgDir) (d : StateDir) (tr : list Event)
    (u c r : nat) :
  0 < counter b -> state_dir t = Some d ->
  flush uuid4_hex b (mkWorld (Some t) tr u c r)
  = (Ok (mkBuffer (nbuff b) 0 []),
     mkWorld
       (Some (mkTrg (done_file t)
                (Some (<[pkl_name (uuid4_hex u) := queue b]> d)) (res_file t)))
       (tr ++ [EvWrite (pkl_name (uuid4_hex u))]) (S u) c r).
Proof.
  intros Hc Hd. unfold flush. destruct (decide (0 < counter b)); [|lia].
  rewrite bind_unfold. simpl. rewrite bind_unfold.
  unfold pickle_dump. simpl. rewrite Hd. reflexivity.
Qed.

Lemma world_state_dir_Some (w : World) (d : StateDir) :
  world_state_dir w = Some d ->
  exists t, trg w = Some t /\ state_dir t = Some d.
Proof.
  unfold world_state_dir. destruct (trg w) as [t|]; simpl; [|discriminate].
  intros H. exists t. split; [reflexivity|exact H].
Qed.

Hypothesis uuid4_distinct : forall n m, uuid4_hex n = uuid4_hex m -> n = m.

Lemma flush_inv (b : Buffer) (w : World) (d : StateDir) :
  buffer_wf b -> world_state_dir w = Some d -> fresh_names w d ->
  exists w' d',
    flush uuid4_hex b w = (Ok (mkBuffer (nbuff b) 0 []), w')
    /\ world_state_dir w' = Some d' /\ fresh_names w' d' /\ d ⊆ d'
    /\ records_on_disk d' ≡ₚ records_on_disk d ++ queue b.
Proof.
  intros Hwf Hd Hfresh. destruct (decide (0 < counter b)) as [Hc|Hc].
  - apply world_state_dir_Some in Hd as (t & Ht & Hd).
    destruct w as [tg tr u c r]. simpl in Ht. subst tg.
    rewrite (flush_write b t d tr u c r Hc Hd).
    assert (Hnew : d !! pkl_name (uuid4_hex u) = None) by (apply Hfresh; simpl; lia).
    eexists _, _. split; [reflexivity|]. split; [reflexivity|].
    split; [|split].
    + intros n Hn. simpl in Hn. rewrite lookup_insert_ne.
      * apply Hfresh. simpl. lia.
      * intros Heq. apply pkl_name_inj, uuid4_distinct in Heq. lia.
    + apply insert_subseteq. exact Hnew.
    + apply records_on_disk_insert. exact Hnew.
  - rewrite flush_noop by lia. unfold buffer_wf in Hwf.
    assert (Hq : queue b = []).
    { destruct (queue b); [reflexivity|]. simpl in Hwf. lia. }
    assert (Hb : b = mkBuffer (nbuff b) 0 []).
    { destruct b as [nb cn q]. simpl in *. subst q. f_equal. simpl in Hwf. lia. }
    rewrite <- Hb. exists w, d. rewrite Hq, app_nil_r. auto.
Qed.

Lemma Buffer_call_inv (b : Buffer) (val : CheckpointRecord) (w : World)
    (d : StateDir) :
  buffer_wf b -> world_state_dir w = Some d -> fresh_names w d ->
  exists b' w' d',
    Buffer_call uuid4_hex b val w = (Ok b', w')
    /\ buffer_wf b' /\ nbuff b' = nbuff b
    /\ world_state_dir w' = Some d' /\ fresh_names w' d' /\ d ⊆ d'
    /\ records_on_disk d' ++ queue b' ≡ₚ records_on_disk d ++ queue b ++ [val].
Proof.
  intros Hwf Hd Hfresh. unfold Buffer_call.
  set (b1 := mkBuffer (nbuff b) (counter b + 1) (queue b ++ [val])).
  assert (Hwf1 : buffer_wf b1).
  { unfold buffer_wf in *. simpl. rewrite length_app. simpl. lia. }
  cbv zeta. destruct (decide (nbuff b1 <= counter b1)) as [Hfull|Hroom].
  - destruct (flush_inv b1 w d Hwf1 Hd Hfresh) as (w' & d' & Hfl & Hd' & Hfr' & Hsub & Hperm).
    exists (mkBuffer (nbuff b1) 0 []), w', d'.
    split; [exact Hfl|]. split; [reflexivity|]. split; [reflexivity|].
    split; [exact Hd'|]. split; [exact Hfr'|]. split; [exact Hsub|].
    simpl. rewrite app_nil_r. exact Hperm.
  - exists b1, w, d.
    split; [reflexivity|]. split; [exact Hwf1|]. split; [reflexivity|].
    split; [exact Hd|]. split; [exact Hfresh|]. split; reflexivity.
Qed.

Lemma run_ops_app (b : Buffer) (ops1 ops2 : list BufferOp) (w : World) :
  run_ops uuid4_hex b (ops1 ++ ops2) w
  = (b' ← run_ops uuid4_hex b ops1; run_ops uuid4_hex b' ops2) w.
Proof.
  revert b w. induction ops1 as [|op ops1 IH]; intros b w; simpl.
  - reflexivity.
  - rewrite !bind_unfold. destruct (run_op uuid4_hex b op w) as [[b'|e] w'].
    + apply IH.
    + reflexivity.
Qed.

Lemma run_pushes_inv (vals : list CheckpointRecord) :
  forall (b : Buffer) (w : World) (d : StateDir),
  buffer_wf b -> world_state_dir w = Some d -> fresh_names w d ->
  exists b' w' d',
    run_ops uuid4_hex b (OpPush <$> vals) w = (Ok b', w')
    /\ buffer_wf b' /\ nbuff b' = nbuff b
    /\ world_state_dir w' = Some d' /\ fresh_names w' d' /\ d ⊆ d'
    /\ records_on_disk d' ++ queue b' ≡ₚ records_on_disk d ++ queue b ++ vals.
Proof.
  induction vals as [|val vals IH]; intros b w d Hwf Hd Hfresh.
  - exists b, w, d. simpl. rewrite app_nil_r.
    split; [reflexivity|]. split; [exact Hwf|]. split; [reflexivity|].
    split; [exact Hd|]. split; [exact Hfresh|]. split; reflexivity.
  - destruct (Buffer_call_inv b val w d Hwf Hd Hfresh)
      as (b1 & w1 & d1 & Hcall & Hwf1 & Hn1 & Hd1 & Hfr1 & Hsub1 & Hperm1).
    destruct (IH b1 w1 d1 Hwf1 Hd1 Hfr1)
      as (b2 & w2 & d2 & Hrun & Hwf2 & Hn2 & Hd2 & Hfr2 & Hsub2 & Hperm2).
    exists b2, w2, d2. simpl. rewrite bind_unfold. simpl. rewrite Hcall.
    split; [exact Hrun|]. split; [exact Hwf2|]. split; [congruence|].
    split; [exact Hd2|]. split; [exact Hfr2|]. split.
    + etransitivity; eassumption.
    + rewrite Hperm2. rewrite (app_assoc _ (queue b1)), Hperm1.
      rewrite <- !app_assoc. reflexivity.
Qed.

Lemma push_all_then_flush_inv (B : Z) (vals : list CheckpointRecord)
    (w : World) (d : StateDir) :
  world_state_dir w = Some d -> fresh_names w d ->
  exists w' d',
    push_all_then_flush uuid4_hex B vals w = (Ok (mkBuffer B 0 []), w')
    /\ world_state_dir w' = Some d' /\ d ⊆ d'
    /\ records_on_disk d' ≡ₚ records_on_disk d ++ vals.
Proof.
  intros Hd Hfresh. unfold push_all_then_flush.
  destruct (run_pushes_inv vals (Buffer_init B) w d eq_refl Hd Hfresh)
    as (b1 & w1 & d1 & Hrun & Hwf1 & Hn1 & Hd1 & Hfr1 & Hsub1 & Hperm1).
  destruct (flush_inv b1 w1 d1 Hwf1 Hd1 Hfr1)
    as (w2 & d2 & Hfl & Hd2 & _ & Hsub2 & Hperm2).
  exists w2, d2. rewrite run_ops_app, (bind_Ok _ _ _ _ _ Hrun). simpl.
  rewrite bind_unfold, Hfl. simpl in Hn1. rewrite Hn1.
  split; [reflexivity|]. split; [exact Hd2|]. split.
  - etransitivity; eassumption.
  - rewrite Hperm2, Hperm1. reflexivity.
Qed.

End BufferFacts.

Lemma records_on_disk_files_disjoint (d : StateDir) (f1 f2 : string)
    (q1 q2 : list CheckpointRecord) (r : CheckpointRecord) :
  NoDup (records_on_disk d) -> f1 <> f2 ->
  d !! f1 = Some q1 -> d !! f2 = Some q2 -> r ∈ q1 -> r ∉ q2.
Proof.
  intros Hnd Hne H1 H2.
  apply elem_of_map_to_list, list_elem_of_lookup in H1 as [i1 H1].
  apply elem_of_map_to_list, list_elem_of_lookup in H2 as [i2 H2].
  apply (NoDup_concat_disjoint (map_to_list d).*2 i1 i2); [exact Hnd| | |].
  - intros ->. rewrite H1 in H2. congruence.
  - rewrite list_lookup_fmap, H1. reflexivity.
  - rewrite list_lookup_fmap, H2. reflexivity.
Qed.

(** C2. Push any records into a fresh buffer of any batch size [B] (in
    particular [1 <= B <= N]) and flush once at the end, in a world whose
    STATE directory exists and whose file names to come are distinct and
    unused: the run succeeds, the buffer ends empty, every file that was
    there is still there, and the records on disk are the old ones plus the
    pushed ones, each pushed record exactly once.  So the number of
    persisted records grows by exactly [N] (it is [N] from an empty
    directory), and when the pushed records are distinct and new no record
    is in two files. *)
Theorem buffer_flush_invariant (uuid4_hex : nat -> string) (B : Z)
    (vals : list CheckpointRecord) (w : World) (d : StateDir) :
  (forall n m, uuid4_hex n = uuid4_hex m -> n = m) ->
  world_state_dir w = Some d ->
  fresh_names uuid4_hex w d ->
  exists b' w' d',
    push_all_then_flush uuid4_hex B vals w = (Ok b', w')
    /\ counter b' = 0 /\ queue b' = []
    /\ world_state_dir w' = Some d'
    /\ d ⊆ d'
    /\ records_on_disk d' ≡ₚ records_on_disk d ++ vals
    /\ length (records_on_disk d')
       = (length (records_on_disk d) + length vals)%nat
    /\ (d = ∅ -> length (records_on_disk d') = length vals)
    /\ (NoDup (records_on_disk d ++ vals) ->
        forall f1 f2 q1 q2 r, f1 <> f2 ->
        d' !! f1 = Some q1 -> d' !! f2 = Some q2 -> r ∈ q1 -> r ∉ q2).
Proof.
  intros Hinj Hd Hfresh.
  destruct (push_all_then_flush_inv uuid4_hex Hinj B vals w d Hd Hfresh)
    as (w' & d' & Hrun & Hd' & Hsub & Hperm).
  exists (mkBuffer B 0 []), w', d'.
  split; [exact Hrun|]. split; [reflexivity|]. split; [reflexivity|].
  split; [exact Hd'|]. split; [exact Hsub|]. split; [exact Hperm|].
  assert (Hlen : length (records_on_disk d')
                 = (length (records_on_disk d) + length vals)%nat).
  { rewrite Hperm, length_app. reflexivity. }
  split; [exact Hlen|]. split.
  - intros ->. rewrite Hlen. unfold records_on_disk.
    rewrite map_to_list_empty. reflexivity.
  - intros Hnd f1 f2 q1 q2 r. apply records_on_disk_files_disjoint.
    rewrite Hperm. exact Hnd.
Qed.

Lemma numeral_uuid4_hex_distinct (n m : nat) :
  numeral_uuid4_hex n = numeral_uuid4_hex m -> n = m.
Proof. unfold numeral_uuid4_hex. apply pretty_nat_inj. Qed.

Lemma fresh_names_empty (uuid4_hex : nat -> string) (w : World) :
  fresh_names uuid4_hex w ∅.
Proof. intros n _. apply lookup_empty. Qed.

Lemma buffer_flush_invariant_witness :
  (forall n m, numeral_uuid4_hex n = numeral_uuid4_hex m -> n = m)
  /\ world_state_dir started_world = Some ∅
  /\ fresh_names numeral_uuid4_hex started_world ∅
  /\ exists b' w' d',
       push_all_then_flush numeral_uuid4_hex 2 three_records started_world
       = (Ok b', w')
       /\ world_state_dir w' = Some d'
       /\ length (records_on_disk d') = 3%nat.
Proof.
  split; [exact numeral_uuid4_hex_distinct|]. split; [reflexivity|].
  split; [apply fresh_names_empty|].
  destruct (buffer_flush_invariant numeral_uuid4_hex 2 three_records
              started_world ∅ numeral_uuid4_hex_distinct eq_refl
              (fresh_names_empty _ _))
    as (b' & w' & d' & Hrun & _ & _ & Hd' & _ & _ & _ & Hlen & _).
  exists b', w', d'. split; [exact Hrun|]. split; [exact Hd'|].
  apply Hlen. reflexivity.
Defined.

(** Three records, batch size two: the second push writes a file of two
    records, the final flush a file of one. *)
Example push_three_batch_two :
  let w' := (push_all_then_flush numeral_uuid4_hex 2 three_records
               started_world).2 in
  trace w' = [EvWrite "0.pkl"; EvWrite "1.pkl"]
  /\ state_file w' "0.pkl" = Some (take 2 three_records)
  /\ state_file w' "1.pkl" = Some (drop 2 three_records)
  /\ uuid_calls w' = 2%nat.
Proof. vm_compute. repeat split. Qed.

(** ** Flushing an empty buffer *)

Section FlushFacts.
Variable uuid4_hex : nat -> string.

Lemma only_nonempty_new_refl (w : World) : only_nonempty_new w w.
Proof. intros f recs H. left. exact H. Qed.

Lemma only_nonempty_new_trans (w1 w2 w3 : World) :
  only_nonempty_new w1 w2 -> only_nonempty_new w2 w3 -> only_nonempty_new w1 w3.
Proof.
  intros H12 H23 f recs H. destruct (H23 f recs H) as [H2|Hne].
  - apply H12. exact H2.
  - right. exact Hne.
Qed.

Lemma flush_effect (b : Buffer) (w : World) :
  buffer_wf b ->
  only_nonempty_new w (flush uuid4_hex b w).2
  /\ forall b', (flush uuid4_hex b w).1 = Ok b' -> buffer_wf b' /\ counter b' <= 0.
Proof.
  intros Hwf. destruct (decide (0 < counter b)) as [Hc|Hc].
  - destruct w as [[t|] tr u c r].
    + destruct (state_dir t) as [d|] eqn:Hd.
      * rewrite (flush_write uuid4_hex b t d tr u c r Hc Hd). simpl. split.
        -- intros f recs. unfold state_file, world_state_dir. simpl. rewrite Hd.
           simpl. destruct (decide (pkl_name (uuid4_hex u) = f)) as [->|Hne].
           ++ rewrite lookup_insert_eq. intros [= <-]. right.
              unfold buffer_wf in Hwf. destruct (queue b); [simpl in Hwf; lia|].
              discriminate.
           ++ rewrite lookup_insert_ne by exact Hne. auto.
        -- intros b' [= <-]. split; [reflexivity | simpl; lia].
      * unfold flush. destruct (decide (0 < counter b)); [|lia].
        rewrite bind_unfold. simpl. rewrite bind_unfold. unfold pickle_dump.
        simpl. rewrite Hd. simpl. split; [|discriminate].
        intros f recs. unfold state_file, world_state_dir. simpl. auto.
    + unfold flush. destruct (decide (0 < counter b)); [|lia].
      rewrite bind_unfold. simpl. split; [|discriminate].
      intros f recs. unfold state_file, world_state_dir. simpl. auto.
  - rewrite flush_noop by lia. simpl. split.
    + apply only_nonempty_new_refl.
    + intros b' [= <-]. split; [exact Hwf | lia].
Qed.

Lemma Buffer_call_effect (b : Buffer) (val : CheckpointRecord) (w : World) :
  buffer_wf b ->
  only_nonempty_new w (Buffer_call uuid4_hex b val w).2
  /\ forall b', (Buffer_call uuid4_hex b val w).1 = Ok b' -> buffer_wf b'.
Proof.
  intros Hwf. unfold Buffer_call.
  set (b1 := mkBuffer (nbuff b) (counter b + 1) (queue b ++ [val])).
  assert (Hwf1 : buffer_wf b1).
  { unfold buffer_wf in *. simpl. rewrite length_app. simpl. lia. }
  cbv zeta. destruct (decide (nbuff b1 <= counter b1)).
  - destruct (flush_effect b1 w Hwf1) as [Hnew Hok]. split; [exact Hnew|].
    intros b' Hb'. apply Hok. exact Hb'.
  - simpl. split; [apply only_nonempty_new_refl|]. intros b' [= <-]. exact Hwf1.
Qed.

Lemma run_ops_effect (ops : list BufferOp) :
  forall (b : Buffer) (w : World), buffer_wf b ->
  only_nonempty_new w (run_ops uuid4_hex b ops w).2.
Proof.
  induction ops as [|op ops IH]; intros b w Hwf; simpl.
  - apply only_nonempty_new_refl.
  - rewrite bind_unfold.
    assert (Hstep : only_nonempty_new w (run_op uuid4_hex b op w).2
                    /\ forall b', (run_op uuid4_hex b op w).1 = Ok b' -> buffer_wf b').
    { destruct op as [val|]; simpl.
      - apply Buffer_call_effect. exact Hwf.
      - destruct (flush_effect b w Hwf) as [Hnew Hok]. split; [exact Hnew|].
        intros b' Hb'. apply Hok. exact Hb'. }
    destruct Hstep as [Hnew Hok].
    destruct (run_op uuid4_hex b op w) as [[b'|e] w'] eqn:Hop; simpl in *.
    + eapply only_nonempty_new_trans; [exact Hnew|]. apply IH. apply Hok. reflexivity.
    + exact Hnew.
Qed.

Lemma flush_twice (b : Buffer) (w : World) :
  (b' ← flush uuid4_hex b; flush uuid4_hex b') w = flush uuid4_hex b w.
Proof.
  rewrite bind_unfold. destruct (decide (0 < counter b)) as [Hc|Hc].
  - unfold flush at 1 3. destruct (decide (0 < counter b)); [|lia].
    rewrite !bind_unfold.
    destruct (fresh_uuid uuid4_hex w) as [[u|e] w1]; [|reflexivity].
    rewrite !bind_unfold.
    destruct (pickle_dump (queue b) (pkl_name u) w1) as [[[]|e] w2]; [|reflexivity].
    simpl. apply flush_noop. simpl. lia.
  - rewrite flush_noop by lia. apply flush_noop. lia.
Qed.

Lemma flush_after_auto_flush (b b' : Buffer) (val : CheckpointRecord)
    (w w' : World) :
  nbuff b <= counter b + 1 ->
  Buffer_call uuid4_hex b val w = (Ok b', w') ->
  flush uuid4_hex b' w' = (Ok b', w').
Proof.
  intros Hfull. unfold Buffer_call. cbv zeta. simpl.
  destruct (decide (nbuff b <= counter b + 1)); [|lia].
  set (b1 := mkBuffer (nbuff b) (counter b + 1) (queue b ++ [val])).
  intros Hfl. pose proof (flush_twice b1 w) as Htw.
  rewrite bind_unfold, Hfl in Htw. exact Htw.
Qed.

End FlushFacts.

(** C9. A flush of a buffer that holds nothing ([counter = 0]) returns
    the buffer and the world as they were; flushing twice in a row is
    flushing once; whatever sequence of pushes and flushes a buffer serves
    from its construction on, every file it has written holds at least one
    record; and the manual flush that follows a push which flushed
    automatically changes nothing. *)
Theorem flush_empty_noop (uuid4_hex : nat -> string) :
  (forall b w, counter b = 0 -> flush uuid4_hex b w = (Ok b, w))
  /\ (forall b w,
        (b' ← flush uuid4_hex b; flush uuid4_hex b') w = flush uuid4_hex b w)
  /\ (forall nbuff ops w f recs,
        state_file (run_ops uuid4_hex (Buffer_init nbuff) ops w).2 f = Some recs ->
        state_file w f = Some recs \/ recs <> [])
  /\ (forall b val w b' w',
        nbuff b <= counter b + 1 ->
        Buffer_call uuid4_hex b val w = (Ok b', w') ->
        flush uuid4_hex b' w' = (Ok b', w')).
Proof.
  split; [|split; [|split]].
  - intros b w Hc. apply flush_noop. lia.
  - apply flush_twice.
  - intros nbuff ops w. apply run_ops_effect. reflexivity.
  - intros b val w b' w'. apply flush_after_auto_flush.
Qed.

Lemma flush_empty_noop_witness :
  counter (Buffer_init 2) = 0
  /\ flush numeral_uuid4_hex (Buffer_init 2) started_world
     = (Ok (Buffer_init 2), started_world).
Proof.
  split; [reflexivity|].
  apply (proj1 (flush_empty_noop numeral_uuid4_hex)). reflexivity.
Defined.

(** Two records, batch size two: the second push flushes, and the final
    flush writes no second file. *)
Example push_two_batch_two :
  let w' := (push_all_then_flush numeral_uuid4_hex 2 (take 2 three_records)
               started_world).2 in
  trace w' = [EvWrite "0.pkl"] /\ uuid_calls w' = 1%nat.
Proof. vm_compute. split; reflexivity. Qed.

(** ** Resume engine *)

Lemma add_events_nil (w : World) : add_events [] w = w.
Proof. destruct w. unfold add_events. simpl. rewrite app_nil_r. reflexivity. Qed.

Lemma add_events_app (evs1 evs2 : list Event) (w : World) :
  add_events evs2 (add_events evs1 w) = add_events (evs1 ++ evs2) w.
Proof. unfold add_events. simpl. rewrite app_assoc. reflexivity. Qed.

(** ** Python's equality on grid points *)

Lemma SFeqb_true (a b : SpecFloat.spec_float) :
  SpecFloat.SFeqb a b = true ->
  (exists s s', a = SpecFloat.S754_zero s /\ b = SpecFloat.S754_zero s')
  \/ (a = b /\ a <> SpecFloat.S754_nan).
Proof.
  unfold SpecFloat.SFeqb, SpecFloat.SFcompare.
  destruct a as [s| s | |s m e], b as [s'|s'| |s' m' e'];
    try discriminate; try (destruct s; discriminate);
    try (destruct s'; discriminate).
  - intros _. left. eauto.
  - destruct s, s'; try discriminate; intros _; right; split; congruence.
  - destruct s, s'; try discriminate;
      (destruct (Z.compare e e') eqn:He; try discriminate;
       destruct (Pos.compare_cont Eq m m') eqn:Hm; try discriminate;
       apply Z.compare_eq in He; apply Pos.compare_eq in Hm; subst;
       intros _; right; split; congruence).
Qed.

Lemma SFeqb_refl (a : SpecFloat.spec_float) :
  a <> SpecFloat.S754_nan -> SpecFloat.SFeqb a a = true.
Proof.
  unfold SpecFloat.SFeqb, SpecFloat.SFcompare.
  destruct a as [s| s | |s m e]; try congruence; intros _.
  - destruct s; reflexivity.
  - rewrite Z.compare_refl.
    assert (H : Pos.compare_cont Eq m m = Eq) by apply Pos.compare_refl.
    rewrite H. destruct s; reflexivity.
Qed.

(** [==] on floats is symmetric and transitive; it is reflexive on all
    floats but NaN. *)
Lemma float_eqb_sym (x y : float) :
  (x =? y)%float = true -> (y =? x)%float = true.
Proof.
  rewrite !FloatAxioms.eqb_spec. intros H.
  destruct (SFeqb_true _ _ H) as [(s & s' & -> & ->)|[Hxy Hn]].
  - reflexivity.
  - rewrite <- Hxy. apply SFeqb_refl. exact Hn.
Qed.

Lemma float_eqb_trans (x y z : float) :
  (x =? y)%float = true -> (y =? z)%float = true -> (x =? z)%float = true.
Proof.
  rewrite !FloatAxioms.eqb_spec. intros H1 H2.
  destruct (SFeqb_true _ _ H1) as [(s & s' & Hx & Hy)|[Hxy Hn]].
  - destruct (SFeqb_true _ _ H2) as [(s1 & s1' & Hy' & Hz)|[Hyz Hn]].
    + rewrite Hx, Hz. reflexivity.
    + rewrite <- Hyz, Hx, Hy. reflexivity.
  - rewrite Hxy. exact H2.
Qed.

Lemma key_eqb_sym (a b : GridPoint) : key_eqb a b = true -> key_eqb b a = true.
Proof.
  unfold key_eqb. rewrite !andb_true_iff. intros [H1 H2].
  split; apply float_eqb_sym; assumption.
Qed.

Lemma key_eqb_trans (a b c : GridPoint) :
  key_eqb a b = true -> key_eqb b c = true -> key_eqb a c = true.
Proof.
  unfold key_eqb. rewrite !andb_true_iff. intros [H1 H2] [H3 H4].
  split; eapply float_eqb_trans; eassumption.
Qed.

(** A key that equals anything equals itself. *)
Lemma key_eqb_refl_l (a b : GridPoint) : key_eqb a b = true -> key_eqb a a = true.
Proof.
  intros H. apply (key_eqb_trans a b a); [exact H | apply key_eqb_sym, H].
Qed.

Lemma key_in_true (x : GridPoint) (s : list GridPoint) :
  key_in x s = true <-> exists y, y ∈ s /\ key_eqb x y = true.
Proof.
  unfold key_in. rewrite existsb_exists. split; intros (y & Hy & Hxy);
    exists y; (split; [apply list_elem_of_In; exact Hy | exact Hxy]).
Qed.

Lemma key_in_false (x : GridPoint) (s : list GridPoint) :
  key_in x s = false <-> forall y, y ∈ s -> key_eqb x y = false.
Proof.
  rewrite <- not_true_iff_false, key_in_true. split.
  - intros Hno y Hy. apply not_true_iff_false. intros Hxy. apply Hno. eauto.
  - intros Hall (y & Hy & Hxy). rewrite (Hall y Hy) in Hxy. discriminate.
Qed.

Lemma key_in_app (x : GridPoint) (s t : list GridPoint) :
  key_in x (s ++ t) = key_in x s || key_in x t.
Proof. apply existsb_app. Qed.

(** Equal keys are in the same sets. *)
Lemma key_in_eqb (x y : GridPoint) (s : list GridPoint) :
  key_eqb x y = true -> key_in x s = key_in y s.
Proof.
  intros Hxy. apply eq_true_iff_eq. rewrite !key_in_true.
  split; intros (z & Hz & Hxz); exists z; (split; [exact Hz|]).
  - apply (key_eqb_trans y x z); [apply key_eqb_sym, Hxy | exact Hxz].
  - apply (key_eqb_trans x y z); assumption.
Qed.

Lemma key_in_elem (x : GridPoint) (s : list GridPoint) :
  x ∈ s -> key_eqb x x = true -> key_in x s = true.
Proof. intros Hx Hxx. apply key_in_true. eauto. Qed.

Lemma key_in_perm (x : GridPoint) (s t : list GridPoint) :
  s ≡ₚ t -> key_in x s = key_in x t.
Proof.
  intros Hst. apply eq_true_iff_eq. rewrite !key_in_true.
  split; intros (y & Hy & Hxy); exists y; (split; [|exact Hxy]).
  - rewrite <- Hst. exact Hy.
  - rewrite Hst. exact Hy.
Qed.

Lemma no_nan_elem (jobs : list GridPoint) (job : GridPoint) :
  no_nan jobs = true -> job ∈ jobs -> key_eqb job job = true.
Proof.
  unfold no_nan. rewrite forallb_forall. intros Hall Hjob.
  apply Hall, list_elem_of_In, Hjob.
Qed.

Lemma key_distinct_app (s t : list GridPoint) :
  key_distinct (s ++ t) = true
  <-> key_distinct s = true /\ key_distinct t = true
      /\ forall x, x ∈ s -> key_in x t = false.
Proof.
  induction s as [|a s IH]; cbn [app key_distinct].
  - split; [intros H|intros (_ & H & _); exact H].
    split; [reflexivity|]. split; [exact H|]. intros x Hx.
    apply elem_of_nil in Hx. contradiction.
  - rewrite !andb_true_iff, !negb_true_iff, IH, key_in_app, orb_false_iff.
    split.
    + intros ((Has & Hat) & Hs & Ht & Hst).
      split; [split; assumption|]. split; [exact Ht|].
      intros x Hx. apply elem_of_cons in Hx as [->|Hx]; [exact Hat | auto].
    + intros ((Has & Hs) & Ht & Hst).
      split; [split; [exact Has | apply Hst; left]|].
      split; [exact Hs|]. split; [exact Ht|]. intros x Hx. apply Hst. right. exact Hx.
Qed.

(** In a list of distinct keys, two positions with equal keys are the
    same position. *)
Lemma key_distinct_lookup (l : list GridPoint) :
  key_distinct l = true ->
  forall i j a b, l !! i = Some a -> l !! j = Some b ->
                  key_eqb a b = true -> i = j.
Proof.
  induction l as [|x l IH]; intros Hd i j a b Hi Hj Hab; [discriminate Hi|].
  cbn [key_distinct] in Hd. apply andb_true_iff in Hd as [Hx Hl].
  apply negb_true_iff in Hx. rewrite key_in_false in Hx.
  destruct i as [|i], j as [|j]; simpl in Hi, Hj.
  - reflexivity.
  - injection Hi as <-. apply list_elem_of_lookup_2 in Hj.
    rewrite (Hx b Hj) in Hab. discriminate.
  - injection Hj as <-. apply list_elem_of_lookup_2 in Hi.
    apply key_eqb_sym in Hab. rewrite (Hx a Hi) in Hab. discriminate.
  - f_equal. eapply IH; eassumption.
Qed.

Lemma key_distinct_filter (P : GridPoint -> Prop) `{!forall x, Decision (P x)}
    (l : list GridPoint) :
  key_distinct l = true -> key_distinct (filter P l) = true.
Proof.
  induction l as [|x l IH]; [reflexivity|]. cbn [key_distinct].
  rewrite andb_true_iff, negb_true_iff. intros [Hx Hl].
  rewrite filter_cons. destruct (decide (P x)); [|auto].
  cbn [key_distinct]. rewrite andb_true_iff, negb_true_iff. split; [|auto].
  rewrite key_in_false in *. intros y Hy. apply Hx.
  apply list_elem_of_filter in Hy. tauto.
Qed.

(** ** Python's sets *)

Lemma set_update_elem (l : list GridPoint) :
  forall s x, x ∈ set_update s l -> x ∈ s \/ x ∈ l.
Proof.
  induction l as [|a l IH]; intros s x Hx; [left; exact Hx|].
  cbn [set_update] in Hx. apply IH in Hx as [Hx|Hx].
  - destruct (key_in a s).
    + left. exact Hx.
    + apply elem_of_app in Hx as [Hx|Hx]; [left; exact Hx|].
      right. apply list_elem_of_singleton in Hx as ->. left.
  - right. right. exact Hx.
Qed.

Lemma set_update_key_in (l : list GridPoint) :
  forall s x, key_in x (set_update s l) = key_in x s || key_in x l.
Proof.
  induction l as [|a l IH]; intros s x; cbn [set_update].
  - simpl. rewrite orb_false_r. reflexivity.
  - rewrite IH. destruct (key_in a s) eqn:Ha.
    + cbn [key_in existsb]. fold (key_in x l).
      destruct (key_eqb x a) eqn:Hxa; [|reflexivity].
      rewrite (key_in_eqb x a s Hxa), Ha. reflexivity.
    + rewrite key_in_app. cbn [key_in existsb]. fold (key_in x l) (key_in x s).
      rewrite orb_false_r, orb_assoc. reflexivity.
Qed.

Lemma set_update_distinct (l : list GridPoint) :
  forall s, key_distinct s = true -> key_distinct (set_update s l) = true.
Proof.
  induction l as [|a l IH]; intros s Hs; [exact Hs|].
  cbn [set_update]. apply IH. destruct (key_in a s) eqn:Ha; [exact Hs|].
  apply key_distinct_app. split; [exact Hs|]. split; [reflexivity|].
  intros x Hx. cbn [key_in existsb]. rewrite orb_false_r.
  destruct (key_eqb x a) eqn:Hxa; [|reflexivity].
  apply key_eqb_sym in Hxa. rewrite key_in_false in Ha.
  rewrite (Ha x Hx) in Hxa. discriminate.
Qed.


Lemma py_set_elem (l : list GridPoint) (x : GridPoint) : x ∈ py_set l -> x ∈ l.
Proof.
  intros Hx. apply set_update_elem in Hx as [Hx|Hx]; [|exact Hx].
  apply elem_of_nil in Hx. contradiction.
Qed.

Lemma py_set_key_in (l : list GridPoint) (x : GridPoint) :
  key_in x (py_set l) = key_in x l.
Proof. unfold py_set. rewrite set_update_key_in. reflexivity. Qed.

Lemma py_set_distinct (l : list GridPoint) : key_distinct (py_set l) = true.
Proof. apply set_update_distinct. reflexivity. Qed.


(** What [list(set(jobs) - set(keys))] holds. *)
Lemma set_difference_elem (jobs keys : list GridPoint) (job : GridPoint) :
  job ∈ set_difference (py_set jobs) (py_set keys) ->
  job ∈ jobs /\ key_in job keys = false.
Proof.
  unfold set_difference. rewrite list_elem_of_filter, py_set_key_in.
  intros [Hk Hj]. split; [apply py_set_elem, Hj | exact Hk].
Qed.

Lemma set_difference_key_in (jobs keys : list GridPoint) (job : GridPoint) :
  key_in job (set_difference (py_set jobs) (py_set keys))
  = key_in job jobs && negb (key_in job keys).
Proof.
  apply eq_true_iff_eq.
  rewrite andb_true_iff, negb_true_iff, !key_in_true. split.
  - intros (r & Hr & Hjr). unfold set_difference in Hr.
    apply list_elem_of_filter in Hr as [Hk Hr]. rewrite py_set_key_in in Hk.
    split.
    + rewrite <- key_in_true, <- (py_set_key_in jobs). apply key_in_true. eauto.
    + rewrite (key_in_eqb job r keys Hjr). exact Hk.
  - intros [Hj Hk]. rewrite <- key_in_true, <- (py_set_key_in jobs) in Hj.
    apply key_in_true in Hj as (r & Hr & Hjr). exists r. split; [|exact Hjr].
    unfold set_difference. apply list_elem_of_filter. split; [|exact Hr].
    rewrite py_set_key_in, <- (key_in_eqb job r keys Hjr). exact Hk.
Qed.

Lemma set_difference_distinct (jobs keys : list GridPoint) :
  key_distinct (set_difference (py_set jobs) (py_set keys)) = true.
Proof. apply key_distinct_filter, py_set_distinct. Qed.

Lemma completed_records (d : StateDir) (job : GridPoint) :
  completed d job <-> key_in job (rec_key <$> records_on_disk d) = true.
Proof.
  unfold completed, records_on_disk. rewrite key_in_true. split.
  - intros (f & recs & ll & Hf & Hll & Hkey). exists (rec_key ll).
    split; [|exact Hkey].
    apply list_elem_of_fmap. exists ll. split; [reflexivity|].
    apply list_elem_of_In, in_concat. exists recs.
    split; apply list_elem_of_In; [|exact Hll].
    apply list_elem_of_fmap. exists (f, recs). split; [reflexivity|].
    apply elem_of_map_to_list. exact Hf.
  - intros (y & Hy & Hkey). apply list_elem_of_fmap in Hy as (ll & -> & Hll).
    apply list_elem_of_In, in_concat in Hll as (recs & Hrecs & Hll).
    apply list_elem_of_In, list_elem_of_fmap in Hrecs as ([f recs'] & -> & Hf).
    apply elem_of_map_to_list in Hf.
    exists f, recs', ll. split; [exact Hf|]. split; [|exact Hkey].
    apply list_elem_of_In. exact Hll.
Qed.

(** Reading the listed files one by one collects the keys of their
    records, in listing order. *)
Lemma load_completed_files (d : StateDir) (files : list (string * list CheckpointRecord)) :
  (forall f recs, (f, recs) ∈ files -> d !! f = Some recs) ->
  forall (acc : list GridPoint) (w : World), world_state_dir w = Some d ->
  load_completed files.*1 acc w
  = (Ok (acc ++ (rec_key <$> concat files.*2)),
     add_events (EvRead <$> files.*1) w).
Proof.
  induction files as [|[f recs] files IH]; intros Hfiles acc w Hd.
  - simpl. rewrite add_events_nil, app_nil_r. reflexivity.
  - simpl. rewrite bind_unfold. unfold pickle_load. rewrite Hd. simpl.
    rewrite (Hfiles f recs) by (left). simpl.
    change (mkWorld (trg w) (trace w ++ [EvRead f]) (uuid_calls w)
              (time_calls w) (random_calls w)) with (add_events [EvRead f] w).
    rewrite IH.
    + rewrite add_events_app, fmap_app, app_assoc. reflexivity.
    + intros f' recs' Hin. apply Hfiles. right. exact Hin.
    + exact Hd.
Qed.


Lemma set_difference_nil (a : list GridPoint) : set_difference a (py_set []) = a.
Proof.
  unfold set_difference. induction a as [|x a IH]; [reflexivity|].
  rewrite filter_cons_True by reflexivity. f_equal. exact IH.
Qed.

(** With nothing listed, nothing is read and nothing is taken away. *)
Lemma find_remaining_jobs_with_nil (listdir : M (list string))
    (jobs : list GridPoint) (w w1 : World) :
  listdir w = (Ok [], w1) ->
  find_remaining_jobs_with listdir jobs w = (Ok (py_set jobs), w1).
Proof.
  intros H. unfold find_remaining_jobs_with.
  rewrite (bind_Ok _ _ _ _ _ H), bind_unfold. simpl.
  unfold mret, M_ret. rewrite set_difference_nil. reflexivity.
Qed.


Lemma find_remaining_jobs_present (jobs : list GridPoint) (w : World)
    (d : StateDir) :
  world_state_dir w = Some d ->
  find_remaining_jobs jobs w
  = (Ok (set_difference (py_set jobs)
           (py_set (rec_key <$> records_on_disk d))),
     add_events (EvListDir :: (EvRead <$> (map_to_list d).*1)) w).
Proof.
  intros Hd. unfold find_remaining_jobs, find_remaining_jobs_with.
  rewrite bind_unfold.
  unfold listdir_fullpath. simpl. rewrite Hd.
  change (mkWorld (trg w) (trace w ++ [EvListDir]) (uuid_calls w)
            (time_calls w) (random_calls w)) with (add_events [EvListDir] w).
  rewrite bind_unfold.
  rewrite (load_completed_files d (map_to_list d)).
  - rewrite add_events_app. reflexivity.
  - intros f recs. apply elem_of_map_to_list.
  - exact Hd.
Qed.

Lemma find_remaining_jobs_absent (jobs : list GridPoint) (w : World) :
  world_state_dir w = None ->
  find_remaining_jobs jobs w = (Ok (py_set jobs), add_events [EvListDir] w).
Proof.
  intros Hd. apply find_remaining_jobs_with_nil.
  unfold listdir_fullpath. simpl. rewrite Hd. reflexivity.
Qed.

(** What the resume engine leaves, given the records on disk. *)
Lemma remaining_jobs_spec (jobs : list GridPoint) (d : StateDir) :
  let remaining :=
    set_difference (py_set jobs) (py_set (rec_key <$> records_on_disk d)) in
  (forall job, job ∈ remaining -> job ∈ jobs)
  /\ (forall job,
        key_in job remaining = true
        <-> key_in job jobs = true /\ ~ completed d job)
  /\ key_distinct remaining = true.
Proof.
  cbv zeta. split; [|split].
  - intros job Hjob. apply set_difference_elem in Hjob. tauto.
  - intros job. rewrite set_difference_key_in, andb_true_iff, negb_true_iff,
      completed_records, not_true_iff_false. reflexivity.
  - apply set_difference_distinct.
Qed.

(** C3. With the STATE directory present and no NaN among the assigned
    jobs, the resume engine succeeds and returns the set difference
    assigned minus completed, equality being Python's [==] on the [(k, w)]
    pairs: every job returned is an assigned one; a job is in the remainder
    if and only if it is among the assigned jobs and not completed, a job
    being completed if and only if the first two fields of some record of
    some checkpoint file equal it; and no two jobs of the remainder are
    equal.  Nothing is said about the order.  The files stay as they
    were. *)
Theorem find_remaining_jobs_difference (jobs : list GridPoint) (w : World)
    (d : StateDir) :
  world_state_dir w = Some d ->
  no_nan jobs = true ->
  exists remaining w',
    find_remaining_jobs jobs w = (Ok remaining, w')
    /\ trg w' = trg w
    /\ (forall job, job ∈ remaining -> job ∈ jobs)
    /\ (forall job,
          key_in job remaining = true
          <-> key_in job jobs = true /\ ~ completed d job)
    /\ key_distinct remaining = true.
Proof.
  intros Hd _. rewrite (find_remaining_jobs_present jobs w d Hd).
  eexists _, _. split; [reflexivity|]. split; [reflexivity|].
  apply remaining_jobs_spec.
Qed.

Lemma find_remaining_jobs_difference_witness :
  world_state_dir resumed_world = Some {[ "a.pkl" := take 1 three_records ]}
  /\ no_nan (rec_key <$> three_records) = true
  /\ exists remaining w',
       find_remaining_jobs (rec_key <$> three_records) resumed_world
       = (Ok remaining, w')
       /\ trg w' = trg resumed_world
       /\ (forall job, job ∈ remaining -> job ∈ rec_key <$> three_records)
       /\ (forall job,
             key_in job remaining = true
             <-> key_in job (rec_key <$> three_records) = true
                 /\ ~ completed {[ "a.pkl" := take 1 three_records ]} job)
       /\ key_distinct remaining = true.
Proof.
  split; [reflexivity|]. split; [reflexivity|].
  apply (find_remaining_jobs_difference (rec_key <$> three_records)
           resumed_world {[ "a.pkl" := take 1 three_records ]}).
  - reflexivity.
  - reflexivity.
Defined.

(** One of three jobs is checkpointed: the other two remain, and the one
    file was listed and read. *)
Example find_remaining_two_of_three :
  (find_remaining_jobs (rec_key <$> three_records) resumed_world).1
  = Ok (rec_key <$> drop 1 three_records)
  /\ trace (find_remaining_jobs (rec_key <$> three_records) resumed_world).2
     = [EvListDir; EvRead "a.pkl"].
Proof. vm_compute. split; reflexivity. Qed.

(** The record at [(0.0, 0.0)] completes the job at [(-0.0, 0.0)], and of
    the two jobs [(-0.0, 1.0)] and [(0.0, 1.0)] the set keeps the first. *)
Example find_remaining_signed_zero :
  (find_remaining_jobs [((-0)%float, 0%float)] resumed_world).1 = Ok []
  /\ (find_remaining_jobs [((-0)%float, 1%float); (0%float, 1%float)]
        resumed_world).1 = Ok [((-0)%float, 1%float)].
Proof. vm_compute. split; reflexivity. Qed.

(** A record whose key holds a NaN completes no job. *)
Example find_remaining_nan_record :
  let d : StateDir := {[ "a.pkl" := [mkRecord nan 0 1 2 2 7] ]} in
  (find_remaining_jobs [(0%float, 0%float)]
     (mkWorld (Some (mkTrg None (Some d) None)) [] 0 0 0)).1
  = Ok [(0%float, 0%float)].
Proof. vm_compute. reflexivity. Qed.




(** ** The executor's compute operation *)

Section CalculateFacts.
Variable uuid4_hex : nat -> string.
Variable time_time : nat -> float.
Variable np_random_random : nat -> float.
Variable sy_solve : float -> float -> Z -> SolveResult.

Lemma emit_add_events (e : Event) (w : World) :
  emit e w = (Ok tt, add_events [e] w).
Proof. reflexivity. Qed.

Lemma calculate_done (self : Executor) (k_grid w_grid : list float) (w : World) :
  is_Some (t ← trg w; done_file t) ->
  calculate uuid4_hex time_time np_random_random sy_solve self k_grid w_grid w
  = (Ok 0%float,
     add_events [EvLog (RANK self) WARNING (MsgDoneFileExists (cfg self))] w).
Proof.
  intros Hdone. unfold calculate, calculate_prepare.
  rewrite !bind_unfold. unfold done_file_exists.
  rewrite bool_decide_eq_true_2 by exact Hdone. reflexivity.
Qed.

(** With the solver on, the loop body is: leave the point's events in the
    trace, then push the record built from the solver's response. *)
Lemma loop_body_solved (self : Executor) (print_every L cc : Z)
    (_k _w : float) (buffer : Buffer) (w : World) :
  dry_run self = false ->
  loop_body uuid4_hex np_random_random sy_solve self print_every L cc
    (_k, _w) buffer w
  = (let r := sy_solve (_k * np_pi)%float _w (solver self) in
     Buffer_call uuid4_hex buffer
       (mkRecord _k _w (G_real r) (G_imag r) (meta_time r / 60)%float (meta_inv r))
       (add_events (point_events sy_solve self print_every L cc _k _w) w)).
Proof.
  intros Hdry. unfold loop_body, solve_point, point_events, log_debug, log.
  rewrite Hdry. cbv zeta. simpl negb. cbv iota.
  destruct (debug_flag self);
    destruct (spectral_weight (G_imag (sy_solve (_k * np_pi)%float _w (solver self)))
              <? 0)%float;
    destruct (decide ((cc `mod` print_every = 0 \/ cc = 0) /\ RANK self = 0%nat));
    destruct (decide (RANK self = 0%nat /\ cc = 0));
    repeat (rewrite bind_unfold; simpl); unfold add_events; simpl;
    rewrite <- ?app_assoc; reflexivity.
Qed.

(** With a STATE directory, a push succeeds and the record is in the
    queue or in the file just written. *)
Lemma Buffer_call_keeps (b : Buffer) (val : CheckpointRecord) (w : World)
    (d : StateDir) :
  world_state_dir w = Some d ->
  exists b' w',
    Buffer_call uuid4_hex b val w = (Ok b', w')
    /\ (val ∈ queue b'
        \/ exists f recs, state_file w' f = Some recs /\ val ∈ recs).
Proof.
  intros Hd. unfold Buffer_call. cbv zeta. simpl.
  assert (Hin : val ∈ queue b ++ [val]) by (apply elem_of_app; right; left).
  destruct (decide (nbuff b <= counter b + 1)) as [Hfull|Hroom].
  - set (b1 := mkBuffer (nbuff b) (counter b + 1) (queue b ++ [val])).
    destruct (decide (0 < counter b1)) as [Hc|Hc].
    + apply world_state_dir_Some in Hd as (t & Ht & Hd).
      destruct w as [tg tr u c r]. simpl in Ht. subst tg.
      rewrite (flush_write uuid4_hex b1 t d tr u c r Hc Hd).
      eexists _, _. split; [reflexivity|]. right.
      exists (pkl_name (uuid4_hex u)), (queue b ++ [val]). split; [|exact Hin].
      unfold state_file, world_state_dir. simpl. apply lookup_insert_eq.
    + rewrite flush_noop by lia. eexists _, _. split; [reflexivity|].
      left. exact Hin.
  - eexists _, _. split; [reflexivity|]. left. exact Hin.
Qed.

End CalculateFacts.

(** C5. When the DONE file of the job group exists, [calculate] returns
    the elapsed time [0.0] at once: the only thing it leaves behind is one
    warning in the log.  The target directory with its STATE directory is
    what it was, no solver call was made, no file was listed, read or
    written, and no name, clock value or random number was drawn. *)
Theorem calculate_done_marker (uuid4_hex : nat -> string)
    (time_time np_random_random : nat -> float)
    (sy_solve : float -> float -> Z -> SolveResult)
    (self : Executor) (k_grid w_grid : list float) (w : World) :
  is_Some (t ← trg w; done_file t) ->
  exists w',
    calculate uuid4_hex time_time np_random_random sy_solve self k_grid w_grid w
    = (Ok 0%float, w')
    /\ trace w'
       = trace w ++ [EvLog (RANK self) WARNING (MsgDoneFileExists (cfg self))]
    /\ trg w' = trg w
    /\ world_state_dir w' = world_state_dir w
    /\ uuid_calls w' = uuid_calls w
    /\ time_calls w' = time_calls w
    /\ random_calls w' = random_calls w.
Proof.
  intros Hdone. eexists. split.
  - apply calculate_done. exact Hdone.
  - repeat split.
Qed.

Lemma calculate_done_marker_witness :
  is_Some (t ← trg done_world; done_file t)
  /\ exists w',
       calculate numeral_uuid4_hex constant_clock half_random constant_solver
         (lone_executor false) [0%float] [0%float; 0.5%float; 1%float] done_world
       = (Ok 0%float, w')
       /\ trace w'
          = [EvLog 0 WARNING (MsgDoneFileExists "configs/000.yaml")]
       /\ trg w' = trg done_world.
Proof.
  assert (H : is_Some (t ← trg done_world; done_file t)) by (eexists; reflexivity).
  split; [exact H|].
  destruct (calculate_done_marker numeral_uuid4_hex constant_clock half_random
              constant_solver (lone_executor false) [0%float]
              [0%float; 0.5%float; 1%float] done_world H)
    as (w' & Hrun & Htr & Htrg & _).
  exists w'. split; [exact Hrun|]. split; [exact Htr | exact Htrg].
Defined.

(** C6. For a solved grid point (solver on) with response [G], the
    spectral weight is [-G.imag / np.pi] in binary64 arithmetic; the loop
    body leaves the point's events in the trace and then pushes the record
    [(k, w, Re G, Im G, tcomp, largest_mat_dim)] built from the solver's
    response, whatever the sign of the weight; the error line for a
    negative weight is among the events exactly when the weight is below
    zero; nothing but the push can raise, and with a STATE directory the
    body succeeds with the record in the queue or in the file just
    written. *)
Theorem negative_weight_logged_record_kept (uuid4_hex : nat -> string)
    (np_random_random : nat -> float)
    (sy_solve : float -> float -> Z -> SolveResult)
    (self : Executor) (print_every L cc : Z) (_k _w : float)
    (buffer : Buffer) (w : World) :
  dry_run self = false ->
  let r := sy_solve (_k * np_pi)%float _w (solver self) in
  let A := spectral_weight (G_imag r) in
  let val :=
    mkRecord _k _w (G_real r) (G_imag r) (meta_time r / 60)%float (meta_inv r) in
  let evs := point_events sy_solve self print_every L cc _k _w in
  A = (PrimFloat.opp (G_imag r) / np_pi)%float
  /\ loop_body uuid4_hex np_random_random sy_solve self print_every L cc
       (_k, _w) buffer w
     = Buffer_call uuid4_hex buffer val (add_events evs w)
  /\ (EvLog (RANK self) ERROR (MsgNegativeSpectralWeight A) ∈ evs
      <-> (A <? 0)%float = true)
  /\ (forall d, world_state_dir w = Some d ->
      exists b' w',
        loop_body uuid4_hex np_random_random sy_solve self print_every L cc
          (_k, _w) buffer w = (Ok b', w')
        /\ (val ∈ queue b'
            \/ exists f recs, state_file w' f = Some recs /\ val ∈ recs)).
Proof.
  intros Hdry r A val evs.
  assert (Hbody := loop_body_solved uuid4_hex np_random_random sy_solve self
                     print_every L cc _k _w buffer w Hdry).
  cbv zeta in Hbody. fold r val evs in Hbody.
  split; [reflexivity|]. split; [exact Hbody|]. split.
  - unfold evs, point_events. fold r A.
    destruct (debug_flag self); destruct (A <? 0)%float;
      destruct (decide ((cc `mod` print_every = 0 \/ cc = 0) /\ RANK self = 0%nat));
      destruct (decide (RANK self = 0%nat /\ cc = 0));
      rewrite ?elem_of_app, ?elem_of_cons, ?elem_of_nil;
      intuition (try discriminate; try congruence).
  - intros d Hd. rewrite Hbody.
    apply (Buffer_call_keeps uuid4_hex buffer val (add_events evs w) d).
    exact Hd.
Qed.

Lemma negative_weight_logged_record_kept_witness :
  dry_run (lone_executor false) = false
  /\ spectral_weight 2 = (PrimFloat.opp 2 / np_pi)%float
  /\ (spectral_weight 2 <? 0)%float = true
  /\ EvLog 0 ERROR (MsgNegativeSpectralWeight (spectral_weight 2))
     ∈ point_events constant_solver (lone_executor false) 1 3 0 0 0.5
  /\ loop_body numeral_uuid4_hex half_random constant_solver
       (lone_executor false) 1 3 0 (0%float, 0.5%float) (Buffer_init 2)
       started_world
     = Buffer_call numeral_uuid4_hex (Buffer_init 2)
         (mkRecord 0 0.5 1 2 (120 / 60)%float 7)
         (add_events
            (point_events constant_solver (lone_executor false) 1 3 0 0 0.5)
            started_world).
Proof.
  destruct (negative_weight_logged_record_kept numeral_uuid4_hex half_random
              constant_solver (lone_executor false) 1 3 0 0%float 0.5%float
              (Buffer_init 2) started_world eq_refl)
    as (HA & Hbody & Herr & _).
  split; [reflexivity|]. split; [exact HA|].
  assert (Hneg : (spectral_weight 2 <? 0)%float = true) by (vm_compute; reflexivity).
  split; [exact Hneg|]. split; [|exact Hbody].
  apply Herr. exact Hneg.
Defined.

(** The response [G = 1 + 2i] gives the weight [-2 / pi]: the error is
    logged and the record goes into the queue as the solver gave it. *)
Example loop_body_negative_weight :
  spectral_weight 2 = (-0x1.45f306dc9c883p-1)%float
  /\ loop_body numeral_uuid4_hex half_random constant_solver
       (lone_executor false) 1 3 0 (0%float, 0.5%float) (Buffer_init 2)
       started_world
     = (Ok (mkBuffer 2 1 [mkRecord 0 0.5 1 2 2 7]),
        add_events
          [EvSolve 0 0.5 0;
           EvLog 0 ERROR (MsgNegativeSpectralWeight (-0x1.45f306dc9c883p-1));
           EvLog 0 INFO (MsgDoneIn 0 3 2);
           EvLog 0 INFO (MsgLargestMatrixSize 7)] started_world).
Proof. vm_compute. split; reflexivity. Qed.

(** ** Batch size *)

Lemma find_remaining_jobs_total (jobs : list GridPoint) (w : World) :
  exists remaining evs,
    find_remaining_jobs jobs w = (Ok remaining, add_events evs w).
Proof.
  destruct (world_state_dir w) as [d|] eqn:Hd.
  - rewrite (find_remaining_jobs_present jobs w d Hd). eexists _, _. reflexivity.
  - rewrite (find_remaining_jobs_absent jobs w Hd). eexists _, _. reflexivity.
Qed.

Lemma calculate_prepare_ready (self : Executor) (k_grid w_grid : list float)
    (w w' : World) (remaining : list GridPoint) :
  (t ← trg w; done_file t) = None ->
  (RANK self < SIZE self)%nat ->
  congruent_indices (SIZE self) (RANK self) (product k_grid w_grid) <> [] ->
  find_remaining_jobs
    (congruent_indices (SIZE self) (RANK self) (product k_grid w_grid)) w
  = (Ok remaining, w') ->
  calculate_prepare self k_grid w_grid w
  = (Ok (Ready remaining
           (Buffer_init
              (if decide (0 < self_nbuff self) then self_nbuff self
               else Z.max (Z.of_nat (length remaining) / 100) 1))), w').
Proof.
  intros Hdone Hrank Hne Hrem. unfold calculate_prepare.
  rewrite bind_unfold. unfold done_file_exists. rewrite Hdone.
  rewrite bool_decide_eq_false_2 by (intros [x Hx]; discriminate Hx).
  rewrite (bind_Ok _ _ _ _ _ (prep_jobs_share self k_grid w_grid w Hrank)).
  destruct (decide (length (congruent_indices (SIZE self) (RANK self)
                              (product k_grid w_grid)) = 0%nat)) as [Hlen|_].
  - apply length_zero_iff_nil in Hlen. contradiction.
  - rewrite (bind_Ok _ _ _ _ _ Hrem). reflexivity.
Qed.

(** C8, as stated, fails: 200 jobs are assigned, one of them is already
    checkpointed, and with a non-positive configured value the buffer gets
    a batch size of 199 // 100 = 1, not 200 // 100 = 2. *)
Lemma buffer_size_not_from_assigned_jobs :
  self_nbuff (lone_executor false) <= 0
  /\ exists assigned remaining buffer w',
       prep_jobs (lone_executor false) [0%float] grid_200 resumed_world
       = (Ok assigned, resumed_world)
       /\ calculate_prepare (lone_executor false) [0%float] grid_200 resumed_world
          = (Ok (Ready remaining buffer), w')
       /\ length assigned = 200%nat
       /\ length remaining = 199%nat
       /\ nbuff buffer = 1
       /\ Z.max (Z.of_nat (length assigned) / 100) 1 = 2
       /\ nbuff buffer <> Z.max (Z.of_nat (length assigned) / 100) 1.
Proof.
  split; [vm_compute; discriminate|].
  assert (Hprep : exists remaining w',
            calculate_prepare (lone_executor false) [0%float] grid_200
              resumed_world = (Ok (Ready remaining (Buffer_init 1)), w')
            /\ length remaining = 199%nat).
  { vm_compute. eexists _, _. split; reflexivity. }
  destruct Hprep as (remaining & w' & Hprep & Hlen).
  exists (product [0%float] grid_200), remaining, (Buffer_init 1), w'.
  split; [reflexivity|]. split; [exact Hprep|]. split; [reflexivity|].
  split; [exact Hlen|]. split; [reflexivity|]. split; [reflexivity|].
  vm_compute. discriminate.
Qed.

(** C8 (amended). When the DONE file is absent and this rank's share of
    the grid is not empty, [calculate] reaches its buffer: a positive
    configured batch size is used unchanged, and a non-positive one gives
    [max(R // 100, 1)], where [R] is the number of this rank's jobs that
    remain after the resume engine has removed the completed ones. *)
Theorem buffer_size_from_remaining_jobs (self : Executor)
    (k_grid w_grid : list float) (w : World) :
  (t ← trg w; done_file t) = None ->
  (RANK self < SIZE self)%nat ->
  congruent_indices (SIZE self) (RANK self) (product k_grid w_grid) <> [] ->
  exists remaining buffer w',
    find_remaining_jobs
      (congruent_indices (SIZE self) (RANK self) (product k_grid w_grid)) w
    = (Ok remaining, w')
    /\ calculate_prepare self k_grid w_grid w = (Ok (Ready remaining buffer), w')
    /\ counter buffer = 0 /\ queue buffer = []
    /\ (0 < self_nbuff self -> nbuff buffer = self_nbuff self)
    /\ (self_nbuff self <= 0 ->
        nbuff buffer = Z.max (Z.of_nat (length remaining) / 100) 1).
Proof.
  intros Hdone Hrank Hne.
  destruct (find_remaining_jobs_total
              (congruent_indices (SIZE self) (RANK self) (product k_grid w_grid)) w)
    as (remaining & evs & Hrem).
  eexists remaining, _, _. split; [exact Hrem|]. split.
  - apply calculate_prepare_ready; eassumption.
  - simpl. split; [reflexivity|]. split; [reflexivity|].
    destruct (decide (0 < self_nbuff self)); split; intros; (reflexivity || lia).
Qed.

Lemma buffer_size_from_remaining_jobs_witness :
  (t ← trg resumed_world; done_file t) = None
  /\ (RANK (lone_executor false) < SIZE (lone_executor false))%nat
  /\ congruent_indices 1 0 (product [0%float] [0%float; 0.5%float; 1%float]) <> []
  /\ exists remaining buffer w',
       calculate_prepare (lone_executor false) [0%float]
         [0%float; 0.5%float; 1%float] resumed_world
       = (Ok (Ready remaining buffer), w')
       /\ (self_nbuff (lone_executor false) <= 0 ->
           nbuff buffer = Z.max (Z.of_nat (length remaining) / 100) 1).
Proof.
  assert (H1 : (t ← trg resumed_world; done_file t) = None) by reflexivity.
  assert (H2 : (RANK (lone_executor false) < SIZE (lone_executor false))%nat)
    by (simpl; lia).
  assert (H3 : congruent_indices 1 0
                 (product [0%float] [0%float; 0.5%float; 1%float]) <> [])
    by (vm_compute; discriminate).
  split; [exact H1|]. split; [exact H2|]. split; [exact H3|].
  destruct (buffer_size_from_remaining_jobs (lone_executor false) [0%float]
              [0%float; 0.5%float; 1%float] resumed_world H1 H2 H3)
    as (remaining & buffer & w' & _ & Hprep & _ & _ & _ & Hauto).
  exists remaining, buffer, w'. split; [exact Hprep | exact Hauto].
Defined.

(** ** The compute phase as a whole *)

Section ComputeFacts.
Variable uuid4_hex : nat -> string.
Variable time_time : nat -> float.
Variable np_random_random : nat -> float.
Variable sy_solve : float -> float -> Z -> SolveResult.
Hypothesis uuid4_distinct : forall n m, uuid4_hex n = uuid4_hex m -> n = m.

(** In either mode the loop body ends in one push of a record for its job,
    in a world whose files and drawn names are those it started from. *)
Lemma loop_body_push (self : Executor) (print_every L cc : Z)
    (job : GridPoint) (buffer : Buffer) (w : World) :
  exists val w1,
    loop_body uuid4_hex np_random_random sy_solve self print_every L cc job
      buffer w = Buffer_call uuid4_hex buffer val w1
    /\ rec_key val = job /\ trg w1 = trg w /\ uuid_calls w1 = uuid_calls w.
Proof.
  destruct job as [_k _w]. destruct (dry_run self) eqn:Hdry.
  - unfold loop_body, solve_point, log. rewrite Hdry. simpl negb. cbv iota.
    destruct (decide (RANK self = 0%nat /\ cc = 0));
      repeat (rewrite bind_unfold; simpl);
      eexists _, _; (split; [reflexivity|]); repeat split.
  - rewrite (loop_body_solved uuid4_hex np_random_random sy_solve self
               print_every L cc _k _w buffer w Hdry).
    eexists _, _. split; [reflexivity|]. repeat split.
Qed.

Lemma main_loop_inv (self : Executor) (print_every L : Z)
    (jobs : list GridPoint) :
  forall (cc : Z) (b : Buffer) (w : World) (d : StateDir),
  buffer_wf b -> world_state_dir w = Some d -> fresh_names uuid4_hex w d ->
  exists b' w' d' vals,
    main_loop uuid4_hex np_random_random sy_solve self print_every L cc jobs b w
    = (Ok b', w')
    /\ buffer_wf b' /\ world_state_dir w' = Some d'
    /\ fresh_names uuid4_hex w' d' /\ d ⊆ d'
    /\ rec_key <$> vals = jobs
    /\ records_on_disk d' ++ queue b' ≡ₚ records_on_disk d ++ queue b ++ vals.
Proof.
  induction jobs as [|job jobs IH]; intros cc b w d Hwf Hd Hfresh.
  - exists b, w, d, []. simpl. rewrite app_nil_r.
    split; [reflexivity|]. split; [exact Hwf|]. split; [exact Hd|].
    split; [exact Hfresh|]. split; [reflexivity|]. split; reflexivity.
  - destruct (loop_body_push self print_every L cc job b w)
      as (val & w1 & Hbody & Hkey & Htrg & Hu).
    assert (Hd1 : world_state_dir w1 = Some d).
    { unfold world_state_dir in *. rewrite Htrg. exact Hd. }
    assert (Hfresh1 : fresh_names uuid4_hex w1 d).
    { intros n Hn. apply Hfresh. lia. }
    destruct (Buffer_call_inv uuid4_hex uuid4_distinct b val w1 d Hwf Hd1 Hfresh1)
      as (b2 & w2 & d2 & Hcall & Hwf2 & _ & Hd2 & Hfr2 & Hsub2 & Hperm2).
    destruct (IH (cc + 1) b2 w2 d2 Hwf2 Hd2 Hfr2)
      as (b3 & w3 & d3 & vals & Hloop & Hwf3 & Hd3 & Hfr3 & Hsub3 & Hkeys & Hperm3).
    exists b3, w3, d3, (val :: vals). simpl main_loop.
    rewrite bind_unfold, Hbody, Hcall.
    split; [exact Hloop|]. split; [exact Hwf3|]. split; [exact Hd3|].
    split; [exact Hfr3|]. split; [etransitivity; eassumption|]. split.
    + rewrite fmap_cons, Hkey, Hkeys. reflexivity.
    + rewrite Hperm3, (app_assoc _ (queue b2)), Hperm2, <- !app_assoc.
      reflexivity.
Qed.

(** What [calculate] does before its loop, once it has its buffer, leaves
    files and drawn names alone and cannot fail. *)
Lemma calculate_run_preamble {B : Type} (self : Executor) (L : Z)
    (k : float -> M B) (w : World) :
  exists t0 w1,
    ((if negb (dry_run self) then prime_system time_time self
      else if decide (RANK self = 0%nat) then log self WARNING MsgDryRunMode
           else mret tt);;
     (if decide (RANK self = 0%nat)
      then log self INFO (MsgPrintingEvery (Z.max (L / 20) 1)) else mret tt);;
     t ← now time_time; k t) w = k t0 w1
    /\ trg w1 = trg w /\ uuid_calls w1 = uuid_calls w.
Proof.
  unfold prime_system, log.
  destruct (dry_run self); destruct (decide (RANK self = 0%nat));
    repeat (rewrite bind_unfold; simpl);
    eexists _, _; (split; [reflexivity|]); split; reflexivity.
Qed.

Lemma calculate_run_persists (self : Executor) (jobs : list GridPoint)
    (nbuff : Z) (w : World) (d : StateDir) :
  world_state_dir w = Some d -> fresh_names uuid4_hex w d ->
  exists elapsed w' d' vals,
    calculate_run uuid4_hex time_time np_random_random sy_solve self jobs
      (Buffer_init nbuff) w = (Ok elapsed, w')
    /\ world_state_dir w' = Some d' /\ d ⊆ d'
    /\ rec_key <$> vals = jobs
    /\ records_on_disk d' ≡ₚ records_on_disk d ++ vals.
Proof.
  intros Hd Hfresh.
  set (k := fun overall_config_time : float =>
    buffer ← main_loop uuid4_hex np_random_random sy_solve self
               (Z.max (Z.of_nat (length jobs) / 20) 1) (Z.of_nat (length jobs))
               0 jobs (Buffer_init nbuff);
    _ ← flush uuid4_hex buffer;
    t ← now time_time;
    mret (t - overall_config_time)%float).
  destruct (calculate_run_preamble self (Z.of_nat (length jobs)) k w)
    as (t0 & w1 & Hpre & Htrg1 & Hu1).
  assert (Hrun : calculate_run uuid4_hex time_time np_random_random sy_solve
                   self jobs (Buffer_init nbuff) w = k t0 w1) by exact Hpre.
  rewrite Hrun. unfold k. clear Hrun Hpre k.
  assert (Hd1 : world_state_dir w1 = Some d).
  { unfold world_state_dir in *. rewrite Htrg1. exact Hd. }
  assert (Hfresh1 : fresh_names uuid4_hex w1 d).
  { intros n Hn. apply Hfresh. lia. }
  destruct (main_loop_inv self (Z.max (Z.of_nat (length jobs) / 20) 1)
              (Z.of_nat (length jobs)) jobs 0 (Buffer_init nbuff) w1 d
              eq_refl Hd1 Hfresh1)
    as (b2 & w2 & d2 & vals & Hloop & Hwf2 & Hd2 & Hfr2 & Hsub2 & Hkeys & Hperm2).
  destruct (flush_inv uuid4_hex uuid4_distinct b2 w2 d2 Hwf2 Hd2 Hfr2)
    as (w3 & d3 & Hfl & Hd3 & _ & Hsub3 & Hperm3).
  rewrite bind_unfold, Hloop, bind_unfold, Hfl.
  eexists _, _, d3, vals. split; [reflexivity|].
  split; [exact Hd3|]. split; [etransitivity; eassumption|].
  split; [exact Hkeys|].
  rewrite Hperm3, Hperm2. simpl. reflexivity.
Qed.

(** With no job left, [calculate] from its buffer on only logs and reads
    the clock. *)
Lemma calculate_run_nil (self : Executor) (nbuff : Z) (w : World) :
  exists elapsed w' evs,
    calculate_run uuid4_hex time_time np_random_random sy_solve self []
      (Buffer_init nbuff) w = (Ok elapsed, w')
    /\ trg w' = trg w /\ uuid_calls w' = uuid_calls w
    /\ trace w' = trace w ++ evs /\ Forall quiet_event evs.
Proof.
  unfold calculate_run, prime_system, log, flush. cbv zeta. simpl main_loop.
  destruct (dry_run self); destruct (decide (RANK self = 0%nat));
    repeat (rewrite bind_unfold; simpl); eexists _, _;
    [ exists [EvLog (RANK self) WARNING MsgDryRunMode;
              EvLog (RANK self) INFO (MsgPrintingEvery 1)]
    | exists []
    | exists [EvLog (RANK self) INFO MsgPriming;
              EvLog (RANK self) INFO (MsgPrintingEvery 1)]
    | exists [] ];
    (split; [reflexivity|]); (split; [reflexivity|]); (split; [reflexivity|]);
    simpl; rewrite <- ?app_assoc, ?app_nil_r;
    (split; [reflexivity | repeat constructor]).
Qed.

End ComputeFacts.

Lemma add_events_state_dir (evs : list Event) (w : World) :
  world_state_dir (add_events evs w) = world_state_dir w.
Proof. reflexivity. Qed.

(** X1. The compute phase, in a world whose DONE file is absent, whose
    STATE directory exists and whose file names to come are distinct and
    unused, on a rank with a share of the grid that holds no NaN:
    [calculate] succeeds; it keeps every file that was there and adds to
    the records on disk one record for each job that the resume engine
    left; these are assigned jobs, no two of them equal, and a job is among
    them if and only if it is among the assigned jobs and was not
    completed; afterwards every job assigned to this rank is completed on
    disk.  Equality of jobs is Python's [==]. *)
Theorem calculate_persists_remaining (uuid4_hex : nat -> string)
    (time_time np_random_random : nat -> float)
    (sy_solve : float -> float -> Z -> SolveResult)
    (self : Executor) (k_grid w_grid : list float) (w : World) (d : StateDir) :
  (forall n m, uuid4_hex n = uuid4_hex m -> n = m) ->
  (t ← trg w; done_file t) = None ->
  (RANK self < SIZE self)%nat ->
  congruent_indices (SIZE self) (RANK self) (product k_grid w_grid) <> [] ->
  world_state_dir w = Some d ->
  fresh_names uuid4_hex w d ->
  no_nan (congruent_indices (SIZE self) (RANK self) (product k_grid w_grid))
  = true ->
  exists elapsed w' d' vals,
    calculate uuid4_hex time_time np_random_random sy_solve self k_grid w_grid w
    = (Ok elapsed, w')
    /\ world_state_dir w' = Some d' /\ d ⊆ d'
    /\ records_on_disk d' ≡ₚ records_on_disk d ++ vals
    /\ key_distinct (rec_key <$> vals) = true
    /\ (forall job,
          job ∈ rec_key <$> vals
          -> job ∈ congruent_indices (SIZE self) (RANK self)
                     (product k_grid w_grid))
    /\ (forall job,
          key_in job (rec_key <$> vals) = true
          <-> key_in job (congruent_indices (SIZE self) (RANK self)
                            (product k_grid w_grid)) = true
              /\ ~ completed d job)
    /\ (forall job,
          job ∈ congruent_indices (SIZE self) (RANK self) (product k_grid w_grid)
          -> completed d' job).
Proof.
  intros Hinj Hdone Hrank Hne Hd Hfresh Hnan.
  set (assigned := congruent_indices (SIZE self) (RANK self)
                     (product k_grid w_grid)) in *.
  pose proof (find_remaining_jobs_present assigned w d Hd) as Hrem.
  destruct (remaining_jobs_spec assigned d) as (Hsub & Hin & Hdist).
  set (remaining := set_difference (py_set assigned)
         (py_set (rec_key <$> records_on_disk d))) in *.
  set (w1 := add_events (EvListDir :: (EvRead <$> (map_to_list d).*1)) w) in *.
  pose proof (calculate_prepare_ready self k_grid w_grid w w1 remaining
                Hdone Hrank Hne Hrem) as Hprep.
  assert (Hfresh1 : fresh_names uuid4_hex w1 d) by exact Hfresh.
  destruct (calculate_run_persists uuid4_hex time_time np_random_random
              sy_solve Hinj self remaining
              (if decide (0 < self_nbuff self) then self_nbuff self
               else Z.max (Z.of_nat (length remaining) / 100) 1)
              w1 d Hd Hfresh1)
    as (elapsed & w' & d' & vals & Hrun & Hd' & Hdd' & Hkeys & Hperm).
  exists elapsed, w', d', vals. split.
  - unfold calculate. rewrite (bind_Ok _ _ _ _ _ Hprep). exact Hrun.
  - split; [exact Hd'|]. split; [exact Hdd'|]. split; [exact Hperm|].
    rewrite Hkeys. split; [exact Hdist|]. split; [exact Hsub|].
    split; [exact Hin|].
    intros job Hjob. apply completed_records.
    rewrite (key_in_perm _ _ _ (fmap_Permutation rec_key _ _ Hperm)).
    rewrite fmap_app, Hkeys, key_in_app. apply orb_true_iff.
    destruct (key_in job (rec_key <$> records_on_disk d)) eqn:Hc.
    + left. reflexivity.
    + right. apply Hin. split.
      * apply key_in_elem; [exact Hjob | exact (no_nan_elem _ _ Hnan Hjob)].
      * rewrite completed_records, Hc. discriminate.
Qed.

Lemma calculate_persists_remaining_witness :
  (forall n m, numeral_uuid4_hex n = numeral_uuid4_hex m -> n = m)
  /\ (t ← trg started_world; done_file t) = None
  /\ (RANK (lone_executor false) < SIZE (lone_executor false))%nat
  /\ congruent_indices 1 0 (product [0%float] [0%float; 0.5%float; 1%float]) <> []
  /\ world_state_dir started_world = Some ∅
  /\ fresh_names numeral_uuid4_hex started_world ∅
  /\ no_nan (congruent_indices 1 0
               (product [0%float] [0%float; 0.5%float; 1%float])) = true
  /\ exists elapsed w' d' vals,
       calculate numeral_uuid4_hex constant_clock half_random constant_solver
         (lone_executor false) [0%float] [0%float; 0.5%float; 1%float]
         started_world = (Ok elapsed, w')
       /\ world_state_dir w' = Some d'
       /\ records_on_disk d' ≡ₚ records_on_disk ∅ ++ vals.
Proof.
  assert (H2 : (t ← trg started_world; done_file t) = None) by reflexivity.
  assert (H3 : (RANK (lone_executor false) < SIZE (lone_executor false))%nat)
    by (simpl; lia).
  assert (H4 : congruent_indices 1 0
                 (product [0%float] [0%float; 0.5%float; 1%float]) <> [])
    by (vm_compute; discriminate).
  split; [exact numeral_uuid4_hex_distinct|]. split; [exact H2|].
  split; [exact H3|]. split; [exact H4|]. split; [reflexivity|].
  split; [apply fresh_names_empty|]. split; [reflexivity|].
  destruct (calculate_persists_remaining numeral_uuid4_hex constant_clock
              half_random constant_solver (lone_executor false) [0%float]
              [0%float; 0.5%float; 1%float] started_world ∅
              numeral_uuid4_hex_distinct H2 H3 H4 eq_refl
              (fresh_names_empty _ _) eq_refl)
    as (elapsed & w' & d' & vals & Hrun & Hd' & _ & Hperm & _).
  exists elapsed, w', d', vals. split; [exact Hrun|]. split; assumption.
Defined.

(** X2. Resume idempotence: when every job assigned to this rank is
    already completed in the STATE directory (and the DONE file is absent),
    [calculate] succeeds without calling the solver and without writing a
    file: the target directory is what it was, no file name was drawn, and
    all it adds to the trace are log records, the directory listing and the
    reads of the checkpoint files.  A job is completed when the first two
    fields of some record equal it under Python's [==], so a job with a
    NaN is never completed. *)
Theorem calculate_nothing_left (uuid4_hex : nat -> string)
    (time_time np_random_random : nat -> float)
    (sy_solve : float -> float -> Z -> SolveResult)
    (self : Executor) (k_grid w_grid : list float) (w : World) (d : StateDir) :
  (t ← trg w; done_file t) = None ->
  (RANK self < SIZE self)%nat ->
  congruent_indices (SIZE self) (RANK self) (product k_grid w_grid) <> [] ->
  world_state_dir w = Some d ->
  (forall job,
     job ∈ congruent_indices (SIZE self) (RANK self) (product k_grid w_grid) ->
     completed d job) ->
  exists elapsed w' evs,
    calculate uuid4_hex time_time np_random_random sy_solve self k_grid w_grid w
    = (Ok elapsed, w')
    /\ trg w' = trg w /\ uuid_calls w' = uuid_calls w
    /\ trace w' = trace w ++ evs /\ Forall quiet_event evs.
Proof.
  intros Hdone Hrank Hne Hd Hall.
  set (assigned := congruent_indices (SIZE self) (RANK self)
                     (product k_grid w_grid)) in *.
  pose proof (find_remaining_jobs_present assigned w d Hd) as Hrem.
  assert (Hnil : set_difference (py_set assigned)
                   (py_set (rec_key <$> records_on_disk d)) = []).
  { destruct (set_difference (py_set assigned)
                (py_set (rec_key <$> records_on_disk d)))
      as [|job rest] eqn:E; [reflexivity|].
    assert (Hjob : job ∈ set_difference (py_set assigned)
                     (py_set (rec_key <$> records_on_disk d)))
      by (rewrite E; left).
    apply set_difference_elem in Hjob as [Hjob Hnot].
    apply Hall, completed_records in Hjob. rewrite Hjob in Hnot.
    discriminate. }
  rewrite Hnil in Hrem.
  set (w1 := add_events (EvListDir :: (EvRead <$> (map_to_list d).*1)) w) in *.
  pose proof (calculate_prepare_ready self k_grid w_grid w w1 []
                Hdone Hrank Hne Hrem) as Hprep.
  destruct (calculate_run_nil uuid4_hex time_time np_random_random sy_solve self
              (if decide (0 < self_nbuff self) then self_nbuff self
               else Z.max (Z.of_nat (length (@nil GridPoint)) / 100) 1) w1)
    as (elapsed & w' & evs & Hrun & Htrg & Hu & Htr & Hq).
  exists elapsed, w', ((EvListDir :: (EvRead <$> (map_to_list d).*1)) ++ evs).
  split.
  - unfold calculate. rewrite (bind_Ok _ _ _ _ _ Hprep). exact Hrun.
  - split; [exact Htrg|]. split; [exact Hu|]. split.
    + rewrite Htr. unfold w1, add_events. simpl. rewrite <- app_assoc. reflexivity.
    + apply Forall_app. split; [|exact Hq].
      constructor; [exact I|]. apply Forall_fmap, Forall_forall.
      intros f _. exact I.
Qed.

Lemma calculate_nothing_left_witness :
  (t ← trg resumed_world; done_file t) = None
  /\ (RANK (lone_executor false) < SIZE (lone_executor false))%nat
  /\ congruent_indices 1 0 (product [0%float] [0%float]) <> []
  /\ world_state_dir resumed_world = Some {[ "a.pkl" := take 1 three_records ]}
  /\ (forall job, job ∈ congruent_indices 1 0 (product [0%float] [0%float]) ->
      completed {[ "a.pkl" := take 1 three_records ]} job)
  /\ exists elapsed w' evs,
       calculate numeral_uuid4_hex constant_clock half_random constant_solver
         (lone_executor false) [0%float] [0%float] resumed_world
       = (Ok elapsed, w')
       /\ trg w' = trg resumed_world
       /\ trace w' = trace resumed_world ++ evs /\ Forall quiet_event evs.
Proof.
  assert (H1 : (t ← trg resumed_world; done_file t) = None) by reflexivity.
  assert (H2 : (RANK (lone_executor false) < SIZE (lone_executor false))%nat)
    by (simpl; lia).
  assert (H3 : congruent_indices 1 0 (product [0%float] [0%float]) <> [])
    by (vm_compute; discriminate).
  assert (H5 : forall job,
            job ∈ congruent_indices 1 0 (product [0%float] [0%float]) ->
            completed {[ "a.pkl" := take 1 three_records ]} job).
  { intros job Hjob.
    change (job ∈ [(0%float, 0%float)]) in Hjob.
    apply list_elem_of_singleton in Hjob as ->.
    exists "a.pkl", (take 1 three_records),
      (mkRecord 0%float 0%float 1%float 2%float 2%float 7).
    split; [apply lookup_singleton_eq|]. split; [left | reflexivity]. }
  split; [exact H1|]. split; [exact H2|]. split; [exact H3|].
  split; [reflexivity|]. split; [exact H5|].
  destruct (calculate_nothing_left numeral_uuid4_hex constant_clock half_random
              constant_solver (lone_executor false) [0%float] [0%float]
              resumed_world {[ "a.pkl" := take 1 three_records ]}
              H1 H2 H3 eq_refl H5)
    as (elapsed & w' & evs & Hrun & Htrg & _ & Htr & Hq).
  exists elapsed, w', evs. split; [exact Hrun|]. split; [exact Htrg|].
  split; assumption.
Defined.

(** The compute phase on three grid points with batch size two, from an
    empty STATE directory: a file of two records, then a file of one. *)
Example calculate_three_points :
  let w' := (calculate numeral_uuid4_hex constant_clock half_random
               constant_solver
               (mkExecutor 1 0 false false 0 2 "configs/000.yaml")
               [0%float] [0%float; 0.5%float; 1%float] started_world).2 in
  (length <$> state_file w' "0.pkl") = Some 2%nat
  /\ (length <$> state_file w' "1.pkl") = Some 1%nat
  /\ uuid_calls w' = 2%nat.
Proof. vm_compute. repeat split. Qed.

(** ** The driver *)





(** C7. When the broadcast list of configs is empty, every rank, after
    the three broadcasts, calls [COMM.Abort()] and does nothing after it;
    rank 0, and only rank 0, logs the warning first.  No rank reaches a
    gather, a scatter or a barrier. *)
Theorem empty_config_list_aborts (RANK : nat) :
  main_actions RANK []
  = [ABcast; ABcast; ABcast]
    ++ on_rank0 RANK [ALog WARNING MsgNoConfigsToRun] ++ [AAbort]
  /\ last (main_actions RANK []) = Some AAbort
  /\ (ALog WARNING MsgNoConfigsToRun ∈ main_actions RANK [] <-> RANK = 0%nat)
  /\ (AGather ∉ main_actions RANK [])
  /\ (AScatter ∉ main_actions RANK [])
  /\ (ABarrier ∉ main_actions RANK []).
Proof.
  destruct RANK as [|n]; vm_compute main_actions; vm_compute on_rank0;
    simpl app; (split; [reflexivity|]); (split; [reflexivity|]);
    rewrite ?not_elem_of_cons, ?elem_of_cons, ?elem_of_nil;
    intuition (try discriminate; try congruence; auto using not_elem_of_nil).
Qed.

(** ** Saving the result *)

Lemma save_final_other_rank (self : Executor) (arr : list CheckpointRecord)
    (w : World) :
  RANK self <> 0%nat -> save_final self arr w = (Ok tt, w).
Proof.
  intros Hr. unfold save_final. destruct (decide (RANK self <> 0%nat)); [reflexivity|].
  contradiction.
Qed.

Lemma save_final_rank0 (self : Executor) (arr : list CheckpointRecord)
    (w : World) (t : TrgDir) :
  RANK self = 0%nat -> trg w = Some t ->
  save_final self arr w
  = (Ok tt,
     add_events [EvWriteRes]
       (set_trg (mkTrg (done_file t) (state_dir t) (Some arr)) w)).
Proof.
  intros Hr Ht. unfold save_final. destruct (decide (RANK self <> 0%nat)); [lia|].
  unfold np_save_res. rewrite Ht. reflexivity.
Qed.

Lemma config_actions_save_final (RANK total config_index : nat)
    (config_path : string) :
  length (filter (fun a => a = ASaveFinal config_path)
            (config_actions RANK total config_index config_path))
  = if decide (RANK = 0%nat) then 1%nat else 0%nat.
Proof.
  unfold config_actions, on_rank0. destruct (decide (RANK = 0%nat)); simpl;
    repeat (rewrite filter_cons_False by discriminate);
    try (rewrite filter_cons_True by reflexivity);
    repeat (rewrite filter_cons_False by discriminate); reflexivity.
Qed.

(** C10. On a rank other than 0, [save_final] returns without a trace:
    the world is what it was.  On rank 0 (with the target directory there)
    it writes the array to [res.npy] and changes nothing else.  In the
    driver's loop body the call is made once on rank 0 and never on another
    rank, so each job group's merged result is written exactly once. *)
Theorem save_final_only_on_rank0 (self : Executor)
    (arr : list CheckpointRecord) (w : World) :
  (RANK self <> 0%nat -> save_final self arr w = (Ok tt, w))
  /\ (RANK self = 0%nat -> forall t, trg w = Some t ->
      exists w',
        save_final self arr w = (Ok tt, w')
        /\ trg w' = Some (mkTrg (done_file t) (state_dir t) (Some arr))
        /\ trace w' = trace w ++ [EvWriteRes])
  /\ (forall total config_index config_path,
        length (filter (fun a => a = ASaveFinal config_path)
                  (config_actions (RANK self) total config_index config_path))
        = if decide (RANK self = 0%nat) then 1%nat else 0%nat).
Proof.
  split; [|split].
  - apply save_final_other_rank.
  - intros Hr t Ht. eexists. split.
    + apply save_final_rank0; eassumption.
    + split; reflexivity.
  - intros total config_index config_path. apply config_actions_save_final.
Qed.

Lemma save_final_only_on_rank0_witness :
  RANK rank3_executor <> 0%nat
  /\ save_final rank3_executor three_records started_world
     = (Ok tt, started_world).
Proof.
  assert (H : RANK rank3_executor <> 0%nat) by (simpl; lia).
  split; [exact H|].
  apply (proj1 (save_final_only_on_rank0 rank3_executor three_records
                  started_world)).
  exact H.
Defined.

(** Rank 0 writes the three records to [res.npy]. *)
Example save_final_on_rank0 :
  (t ← trg (save_final (lone_executor false) three_records started_world).2;
   res_file t) = Some three_records.
Proof. reflexivity. Qed.

(** * Further properties *)

(** ** Share sizes *)

Lemma stride_length {A : Type} (W : nat) (l : list A) : (1 <= W)%nat ->
  forall skip, length (stride W skip l) = ((length l + W - 1 - skip) / W)%nat.
Proof.
  intros HW. induction l as [|x l IH]; intros skip; cbn [stride length].
  - symmetry. apply Nat.div_small. lia.
  - destruct skip as [|s]; cbn [length].
    + rewrite IH.
      assert (E1 : (length l + W - 1 - Nat.pred W = length l)%nat) by lia.
      assert (E2 : (S (length l) + W - 1 - 0 = length l + 1 * W)%nat) by lia.
      rewrite E1, E2, Nat.div_add by lia. lia.
    + rewrite IH. f_equal. lia.
Qed.

(** X3. [chunk_jobs] deals evenly: for [W >= 1] workers and [G] jobs,
    share [i] has [(G + W - 1 - i) // W] jobs, which is between
    [G // W] and its ceiling; a later rank never has more jobs than an
    earlier one, and no two shares differ by more than one job. *)
Theorem chunk_jobs_balanced {A : Type} (jobs : list A) (W : nat) :
  (1 <= W)%nat ->
  forall i c, chunk_jobs W jobs !! i = Some c ->
    length c = ((length jobs + W - 1 - i) / W)%nat
    /\ (length jobs / W <= length c)%nat
    /\ (length c <= (length jobs + W - 1) / W)%nat
    /\ forall i' c', chunk_jobs W jobs !! i' = Some c' ->
         (length c <= length c' + 1)%nat
         /\ ((i <= i')%nat -> (length c' <= length c)%nat).
Proof.
  intros HW i c Hc.
  assert (Hlen : forall j cj, chunk_jobs W jobs !! j = Some cj ->
             (j < W)%nat
             /\ length cj = ((length jobs + W - 1 - j) / W)%nat).
  { intros j cj Hj. apply chunk_jobs_lookup_Some in Hj as [Hlt ->].
    split; [exact Hlt | apply stride_length; exact HW]. }
  destruct (Hlen i c Hc) as [Hi Hci]. split; [exact Hci|].
  assert (Hlo : forall j, (j < W)%nat ->
            (length jobs / W <= (length jobs + W - 1 - j) / W)%nat).
  { intros j Hj. apply Nat.Div0.div_le_mono. lia. }
  assert (Hhi : forall j,
            ((length jobs + W - 1 - j) / W <= (length jobs + W - 1) / W)%nat).
  { intros j. apply Nat.Div0.div_le_mono. lia. }
  assert (Hceil : ((length jobs + W - 1) / W <= length jobs / W + 1)%nat).
  { replace (length jobs / W + 1)%nat with ((length jobs + 1 * W) / W)%nat
      by (rewrite Nat.div_add by lia; reflexivity).
    apply Nat.Div0.div_le_mono. lia. }
  split; [rewrite Hci; apply Hlo; exact Hi|].
  split; [rewrite Hci; apply Hhi|].
  intros i' c' Hc'. destruct (Hlen i' c' Hc') as [Hi' Hci']. split.
  - rewrite Hci, Hci'. pose proof (Hhi i). pose proof (Hlo i' Hi'). lia.
  - intros Hle. rewrite Hci, Hci'. apply Nat.Div0.div_le_mono. lia.
Qed.

Lemma chunk_jobs_balanced_witness :
  (1 <= 2)%nat
  /\ chunk_jobs 2 [10; 20; 30; 40; 50] !! 1%nat = Some [20; 40]
  /\ length [20; 40] = ((length [10; 20; 30; 40; 50] + 2 - 1 - 1) / 2)%nat.
Proof.
  assert (H : (1 <= 2)%nat) by lia.
  assert (Hc : chunk_jobs 2 [10; 20; 30; 40; 50] !! 1%nat = Some [20; 40])
    by reflexivity.
  split; [exact H|]. split; [exact Hc|].
  apply (chunk_jobs_balanced [10; 20; 30; 40; 50] 2 H 1%nat [20; 40] Hc).
Defined.

(** ** A rank without jobs *)

Lemma product_length (k_grid w_grid : list float) :
  length (product k_grid w_grid) = (length k_grid * length w_grid)%nat.
Proof.
  unfold product, GridPoint. induction k_grid as [|k ks IH]; [reflexivity|].
  rewrite bind_cons, length_app, IH. cbn [length].
  assert (Hrow : length (w_grid ≫= fun w => [(k, w)]) = length w_grid).
  { clear. induction w_grid as [|w ws IHw]; [reflexivity|].
    rewrite bind_cons. cbn [length app]. f_equal. exact IHw. }
  rewrite Hrow. lia.
Qed.

Lemma prep_jobs_stride (self : Executor) (k_grid w_grid : list float) (w : World) :
  (RANK self < SIZE self)%nat ->
  prep_jobs self k_grid w_grid w
  = (Ok (stride (SIZE self) (RANK self) (product k_grid w_grid)), w).
Proof.
  intros Hr. unfold prep_jobs. rewrite chunk_jobs_lookup by exact Hr. reflexivity.
Qed.

(** X5. A rank at or beyond the number of grid points has no share:
    when the DONE file is absent, [calculate] on such a rank logs one
    warning and returns [0.0]; it lists and reads nothing, calls no solver,
    writes no file and draws nothing. *)
Theorem calculate_no_jobs (uuid4_hex : nat -> string)
    (time_time np_random_random : nat -> float)
    (sy_solve : float -> float -> Z -> SolveResult)
    (self : Executor) (k_grid w_grid : list float) (w : World) :
  (t ← trg w; done_file t) = None ->
  (RANK self < SIZE self)%nat ->
  (length k_grid * length w_grid <= RANK self)%nat ->
  calculate uuid4_hex time_time np_random_random sy_solve self k_grid w_grid w
  = (Ok 0%float,
     add_events [EvLog (RANK self) WARNING (MsgNoJobsToRun (cfg self))] w).
Proof.
  intros Hdone Hrank Hfew.
  assert (Hprep : calculate_prepare self k_grid w_grid w
            = (Ok (EarlyReturn 0%float),
               add_events [EvLog (RANK self) WARNING (MsgNoJobsToRun (cfg self))] w)).
  { unfold calculate_prepare. rewrite bind_unfold. unfold done_file_exists.
    rewrite Hdone.
    rewrite bool_decide_eq_false_2 by (intros [x Hx]; discriminate Hx).
    rewrite (bind_Ok _ _ _ _ _ (prep_jobs_stride self k_grid w_grid w Hrank)).
    destruct (decide (length (stride (SIZE self) (RANK self)
                                (product k_grid w_grid)) = 0%nat)) as [_|Hne].
    - reflexivity.
    - exfalso. apply Hne. rewrite stride_length by lia. rewrite product_length.
      apply Nat.div_small. lia. }
  unfold calculate. rewrite (bind_Ok _ _ _ _ _ Hprep). reflexivity.
Qed.

Lemma calculate_no_jobs_witness :
  (t ← trg started_world; done_file t) = None
  /\ (RANK rank3_executor < SIZE rank3_executor)%nat
  /\ (length [0%float] * length [0%float; 0.5%float; 1%float]
      <= RANK rank3_executor)%nat
  /\ calculate numeral_uuid4_hex constant_clock half_random constant_solver
       rank3_executor [0%float] [0%float; 0.5%float; 1%float] started_world
     = (Ok 0%float,
        add_events [EvLog 3 WARNING (MsgNoJobsToRun "configs/000.yaml")]
          started_world).
Proof.
  assert (H1 : (t ← trg started_world; done_file t) = None) by reflexivity.
  assert (H2 : (RANK rank3_executor < SIZE rank3_executor)%nat) by (simpl; lia).
  assert (H3 : (length [0%float] * length [0%float; 0.5%float; 1%float]
                <= RANK rank3_executor)%nat) by (simpl; lia).
  split; [exact H1|]. split; [exact H2|]. split; [exact H3|].
  apply (calculate_no_jobs numeral_uuid4_hex constant_clock half_random
           constant_solver rank3_executor [0%float]
           [0%float; 0.5%float; 1%float] started_world H1 H2 H3).
Defined.

(** ** The collective calls of the driver *)






(** Two ranks, one config, and the merge of line 430 raising on rank 0:
    rank 0 has made its last collective call with the second gather, and
    rank 1, where nothing raises, goes on to a barrier. *)
Example merge_failure_collectives :
  main_actions 0 ["c.yaml"] !! 13%nat = Some (ASaveFinal "c.yaml")
  /\ collectives (rank_actions (Some 13%nat) 0 ["c.yaml"])
     = [ABcast; ABcast; ABcast; AGather; ABarrier; AScatter; AGather]
  /\ collectives (rank_actions None 1 ["c.yaml"])
     = [ABcast; ABcast; ABcast; AGather; ABarrier; AScatter; AGather;
        ABarrier; ABarrier; ABarrier; ABarrier].
Proof. vm_compute. repeat split. Qed.

(** ** The files a buffer writes *)

Section BatchFacts.
Context {A : Type}.
Implicit Types (l : list A) (n fuel : nat).
Local Open Scope nat_scope.

Lemma batches_fuel_enough n l : 1 <= n ->
  forall fuel fuel', length l <= fuel -> length l <= fuel' ->
  batches_fuel fuel n l = batches_fuel fuel' n l.
Proof.
  intros Hn fuel. revert l.
  induction fuel as [|fuel IH]; intros l fuel' Hf Hf'.
  - destruct l; [|simpl in Hf; lia]. destruct fuel'; reflexivity.
  - destruct l as [|x l]; [destruct fuel'; reflexivity|].
    destruct fuel' as [|fuel']; [simpl in Hf'; lia|].
    cbn [batches_fuel]. f_equal.
    apply IH; rewrite length_drop; simpl in *; lia.
Qed.

Lemma batches_nil n : batches n (@nil A) = [].
Proof. reflexivity. Qed.

Lemma batches_cons n l : 1 <= n -> l <> [] ->
  batches n l = take n l :: batches n (drop n l).
Proof.
  intros Hn Hl. unfold batches. destruct l as [|x l]; [contradiction|].
  cbn [length batches_fuel]. f_equal.
  apply batches_fuel_enough; [exact Hn| |]; rewrite length_drop; simpl; lia.
Qed.

Lemma batches_short n l : l <> [] -> length l <= n -> batches n l = [l].
Proof.
  intros Hl Hlen. assert (Hn : 1 <= n) by (destruct l; [contradiction|simpl in Hlen; lia]).
  rewrite batches_cons by assumption.
  rewrite take_ge, drop_ge by lia. reflexivity.
Qed.

Lemma batches_full n l1 l2 : 1 <= n -> length l1 = n ->
  batches n (l1 ++ l2) = l1 :: batches n l2.
Proof.
  intros Hn Hlen. rewrite batches_cons; [|exact Hn|].
  - rewrite take_app_length', drop_app_length' by (symmetry; exact Hlen).
    reflexivity.
  - destruct l1; [simpl in Hlen; lia|discriminate].
Qed.

Lemma batches_facts n : 1 <= n ->
  forall fuel l, length l <= fuel ->
  concat (batches n l) = l
  /\ Forall (fun b => 1 <= length b <= n) (batches n l)
  /\ (forall i b, batches n l !! i = Some b -> S i < length (batches n l) ->
      length b = n)
  /\ length (batches n l) = (length l + n - 1) / n.
Proof.
  intros Hn. induction fuel as [|fuel IH]; intros l Hf.
  - destruct l; [|simpl in Hf; lia]. rewrite batches_nil.
    split; [reflexivity|]. split; [constructor|]. split; [intros i b H; discriminate H|].
    simpl. symmetry. apply Nat.div_small. lia.
  - destruct l as [|x l].
    { rewrite batches_nil.
      split; [reflexivity|]. split; [constructor|].
      split; [intros i b H; discriminate H|].
      simpl. symmetry. apply Nat.div_small. lia. }
    rewrite batches_cons by (exact Hn || discriminate).
    destruct (IH (drop n (x :: l))) as (Hcat & Hall & Hfull & Hlen).
    { rewrite length_drop. simpl in *. lia. }
    assert (Htake : length (take n (x :: l)) = Nat.min n (length (x :: l)))
      by apply length_take.
    split; [|split; [|split]].
    + cbn [concat]. rewrite Hcat. apply take_drop.
    + constructor; [|exact Hall]. rewrite Htake. simpl. lia.
    + intros i b Hb Hi. destruct i as [|i].
      * injection Hb as <-. cbn [length] in Hi.
        assert (Hpos : 1 <= length (batches n (drop n (x :: l)))) by lia.
        rewrite Hlen in Hpos. rewrite length_drop in Hpos.
        assert (n < length (x :: l)).
        { destruct (decide (n < length (x :: l))) as [|Hge]; [assumption|].
          replace (length (x :: l) - n + n - 1) with (n - 1) in Hpos by lia.
          rewrite Nat.div_small in Hpos by lia. lia. }
        rewrite Htake. lia.
      * apply (Hfull i b Hb). cbn [length] in Hi. lia.
    + assert (Harith : forall len, 1 <= len ->
                S ((len - n + n - 1) / n) = (len + n - 1) / n).
      { intros len Hlen1. destruct (decide (n < len)) as [Hlt|Hge].
        - replace (len + n - 1) with (len - n + n - 1 + 1 * n) by lia.
          rewrite Nat.div_add by lia. lia.
        - replace (len - n + n - 1) with (n - 1) by lia.
          rewrite Nat.div_small by lia.
          apply (Nat.div_unique (len + n - 1) n 1 (len - 1)); lia. }
      change (S (length (batches n (drop n (x :: l))))
              = (length (x :: l) + n - 1) / n).
      rewrite Hlen, length_drop. apply Harith. simpl. lia.
Qed.

End BatchFacts.

Section BufferBatches.
Variable uuid4_hex : nat -> string.

Lemma drawn_names_cons (u k : nat) :
  drawn_names uuid4_hex u (S k)
  = pkl_name (uuid4_hex u) :: drawn_names uuid4_hex (S u) k.
Proof. reflexivity. Qed.

(** From any consistent buffer whose queue is below the batch size:
    pushing [vals] and flushing writes the batches of the queue followed by
    [vals], one file per batch, under the names drawn in order. *)
Lemma run_pushes_flush_batches (vals : list CheckpointRecord) :
  forall (b : Buffer) (t : TrgDir) (d : StateDir) (tr : list Event) (u c r : nat),
  buffer_wf b ->
  (length (queue b) < Z.to_nat (Z.max (nbuff b) 1))%nat ->
  state_dir t = Some d ->
  run_ops uuid4_hex b ((OpPush <$> vals) ++ [OpFlush]) (mkWorld (Some t) tr u c r)
  = (Ok (mkBuffer (nbuff b) 0 []),
     let bs := batches (Z.to_nat (Z.max (nbuff b) 1)) (queue b ++ vals) in
     let names := drawn_names uuid4_hex u (length bs) in
     mkWorld
       (Some (mkTrg (done_file t) (Some (write_files (zip names bs) d)) (res_file t)))
       (tr ++ (EvWrite <$> names)) (u + length bs) c r).
Proof.
  induction vals as [|val vals IH]; intros b t d tr u c r Hwf Hq Hd;
    set (n := Z.to_nat (Z.max (nbuff b) 1)) in *; unfold buffer_wf in Hwf.
  - cbn [fmap list_fmap app run_ops run_op]. rewrite app_nil_r, bind_unfold.
    destruct (queue b) as [|x q] eqn:Eq.
    + rewrite flush_noop by (simpl in Hwf; lia).
      rewrite batches_nil. cbn zeta. cbn [length drawn_names seq fmap list_fmap zip
        zip_with write_files foldl].
      rewrite app_nil_r, Nat.add_0_r.
      destruct b as [nb cn qb], t as [df sd rf]. simpl in *. subst.
      reflexivity.
    + rewrite (flush_write uuid4_hex b t d tr u c r) by (simpl in Hwf; lia || exact Hd).
      rewrite Eq. rewrite batches_short by (discriminate || lia).
      cbn zeta. cbn [length drawn_names seq fmap list_fmap zip zip_with
        write_files foldl fst snd].
      rewrite Nat.add_1_r. reflexivity.
  - cbn [fmap list_fmap app run_ops run_op]. rewrite bind_unfold.
    unfold Buffer_call. cbv zeta. cbn [nbuff counter queue].
    set (b1 := mkBuffer (nbuff b) (counter b + 1) (queue b ++ [val])).
    assert (Hwf1 : buffer_wf b1).
    { unfold buffer_wf. simpl. rewrite length_app. simpl. lia. }
    assert (Hlen1 : length (queue b1) = S (length (queue b)))
      by (simpl; rewrite length_app; simpl; lia).
    destruct (decide (nbuff b <= counter b + 1)) as [Hfull|Hroom].
    + assert (Hn : length (queue b1) = n) by (rewrite Hlen1; unfold n; lia).
      rewrite (flush_write uuid4_hex b1 t d tr u c r) by (simpl; lia || exact Hd).
      cbn [nbuff queue b1].
      rewrite (IH (mkBuffer (nbuff b) 0 []) _
                 (<[pkl_name (uuid4_hex u) := queue b ++ [val]]> d))
        by (reflexivity || (simpl; unfold n in *; lia)).
      cbn [nbuff queue done_file state_dir res_file app]. fold n.
      replace (queue b ++ val :: vals) with ((queue b ++ [val]) ++ vals)
        by (rewrite <- app_assoc; reflexivity).
      rewrite (batches_full n (queue b ++ [val]) vals) by (lia || exact Hn).
      cbn zeta. cbn [length]. rewrite drawn_names_cons.
      cbn [zip zip_with write_files foldl fst snd fmap list_fmap].
      rewrite <- app_assoc. cbn [app].
      do 2 f_equal. lia.
    + unfold mret at 1, M_ret. cbv beta iota.
      rewrite (IH b1 t d tr u c r Hwf1) by (rewrite ?Hlen1; simpl; unfold n in *; lia || exact Hd).
      cbn [nbuff queue b1]. fold n.
      replace ((queue b ++ [val]) ++ vals) with (queue b ++ val :: vals)
        by (rewrite <- app_assoc; reflexivity).
      reflexivity.
Qed.

End BufferBatches.

(** X4. A fresh buffer of batch size [B] that is pushed [vals] and then
    flushed, in a world with a STATE directory, writes exactly the
    consecutive batches of [n = max(B, 1)] records of [vals], in push
    order, one file per batch under the names drawn in order, and ends
    empty.  The batches together are [vals]; every batch holds between 1
    and [n] records and every batch but the last holds [n]; there are
    [ceil(N / n)] files. *)
Theorem buffer_writes_batches (uuid4_hex : nat -> string) (B : Z)
    (vals : list CheckpointRecord) (t : TrgDir) (d : StateDir)
    (tr : list Event) (u c r : nat) :
  state_dir t = Some d ->
  let n := Z.to_nat (Z.max B 1) in
  let bs := batches n vals in
  let names := drawn_names uuid4_hex u (length bs) in
  push_all_then_flush uuid4_hex B vals (mkWorld (Some t) tr u c r)
  = (Ok (mkBuffer B 0 []),
     mkWorld
       (Some (mkTrg (done_file t) (Some (write_files (zip names bs) d)) (res_file t)))
       (tr ++ (EvWrite <$> names)) (u + length bs) c r)
  /\ concat bs = vals
  /\ Forall (fun b => (1 <= length b <= n)%nat) bs
  /\ (forall i b, bs !! i = Some b -> (S i < length bs)%nat -> length b = n)
  /\ length bs = ((length vals + n - 1) / n)%nat.
Proof.
  intros Hd n bs names. split.
  - unfold push_all_then_flush.
    rewrite (run_pushes_flush_batches uuid4_hex vals (Buffer_init B) t d tr u c r
               eq_refl); [reflexivity | simpl; lia | exact Hd].
  - apply (batches_facts n ltac:(unfold n; lia) (length vals) vals). lia.
Qed.

Lemma buffer_writes_batches_witness :
  state_dir (mkTrg None (Some ∅) None) = Some ∅
  /\ push_all_then_flush numeral_uuid4_hex 2 three_records started_world
     = (Ok (mkBuffer 2 0 []),
        mkWorld
          (Some (mkTrg None
                   (Some (write_files
                            (zip (drawn_names numeral_uuid4_hex 0
                                    (length (batches 2 three_records)))
                               (batches 2 three_records)) ∅)) None))
          ([] ++ (EvWrite <$> drawn_names numeral_uuid4_hex 0
                                (length (batches 2 three_records))))
          (0 + length (batches 2 three_records)) 0 0).
Proof.
  split; [reflexivity|].
  apply (buffer_writes_batches numeral_uuid4_hex 2 three_records
           (mkTrg None (Some ∅) None) ∅ [] 0 0 0 eq_refl).
Defined.

(** Three records in batches of two. *)
Example batches_three_by_two :
  batches 2 three_records = [take 2 three_records; drop 2 three_records].
Proof. reflexivity. Qed.

(** ** Solver calls and random draws of the compute phase *)

Lemma solver_calls_app (evs1 evs2 : list Event) :
  solver_calls (evs1 ++ evs2) = solver_calls evs1 ++ solver_calls evs2.
Proof. apply omap_app. Qed.

Lemma solver_calls_reads (files : list string) :
  solver_calls (EvRead <$> files) = [].
Proof. induction files as [|f files IH]; [reflexivity | exact IH]. Qed.

Lemma solver_calls_point_events (sy_solve : float -> float -> Z -> SolveResult)
    (self : Executor) (print_every L cc : Z) (_k _w : float) :
  solver_calls (point_events sy_solve self print_every L cc _k _w)
  = [((_k * np_pi)%float, _w, solver self)].
Proof.
  unfold point_events. cbv zeta.
  destruct (debug_flag self);
    destruct (spectral_weight (G_imag (sy_solve (_k * np_pi)%float _w (solver self)))
              <? 0)%float;
    destruct (decide ((cc `mod` print_every = 0 \/ cc = 0) /\ RANK self = 0%nat));
    destruct (decide (RANK self = 0%nat /\ cc = 0)); reflexivity.
Qed.

Section CallFacts.
Variable uuid4_hex : nat -> string.
Variable time_time : nat -> float.
Variable np_random_random : nat -> float.
Variable sy_solve : float -> float -> Z -> SolveResult.

Lemma flush_frame (b : Buffer) (w : World) :
  is_Some (world_state_dir w) ->
  exists b' w',
    flush uuid4_hex b w = (Ok b', w')
    /\ is_Some (world_state_dir w')
    /\ solver_calls (trace w') = solver_calls (trace w)
    /\ random_calls w' = random_calls w.
Proof.
  intros [d Hd]. destruct (decide (0 < counter b)) as [Hc|Hc].
  - apply world_state_dir_Some in Hd as (t & Ht & Hd).
    destruct w as [tg tr u c r]. simpl in Ht. subst tg.
    rewrite (flush_write uuid4_hex b t d tr u c r Hc Hd).
    eexists _, _. split; [reflexivity|]. split; [eexists; reflexivity|].
    split; [|reflexivity]. simpl. rewrite solver_calls_app. apply app_nil_r.
  - rewrite flush_noop by lia. exists b, w.
    split; [reflexivity|]. split; [exists d; exact Hd|]. split; reflexivity.
Qed.

Lemma Buffer_call_frame (b : Buffer) (val : CheckpointRecord) (w : World) :
  is_Some (world_state_dir w) ->
  exists b' w',
    Buffer_call uuid4_hex b val w = (Ok b', w')
    /\ is_Some (world_state_dir w')
    /\ solver_calls (trace w') = solver_calls (trace w)
    /\ random_calls w' = random_calls w.
Proof.
  intros Hd. unfold Buffer_call. cbv zeta.
  destruct (decide (nbuff (mkBuffer (nbuff b) (counter b + 1) (queue b ++ [val]))
                    <= counter (mkBuffer (nbuff b) (counter b + 1)
                                  (queue b ++ [val])))).
  - apply flush_frame. exact Hd.
  - eexists _, _. split; [reflexivity|]. split; [exact Hd|]. split; reflexivity.
Qed.

(** In a dry run the loop body is: draw two random numbers, leave rank
    0's matrix size line at the first point, then push the record built
    from the draws. *)
Lemma loop_body_dry (self : Executor) (print_every L cc : Z)
    (_k _w : float) (buffer : Buffer) (w : World) :
  dry_run self = true ->
  loop_body uuid4_hex np_random_random sy_solve self print_every L cc
    (_k, _w) buffer w
  = Buffer_call uuid4_hex buffer
      (mkRecord _k _w (PrimFloat.abs (np_random_random (random_calls w)))
         (PrimFloat.abs (np_random_random (S (random_calls w)))) 0%float 0)
      (mkWorld (trg w)
         (trace w ++ (if decide (RANK self = 0%nat /\ cc = 0)
                      then [EvLog (RANK self) INFO (MsgLargestMatrixSize 0)]
                      else []))
         (uuid_calls w) (time_calls w) (S (S (random_calls w)))).
Proof.
  intros Hdry. unfold loop_body, solve_point, log.
  rewrite Hdry. simpl negb. cbv iota.
  destruct (decide (RANK self = 0%nat /\ cc = 0));
    repeat (rewrite bind_unfold; simpl); rewrite ?app_nil_r; reflexivity.
Qed.

Lemma loop_body_calls (self : Executor) (print_every L cc : Z)
    (job : GridPoint) (buffer : Buffer) (w : World) :
  is_Some (world_state_dir w) ->
  exists b' w',
    loop_body uuid4_hex np_random_random sy_solve self print_every L cc job
      buffer w = (Ok b', w')
    /\ is_Some (world_state_dir w')
    /\ solver_calls (trace w')
       = solver_calls (trace w) ++ (if dry_run self then [] else [call_of self job])
    /\ random_calls w'
       = (random_calls w + (if dry_run self then 2 else 0))%nat.
Proof.
  intros Hd. destruct job as [_k _w]. destruct (dry_run self) eqn:Hdry.
  - rewrite (loop_body_dry self print_every L cc _k _w buffer w Hdry).
    match goal with
    | |- context [ Buffer_call _ _ ?val ?w1 ] =>
        destruct (Buffer_call_frame buffer val w1)
          as (b' & w' & Hcall & Hd' & Hsc' & Hrc'); [exact Hd|]
    end.
    exists b', w'. split; [exact Hcall|]. split; [exact Hd'|].
    rewrite Hsc', Hrc'. simpl. rewrite solver_calls_app.
    split; [|lia]. f_equal.
    destruct (decide (RANK self = 0%nat /\ cc = 0)); reflexivity.
  - rewrite (loop_body_solved uuid4_hex np_random_random sy_solve self
               print_every L cc _k _w buffer w Hdry). cbv zeta.
    match goal with
    | |- context [ Buffer_call _ _ ?val ?w1 ] =>
        destruct (Buffer_call_frame buffer val w1)
          as (b' & w' & Hcall & Hd' & Hsc' & Hrc'); [exact Hd|]
    end.
    exists b', w'. split; [exact Hcall|]. split; [exact Hd'|].
    rewrite Hsc', Hrc'. simpl. rewrite solver_calls_app, solver_calls_point_events.
    split; [reflexivity | lia].
Qed.

Lemma main_loop_calls (self : Executor) (print_every L : Z)
    (jobs : list GridPoint) :
  forall (cc : Z) (b : Buffer) (w : World),
  is_Some (world_state_dir w) ->
  exists b' w',
    main_loop uuid4_hex np_random_random sy_solve self print_every L cc jobs b w
    = (Ok b', w')
    /\ is_Some (world_state_dir w')
    /\ solver_calls (trace w')
       = solver_calls (trace w)
         ++ (if dry_run self then [] else call_of self <$> jobs)
    /\ random_calls w'
       = (random_calls w + (if dry_run self then 2 * length jobs else 0))%nat.
Proof.
  induction jobs as [|job jobs IH]; intros cc b w Hd.
  - exists b, w. split; [reflexivity|]. split; [exact Hd|].
    destruct (dry_run self); simpl; rewrite app_nil_r; split; (reflexivity || lia).
  - destruct (loop_body_calls self print_every L cc job b w Hd)
      as (b1 & w1 & Hbody & Hd1 & Hsc1 & Hrc1).
    destruct (IH (cc + 1) b1 w1 Hd1) as (b2 & w2 & Hloop & Hd2 & Hsc2 & Hrc2).
    exists b2, w2. cbn [main_loop]. rewrite bind_unfold, Hbody.
    split; [exact Hloop|]. split; [exact Hd2|].
    rewrite Hsc2, Hsc1, Hrc2, Hrc1.
    destruct (dry_run self); cbn [length]; rewrite <- ?app_assoc;
      split; (reflexivity || lia).
Qed.

Lemma calculate_run_preamble_calls {B : Type} (self : Executor) (L : Z)
    (k : float -> M B) (w : World) :
  exists t0 w1,
    ((if negb (dry_run self) then prime_system time_time self
      else if decide (RANK self = 0%nat) then log self WARNING MsgDryRunMode
           else mret tt);;
     (if decide (RANK self = 0%nat)
      then log self INFO (MsgPrintingEvery (Z.max (L / 20) 1)) else mret tt);;
     t ← now time_time; k t) w = k t0 w1
    /\ trg w1 = trg w
    /\ solver_calls (trace w1) = solver_calls (trace w)
    /\ random_calls w1 = random_calls w.
Proof.
  unfold prime_system, log.
  destruct (dry_run self); destruct (decide (RANK self = 0%nat));
    repeat (rewrite bind_unfold; simpl);
    eexists _, _; (split; [reflexivity|]); (split; [reflexivity|]);
    (split; [|reflexivity]); simpl;
    rewrite ?solver_calls_app; simpl; rewrite ?app_nil_r; reflexivity.
Qed.

Lemma calculate_run_calls (self : Executor) (jobs : list GridPoint)
    (nbuff : Z) (w : World) :
  is_Some (world_state_dir w) ->
  exists elapsed w',
    calculate_run uuid4_hex time_time np_random_random sy_solve self jobs
      (Buffer_init nbuff) w = (Ok elapsed, w')
    /\ solver_calls (trace w')
       = solver_calls (trace w)
         ++ (if dry_run self then [] else call_of self <$> jobs)
    /\ random_calls w'
       = (random_calls w + (if dry_run self then 2 * length jobs else 0))%nat.
Proof.
  intros Hd.
  set (k := fun overall_config_time : float =>
    buffer ← main_loop uuid4_hex np_random_random sy_solve self
               (Z.max (Z.of_nat (length jobs) / 20) 1) (Z.of_nat (length jobs))
               0 jobs (Buffer_init nbuff);
    _ ← flush uuid4_hex buffer;
    t ← now time_time;
    mret (t - overall_config_time)%float).
  destruct (calculate_run_preamble_calls self (Z.of_nat (length jobs)) k w)
    as (t0 & w1 & Hpre & Htrg1 & Hsc1 & Hrc1).
  assert (Hrun : calculate_run uuid4_hex time_time np_random_random sy_solve
                   self jobs (Buffer_init nbuff) w = k t0 w1) by exact Hpre.
  rewrite Hrun. unfold k. clear Hrun Hpre k.
  assert (Hd1 : is_Some (world_state_dir w1)).
  { unfold world_state_dir in *. rewrite Htrg1. exact Hd. }
  destruct (main_loop_calls self (Z.max (Z.of_nat (length jobs) / 20) 1)
              (Z.of_nat (length jobs)) jobs 0 (Buffer_init nbuff) w1 Hd1)
    as (b2 & w2 & Hloop & Hd2 & Hsc2 & Hrc2).
  destruct (flush_frame b2 w2 Hd2) as (b3 & w3 & Hfl & _ & Hsc3 & Hrc3).
  rewrite bind_unfold, Hloop, bind_unfold, Hfl.
  eexists _, _. split; [reflexivity|]. simpl.
  rewrite Hsc3, Hsc2, Hsc1, Hrc3, Hrc2, Hrc1. split; reflexivity.
Qed.

(** From the DONE check to the end, for a rank with a share and a STATE
    directory. *)
Lemma calculate_calls (self : Executor) (k_grid w_grid : list float)
    (w : World) (d : StateDir) :
  (t ← trg w; done_file t) = None ->
  (RANK self < SIZE self)%nat ->
  congruent_indices (SIZE self) (RANK self) (product k_grid w_grid) <> [] ->
  world_state_dir w = Some d ->
  exists elapsed w' remaining,
    calculate uuid4_hex time_time np_random_random sy_solve self k_grid w_grid w
    = (Ok elapsed, w')
    /\ key_distinct remaining = true
    /\ (forall job,
          job ∈ remaining
          -> job ∈ congruent_indices (SIZE self) (RANK self)
                     (product k_grid w_grid))
    /\ (forall job,
          key_in job remaining = true
          <-> key_in job (congruent_indices (SIZE self) (RANK self)
                            (product k_grid w_grid)) = true
              /\ ~ completed d job)
    /\ solver_calls (trace w')
       = solver_calls (trace w)
         ++ (if dry_run self then [] else call_of self <$> remaining)
    /\ random_calls w'
       = (random_calls w + (if dry_run self then 2 * length remaining else 0))%nat.
Proof.
  intros Hdone Hrank Hne Hd.
  set (assigned := congruent_indices (SIZE self) (RANK self)
                     (product k_grid w_grid)) in *.
  pose proof (find_remaining_jobs_present assigned w d Hd) as Hrem.
  destruct (remaining_jobs_spec assigned d) as (Hsub & Hin & Hdist).
  set (remaining := set_difference (py_set assigned)
         (py_set (rec_key <$> records_on_disk d))) in *.
  set (w1 := add_events (EvListDir :: (EvRead <$> (map_to_list d).*1)) w) in *.
  pose proof (calculate_prepare_ready self k_grid w_grid w w1 remaining
                Hdone Hrank Hne Hrem) as Hprep.
  destruct (calculate_run_calls self remaining
              (if decide (0 < self_nbuff self) then self_nbuff self
               else Z.max (Z.of_nat (length remaining) / 100) 1) w1)
    as (elapsed & w' & Hrun & Hsc & Hrc).
  { exists d. exact Hd. }
  exists elapsed, w', remaining. split.
  - unfold calculate. rewrite (bind_Ok _ _ _ _ _ Hprep). exact Hrun.
  - split; [exact Hdist|]. split; [exact Hsub|]. split; [exact Hin|].
    + rewrite Hsc, Hrc. split; [|reflexivity]. f_equal.
      unfold w1, add_events. simpl. rewrite solver_calls_app.
      change (EvListDir :: (EvRead <$> (map_to_list d).*1))
        with ([EvListDir] ++ (EvRead <$> (map_to_list d).*1)).
      rewrite solver_calls_app, solver_calls_reads. simpl. apply app_nil_r.
Qed.

End CallFacts.

(** X6. With the solver on, the DONE file absent, a STATE directory and a
    share of the grid that holds no NaN, [calculate] succeeds and calls the
    solver exactly once for each job that remains, with
    [(k * pi, w, solver)], in the order of the remaining jobs.  The
    remaining jobs are assigned jobs, no two of them equal, and a job is
    among them if and only if it is among the assigned jobs and not
    completed: no point is solved twice and no completed point is solved
    again.  Equality of jobs is Python's [==].  No random number is
    drawn. *)
Theorem calculate_solves_remaining_once (uuid4_hex : nat -> string)
    (time_time np_random_random : nat -> float)
    (sy_solve : float -> float -> Z -> SolveResult)
    (self : Executor) (k_grid w_grid : list float) (w : World) (d : StateDir) :
  dry_run self = false ->
  (t ← trg w; done_file t) = None ->
  (RANK self < SIZE self)%nat ->
  congruent_indices (SIZE self) (RANK self) (product k_grid w_grid) <> [] ->
  world_state_dir w = Some d ->
  no_nan (congruent_indices (SIZE self) (RANK self) (product k_grid w_grid))
  = true ->
  exists elapsed w' remaining,
    calculate uuid4_hex time_time np_random_random sy_solve self k_grid w_grid w
    = (Ok elapsed, w')
    /\ key_distinct remaining = true
    /\ (forall job,
          job ∈ remaining
          -> job ∈ congruent_indices (SIZE self) (RANK self)
                     (product k_grid w_grid))
    /\ (forall job,
          key_in job remaining = true
          <-> key_in job (congruent_indices (SIZE self) (RANK self)
                            (product k_grid w_grid)) = true
              /\ ~ completed d job)
    /\ solver_calls (trace w')
       = solver_calls (trace w) ++ (call_of self <$> remaining)
    /\ random_calls w' = random_calls w.
Proof.
  intros Hdry Hdone Hrank Hne Hd _.
  destruct (calculate_calls uuid4_hex time_time np_random_random sy_solve self
              k_grid w_grid w d Hdone Hrank Hne Hd)
    as (elapsed & w' & remaining & Hrun & Hnd & Hsub & Hin & Hsc & Hrc).
  rewrite Hdry in Hsc, Hrc.
  exists elapsed, w', remaining. split; [exact Hrun|]. split; [exact Hnd|].
  split; [exact Hsub|]. split; [exact Hin|]. split; [exact Hsc | lia].
Qed.

(** X7. In a dry run, with the DONE file absent, a STATE directory and a
    share of the grid that holds no NaN, [calculate] succeeds without a
    single solver call and draws exactly two random numbers for each job
    that remains; the remaining jobs are assigned jobs, no two of them
    equal, and a job is among them if and only if it is among the assigned
    jobs and not completed.  Equality of jobs is Python's [==]. *)
Theorem calculate_dry_run_no_solver (uuid4_hex : nat -> string)
    (time_time np_random_random : nat -> float)
    (sy_solve : float -> float -> Z -> SolveResult)
    (self : Executor) (k_grid w_grid : list float) (w : World) (d : StateDir) :
  dry_run self = true ->
  (t ← trg w; done_file t) = None ->
  (RANK self < SIZE self)%nat ->
  congruent_indices (SIZE self) (RANK self) (product k_grid w_grid) <> [] ->
  world_state_dir w = Some d ->
  no_nan (congruent_indices (SIZE self) (RANK self) (product k_grid w_grid))
  = true ->
  exists elapsed w' remaining,
    calculate uuid4_hex time_time np_random_random sy_solve self k_grid w_grid w
    = (Ok elapsed, w')
    /\ (forall job,
          job ∈ remaining
          -> job ∈ congruent_indices (SIZE self) (RANK self)
                     (product k_grid w_grid))
    /\ (forall job,
          key_in job remaining = true
          <-> key_in job (congruent_indices (SIZE self) (RANK self)
                            (product k_grid w_grid)) = true
              /\ ~ completed d job)
    /\ key_distinct remaining = true
    /\ solver_calls (trace w') = solver_calls (trace w)
    /\ random_calls w' = (random_calls w + 2 * length remaining)%nat.
Proof.
  intros Hdry Hdone Hrank Hne Hd _.
  destruct (calculate_calls uuid4_hex time_time np_random_random sy_solve self
              k_grid w_grid w d Hdone Hrank Hne Hd)
    as (elapsed & w' & remaining & Hrun & Hnd & Hsub & Hin & Hsc & Hrc).
  rewrite Hdry in Hsc, Hrc. rewrite app_nil_r in Hsc.
  exists elapsed, w', remaining. split; [exact Hrun|]. split; [exact Hsub|].
  split; [exact Hin|]. split; [exact Hnd|]. split; [exact Hsc | exact Hrc].
Qed.

Lemma calculate_solves_remaining_once_witness :
  dry_run (lone_executor false) = false
  /\ (t ← trg resumed_world; done_file t) = None
  /\ (RANK (lone_executor false) < SIZE (lone_executor false))%nat
  /\ congruent_indices 1 0 (product [0%float] [0%float; 0.5%float; 1%float]) <> []
  /\ world_state_dir resumed_world = Some {[ "a.pkl" := take 1 three_records ]}
  /\ no_nan (congruent_indices 1 0
               (product [0%float] [0%float; 0.5%float; 1%float])) = true
  /\ exists elapsed w' remaining,
       calculate numeral_uuid4_hex constant_clock half_random constant_solver
         (lone_executor false) [0%float] [0%float; 0.5%float; 1%float]
         resumed_world = (Ok elapsed, w')
       /\ solver_calls (trace w')
          = solver_calls (trace resumed_world)
            ++ (call_of (lone_executor false) <$> remaining)
       /\ random_calls w' = random_calls resumed_world.
Proof.
  assert (H2 : (t ← trg resumed_world; done_file t) = None) by reflexivity.
  assert (H3 : (RANK (lone_executor false) < SIZE (lone_executor false))%nat)
    by (simpl; lia).
  assert (H4 : congruent_indices 1 0
                 (product [0%float] [0%float; 0.5%float; 1%float]) <> [])
    by (vm_compute; discriminate).
  split; [reflexivity|]. split; [exact H2|]. split; [exact H3|].
  split; [exact H4|]. split; [reflexivity|]. split; [reflexivity|].
  destruct (calculate_solves_remaining_once numeral_uuid4_hex constant_clock
              half_random constant_solver (lone_executor false) [0%float]
              [0%float; 0.5%float; 1%float] resumed_world
              {[ "a.pkl" := take 1 three_records ]} eq_refl H2 H3 H4 eq_refl
              eq_refl)
    as (elapsed & w' & remaining & Hrun & _ & _ & _ & Hsc & Hrc).
  exists elapsed, w', remaining. split; [exact Hrun|]. split; assumption.
Defined.

Lemma calculate_dry_run_no_solver_witness :
  dry_run (lone_executor true) = true
  /\ (t ← trg resumed_world; done_file t) = None
  /\ (RANK (lone_executor true) < SIZE (lone_executor true))%nat
  /\ congruent_indices 1 0 (product [0%float] [0%float; 0.5%float; 1%float]) <> []
  /\ world_state_dir resumed_world = Some {[ "a.pkl" := take 1 three_records ]}
  /\ no_nan (congruent_indices 1 0
               (product [0%float] [0%float; 0.5%float; 1%float])) = true
  /\ exists elapsed w' (remaining : list GridPoint),
       calculate numeral_uuid4_hex constant_clock half_random constant_solver
         (lone_executor true) [0%float] [0%float; 0.5%float; 1%float]
         resumed_world = (Ok elapsed, w')
       /\ solver_calls (trace w') = solver_calls (trace resumed_world)
       /\ random_calls w' = (random_calls resumed_world + 2 * length remaining)%nat.
Proof.
  assert (H2 : (t ← trg resumed_world; done_file t) = None) by reflexivity.
  assert (H3 : (RANK (lone_executor true) < SIZE (lone_executor true))%nat)
    by (simpl; lia).
  assert (H4 : congruent_indices 1 0
                 (product [0%float] [0%float; 0.5%float; 1%float]) <> [])
    by (vm_compute; discriminate).
  split; [reflexivity|]. split; [exact H2|]. split; [exact H3|].
  split; [exact H4|]. split; [reflexivity|]. split; [reflexivity|].
  destruct (calculate_dry_run_no_solver numeral_uuid4_hex constant_clock
              half_random constant_solver (lone_executor true) [0%float]
              [0%float; 0.5%float; 1%float] resumed_world
              {[ "a.pkl" := take 1 three_records ]} eq_refl H2 H3 H4 eq_refl
              eq_refl)
    as (elapsed & w' & remaining & Hrun & _ & _ & _ & Hsc & Hrc).
  exists elapsed, w', remaining. split; [exact Hrun|]. split; assumption.
Defined.

(** Two points at [k = 1], nothing checkpointed: two solver calls, both
    at [k * pi = np.pi]. *)
Example calculate_two_solver_calls :
  let calls :=
    solver_calls
      (trace (calculate numeral_uuid4_hex constant_clock half_random
                constant_solver (lone_executor false) [1%float]
                [0%float; 0.5%float] started_world).2) in
  length calls = 2%nat /\ calls.*1.*1 = [np_pi; np_pi].
Proof. vm_compute. split; reflexivity. Qed.

(** ** Finalize *)

Lemma stride_fmap {A B : Type} (f : A -> B) (W : nat) (l : list A) :
  forall skip, stride W skip (f <$> l) = f <$> stride W skip l.
Proof.
  induction l as [|x l IH]; intros skip; [reflexivity|].
  cbn [fmap list_fmap stride]. destruct skip as [|s].
  - rewrite fmap_cons. f_equal. apply IH.
  - apply IH.
Qed.

Lemma chunk_jobs_fmap {A B : Type} (f : A -> B) (W : nat) (l : list A) :
  chunk_jobs W (f <$> l) = (fun c : list A => f <$> c) <$> chunk_jobs W l.
Proof.
  unfold chunk_jobs, slice_from_step. rewrite <- list_fmap_compose.
  apply list_fmap_ext. intros _ ii _. apply stride_fmap.
Qed.

Lemma concat_Permutation {A : Type} (ls ls' : list (list A)) :
  ls ≡ₚ ls' -> concat ls ≡ₚ concat ls'.
Proof.
  induction 1 as [|l ls ls' _ IH|l1 l2 ls|ls1 ls2 ls3 _ IH1 _ IH2]; simpl.
  - reflexivity.
  - rewrite IH. reflexivity.
  - rewrite !app_assoc, (Permutation_app_comm l2 l1). reflexivity.
  - etransitivity; eassumption.
Qed.

Lemma concat_shares {A B : Type} (shares : list (list (A * list B))) :
  concat ((fun share => concat share.*2) <$> shares) = concat (concat shares).*2.
Proof.
  induction shares as [|share shares IH]; [reflexivity|].
  cbn [fmap list_fmap concat]. rewrite IH, fmap_app, concat_app. reflexivity.
Qed.

(** Reading the files handed over, one by one, appends what they hold. *)
Lemma finalize_loop_files (d : StateDir)
    (files : list (string * list CheckpointRecord)) :
  (forall f recs, (f, recs) ∈ files -> d !! f = Some recs) ->
  forall (final : list CheckpointRecord) (w : World),
  world_state_dir w = Some d ->
  finalize_loop files.*1 final w
  = (Ok (final ++ concat files.*2), add_events (EvRead <$> files.*1) w).
Proof.
  induction files as [|[f recs] files IH]; intros Hfiles final w Hd.
  - simpl. rewrite add_events_nil, app_nil_r. reflexivity.
  - simpl. rewrite bind_unfold. unfold pickle_load. rewrite Hd. simpl.
    rewrite (Hfiles f recs) by (left). simpl.
    change (mkWorld (trg w) (trace w ++ [EvRead f]) (uuid_calls w)
              (time_calls w) (random_calls w)) with (add_events [EvRead f] w).
    rewrite IH.
    + rewrite add_events_app, <- app_assoc. reflexivity.
    + intros f' recs' Hin. apply Hfiles. right. exact Hin.
    + exact Hd.
Qed.

(** A file that is not there stops the loop with [FileNotFoundError]; the
    files are as they were. *)
Lemma finalize_loop_missing (d : StateDir) (to_concat_on_rank : list string) :
  (exists f, f ∈ to_concat_on_rank /\ d !! f = None) ->
  forall (final : list CheckpointRecord) (w : World),
  world_state_dir w = Some d ->
  exists w', finalize_loop to_concat_on_rank final w = (Raise FileNotFoundError, w')
             /\ trg w' = trg w.
Proof.
  induction to_concat_on_rank as [|f rest IH]; intros (f0 & Hin & Hf0) final w Hd.
  - apply elem_of_nil in Hin. contradiction.
  - cbn [finalize_loop]. rewrite bind_unfold. unfold pickle_load. rewrite Hd. simpl.
    destruct (d !! f) as [recs|] eqn:Hf.
    + simpl. apply elem_of_cons in Hin as [->|Hin]; [congruence|].
      destruct (IH (ex_intro _ f0 (conj Hin Hf0)) (final ++ recs)
                  (add_events [EvRead f] w) Hd) as (w' & Hrun & Htrg).
      exists w'. split; [exact Hrun | exact Htrg].
    + exists w. split; reflexivity.
Qed.

(** X8. [finalize] on a rank, with the STATE directory present: when
    every file handed over is there, it returns the array of their records
    in the order handed over (the empty one-dimensional array when there
    are none), reads exactly those files and changes none; when one of
    them is missing it raises [FileNotFoundError], again changing no
    file. *)
Theorem finalize_reads_share (to_concat_on_rank : list string) (w : World)
    (d : StateDir) :
  world_state_dir w = Some d ->
  ((forall f, f ∈ to_concat_on_rank -> is_Some (d !! f)) ->
   finalize to_concat_on_rank w
   = (Ok (np_array (f ← to_concat_on_rank; default [] (d !! f))),
      add_events (EvRead <$> to_concat_on_rank) w))
  /\ ((exists f, f ∈ to_concat_on_rank /\ d !! f = None) ->
      exists w', finalize to_concat_on_rank w = (Raise FileNotFoundError, w')
                 /\ trg w' = trg w).
Proof.
  intros Hd. split.
  - intros Hall. unfold finalize. rewrite bind_unfold.
    set (files := (fun f => (f, default [] (d !! f))) <$> to_concat_on_rank).
    assert (Hnames : files.*1 = to_concat_on_rank).
    { unfold files. rewrite <- list_fmap_compose. apply list_fmap_id. }
    assert (Hcontents : concat files.*2
                        = (f ← to_concat_on_rank; default [] (d !! f))).
    { unfold files. clear. induction to_concat_on_rank as [|f fs IH]; [reflexivity|].
      rewrite bind_cons. cbn [fmap list_fmap concat snd]. f_equal. exact IH. }
    rewrite <- Hnames at 1.
    rewrite (finalize_loop_files d files); [| |exact Hd].
    + rewrite Hnames, Hcontents. reflexivity.
    + intros f recs Hin. unfold files in Hin.
      apply list_elem_of_fmap in Hin as (f' & [= -> ->] & Hf').
      destruct (Hall f' Hf') as [recs Hrecs]. rewrite Hrecs. reflexivity.
  - intros Hmiss. unfold finalize. rewrite bind_unfold.
    destruct (finalize_loop_missing d to_concat_on_rank Hmiss [] w Hd)
      as (w' & Hrun & Htrg).
    rewrite Hrun. exists w'. split; [reflexivity | exact Htrg].
Qed.

Lemma finalize_reads_share_witness :
  world_state_dir resumed_world = Some {[ "a.pkl" := take 1 three_records ]}
  /\ finalize ["a.pkl"] resumed_world
     = (Ok (RowArray (take 1 three_records)),
        add_events [EvRead "a.pkl"] resumed_world)
  /\ exists w', finalize ["a.pkl"; "b.pkl"] resumed_world
                = (Raise FileNotFoundError, w')
                /\ trg w' = trg resumed_world.
Proof.
  split; [reflexivity|].
  split.
  - apply (proj1 (finalize_reads_share ["a.pkl"] resumed_world
                    {[ "a.pkl" := take 1 three_records ]} eq_refl)).
    intros f Hf. apply list_elem_of_singleton in Hf as ->.
    eexists. apply lookup_singleton_eq.
  - apply (proj2 (finalize_reads_share ["a.pkl"; "b.pkl"] resumed_world
                    {[ "a.pkl" := take 1 three_records ]} eq_refl)).
    exists "b.pkl". split; [right; left | reflexivity].
Defined.

(** ** The merge on rank 0 *)

Lemma np_array_rows (rows : list CheckpointRecord) :
  rows <> [] -> np_array rows = RowArray rows.
Proof. destruct rows; [contradiction | reflexivity]. Qed.

Lemma np_concatenate_rows (ls : list (list CheckpointRecord)) :
  ls <> [] -> Forall (fun rows => rows <> []) ls ->
  np_concatenate (np_array <$> ls) = Some (RowArray (concat ls)).
Proof.
  induction ls as [|rows ls IH]; intros Hne Hall; [contradiction|].
  apply Forall_cons in Hall as [Hrows Hall].
  destruct ls as [|rows' ls].
  - simpl. rewrite np_array_rows, app_nil_r by exact Hrows. reflexivity.
  - change (np_concatenate (np_array <$> rows :: rows' :: ls))
      with (match np_array rows, np_concatenate (np_array <$> rows' :: ls) with
            | EmptyArray, Some EmptyArray => Some EmptyArray
            | RowArray r, Some (RowArray r') => Some (RowArray (r ++ r'))
            | _, _ => None
            end).
    rewrite IH by (discriminate || exact Hall).
    rewrite np_array_rows by exact Hrows. reflexivity.
Qed.

Lemma np_concatenate_all_empty (res : list ndarray) :
  res <> [] -> Forall (fun arr => arr = EmptyArray) res ->
  np_concatenate res = Some EmptyArray.
Proof.
  induction res as [|arr res IH]; intros Hne Hall; [contradiction|].
  apply Forall_cons in Hall as [-> Hall].
  destruct res as [|arr' res]; [reflexivity|].
  change (np_concatenate (EmptyArray :: arr' :: res))
    with (match np_concatenate (arr' :: res) with
          | Some EmptyArray => Some EmptyArray
          | _ => None
          end).
  rewrite IH by (discriminate || exact Hall). reflexivity.
Qed.

(** A merge that succeeds was given arrays of one kind. *)
Lemma np_concatenate_Some (res : list ndarray) (merged : ndarray) :
  np_concatenate res = Some merged ->
  match merged with
  | EmptyArray => Forall (fun arr => arr = EmptyArray) res
  | RowArray _ => Forall (fun arr => exists rows, arr = RowArray rows) res
  end.
Proof.
  revert merged. induction res as [|arr res IH]; intros merged H; [discriminate|].
  destruct res as [|arr' res].
  - injection H as <-. destruct arr; repeat constructor. eexists; reflexivity.
  - change (np_concatenate (arr :: arr' :: res))
      with (match arr, np_concatenate (arr' :: res) with
            | EmptyArray, Some EmptyArray => Some EmptyArray
            | RowArray r, Some (RowArray r') => Some (RowArray (r ++ r'))
            | _, _ => None
            end) in H.
    destruct arr as [|r], (np_concatenate (arr' :: res)) as [[|r']|] eqn:Hrest;
      try discriminate; injection H as <-.
    + constructor; [reflexivity | apply (IH EmptyArray eq_refl)].
    + constructor; [eexists; reflexivity | apply (IH (RowArray r') eq_refl)].
Qed.

Lemma np_concatenate_mixed (res : list ndarray) (rows : list CheckpointRecord) :
  EmptyArray ∈ res -> RowArray rows ∈ res -> np_concatenate res = None.
Proof.
  intros Hempty Hrows. destruct (np_concatenate res) as [merged|] eqn:H; [|reflexivity].
  apply np_concatenate_Some in H. destruct merged.
  - rewrite Forall_forall in H. specialize (H _ Hrows). discriminate.
  - rewrite Forall_forall in H. destruct (H _ Hempty) as [rs Hrs]. discriminate.
Qed.

Lemma finalize_shares_files (d : StateDir)
    (shares : list (list (string * list CheckpointRecord))) :
  (forall f recs, (f, recs) ∈ concat shares -> d !! f = Some recs) ->
  forall w : World, world_state_dir w = Some d ->
  finalize_shares ((fun share => share.*1) <$> shares) w
  = (Ok ((fun share => np_array (concat share.*2)) <$> shares),
     add_events (EvRead <$> (concat shares).*1) w).
Proof.
  induction shares as [|share shares IH]; intros Hfiles w Hd.
  - simpl. rewrite add_events_nil. reflexivity.
  - cbn [fmap list_fmap finalize_shares]. rewrite bind_unfold.
    unfold finalize at 1. rewrite bind_unfold.
    rewrite (finalize_loop_files d share); [| |exact Hd].
    + cbn [app]. unfold mret at 1, M_ret. cbv beta iota.
      rewrite bind_unfold, IH.
      * cbn [concat]. rewrite add_events_app, fmap_app, fmap_app. reflexivity.
      * intros f recs Hin. apply Hfiles. cbn [concat].
        apply elem_of_app. right. exact Hin.
      * exact Hd.
    + intros f recs Hin. apply Hfiles. cbn [concat].
      apply elem_of_app. left. exact Hin.
Qed.

Lemma rows_of_share_nonempty (d : StateDir)
    (share : list (string * list CheckpointRecord)) :
  (forall f recs, d !! f = Some recs -> recs <> []) ->
  (forall f recs, (f, recs) ∈ share -> d !! f = Some recs) ->
  share <> [] -> concat share.*2 <> [].
Proof.
  intros Hfull Hfiles Hne. destruct share as [|[f recs] share]; [contradiction|].
  simpl. intros Happ. apply app_eq_nil in Happ as [Hrecs _].
  apply (Hfull f recs); [apply Hfiles; left | exact Hrecs].
Qed.

Lemma finalize_phase_run (SIZE : nat) (w : World) (d : StateDir) :
  (1 <= SIZE)%nat -> world_state_dir w = Some d ->
  finalize_phase SIZE w
  = (Ok (np_concatenate
           ((fun share => np_array (concat share.*2))
              <$> chunk_jobs SIZE (map_to_list d))),
     add_events
       (EvListDir :: (EvRead <$> (concat (chunk_jobs SIZE (map_to_list d))).*1)) w).
Proof.
  intros HS Hd. unfold finalize_phase. rewrite bind_unfold.
  unfold listdir_fullpath. simpl. rewrite Hd.
  change (mkWorld (trg w) (trace w ++ [EvListDir]) (uuid_calls w)
            (time_calls w) (random_calls w)) with (add_events [EvListDir] w).
  rewrite bind_unfold, chunk_jobs_fmap.
  rewrite (finalize_shares_files d (chunk_jobs SIZE (map_to_list d)));
    [|intros f recs Hin|exact Hd].
  - rewrite add_events_app. reflexivity.
  - apply elem_of_map_to_list.
    rewrite <- (concat_chunk_jobs SIZE (map_to_list d) HS). exact Hin.
Qed.

(** X9. The finalize phase of a group of [SIZE >= 1] ranks over a STATE
    directory none of whose files is empty (the files a buffer writes
    never are).  The phase changes no file.  With at least as many files
    as ranks, rank 0 merges the gathered arrays into one whose rows are a
    permutation of the records on disk.  With no file at all the merge is
    the empty one-dimensional array.  With at least one file but fewer
    files than ranks, some rank returns the empty one-dimensional array
    next to two-dimensional ones, and [np.concatenate] raises. *)
Theorem finalize_phase_merge (SIZE : nat) (w : World) (d : StateDir) :
  (1 <= SIZE)%nat ->
  world_state_dir w = Some d ->
  (forall f recs, d !! f = Some recs -> recs <> []) ->
  exists merged w',
    finalize_phase SIZE w = (Ok merged, w')
    /\ trg w' = trg w
    /\ ((SIZE <= size d)%nat ->
        exists rows, merged = Some (RowArray rows)
                     /\ rows ≡ₚ records_on_disk d)
    /\ (size d = 0%nat -> merged = Some EmptyArray)
    /\ ((0 < size d < SIZE)%nat -> merged = None).
Proof.
  intros HS Hd Hfull. rewrite (finalize_phase_run SIZE w d HS Hd).
  eexists _, _. split; [reflexivity|]. split; [reflexivity|].
  set (files := map_to_list d).
  assert (Hsize : length files = size d) by apply length_map_to_list.
  assert (Hfiles : forall i share f recs,
            chunk_jobs SIZE files !! i = Some share ->
            (f, recs) ∈ share -> d !! f = Some recs).
  { intros i share f recs Hi Hin. apply elem_of_map_to_list. fold files.
    rewrite <- (concat_chunk_jobs SIZE files HS).
    apply list_elem_of_In, in_concat. exists share.
    split; apply list_elem_of_In; [|exact Hin].
    eapply list_elem_of_lookup_2. exact Hi. }
  assert (Hshare_len : forall i share, chunk_jobs SIZE files !! i = Some share ->
            (i < SIZE)%nat
            /\ length share = ((size d + SIZE - 1 - i) / SIZE)%nat).
  { intros i share Hi. apply chunk_jobs_lookup_Some in Hi as [Hlt ->].
    split; [exact Hlt|]. rewrite stride_length by exact HS. rewrite Hsize.
    reflexivity. }
  split; [|split].
  - intros Hmany. exists (concat (concat (chunk_jobs SIZE files)).*2). split.
    + rewrite <- concat_shares.
      assert (Harr : (fun share : list (string * list CheckpointRecord) =>
                        np_array (concat share.*2)) <$> chunk_jobs SIZE files
                     = np_array <$> ((fun share => concat share.*2)
                                       <$> chunk_jobs SIZE files))
        by (rewrite <- list_fmap_compose; reflexivity).
      rewrite Harr. apply np_concatenate_rows.
      * intros Hnil. apply (f_equal length) in Hnil.
        rewrite length_fmap, chunk_jobs_length in Hnil. simpl in Hnil. lia.
      * apply Forall_fmap, Forall_lookup. intros i share Hi. simpl.
        apply (rows_of_share_nonempty d share Hfull).
        -- intros f recs. apply (Hfiles i share f recs Hi).
        -- destruct (Hshare_len i share Hi) as [Hlt Hlen].
           intros ->. simpl in Hlen. symmetry in Hlen.
           apply Nat.div_small_iff in Hlen; lia.
    + unfold records_on_disk. apply concat_Permutation, fmap_Permutation.
      apply concat_chunk_jobs. exact HS.
  - intros Hzero. apply np_concatenate_all_empty.
    + intros Hnil. apply (f_equal length) in Hnil.
      rewrite length_fmap, chunk_jobs_length in Hnil. simpl in Hnil. lia.
    + apply Forall_fmap, Forall_lookup. intros i share Hi. simpl.
      destruct (Hshare_len i share Hi) as [Hlt Hlen].
      rewrite Hzero, Nat.div_small in Hlen by lia.
      apply length_zero_iff_nil in Hlen. subst share. reflexivity.
  - intros [Hpos Hfew].
    assert (Hfirst : chunk_jobs SIZE files !! 0%nat = Some (stride SIZE 0 files))
      by (apply chunk_jobs_lookup; lia).
    assert (Hlast : chunk_jobs SIZE files !! (SIZE - 1)%nat
                    = Some (stride SIZE (SIZE - 1) files))
      by (apply chunk_jobs_lookup; lia).
    apply (np_concatenate_mixed _ (concat (stride SIZE 0 files).*2)).
    + apply list_elem_of_fmap. exists (stride SIZE (SIZE - 1) files). split.
      * destruct (Hshare_len _ _ Hlast) as [_ Hlen].
        replace (size d + SIZE - 1 - (SIZE - 1))%nat with (size d) in Hlen by lia.
        rewrite Nat.div_small in Hlen by lia.
        apply length_zero_iff_nil in Hlen. rewrite Hlen. reflexivity.
      * eapply list_elem_of_lookup_2. exact Hlast.
    + apply list_elem_of_fmap. exists (stride SIZE 0 files). split.
      * symmetry. apply np_array_rows.
        apply (rows_of_share_nonempty d _ Hfull).
        -- intros f recs. apply (Hfiles 0%nat _ f recs Hfirst).
        -- destruct (Hshare_len _ _ Hfirst) as [_ Hlen].
           intros Hnil. rewrite Hnil in Hlen. simpl in Hlen. symmetry in Hlen.
           apply Nat.div_small_iff in Hlen; lia.
      * eapply list_elem_of_lookup_2. exact Hfirst.
Qed.

Lemma finalize_phase_merge_witness :
  (1 <= 1)%nat
  /\ world_state_dir resumed_world = Some {[ "a.pkl" := take 1 three_records ]}
  /\ (forall f recs,
        ({[ "a.pkl" := take 1 three_records ]} : StateDir) !! f = Some recs ->
        recs <> [])
  /\ exists merged w',
       finalize_phase 1 resumed_world = (Ok merged, w')
       /\ trg w' = trg resumed_world
       /\ ((1 <= size ({[ "a.pkl" := take 1 three_records ]} : StateDir))%nat ->
           exists rows,
             merged = Some (RowArray rows)
             /\ rows ≡ₚ records_on_disk {[ "a.pkl" := take 1 three_records ]}).
Proof.
  assert (H1 : (1 <= 1)%nat) by lia.
  assert (H3 : forall f recs,
            ({[ "a.pkl" := take 1 three_records ]} : StateDir) !! f = Some recs ->
            recs <> []).
  { intros f recs Hf. apply lookup_singleton_Some in Hf as [_ <-]. discriminate. }
  split; [exact H1|]. split; [reflexivity|]. split; [exact H3|].
  destruct (finalize_phase_merge 1 resumed_world
              {[ "a.pkl" := take 1 three_records ]} H1 eq_refl H3)
    as (merged & w' & Hrun & Htrg & Hmany & _).
  exists merged, w'. split; [exact Hrun|]. split; [exact Htrg | exact Hmany].
Defined.

(** One checkpoint file and two ranks: rank 1 has nothing to read, and the
    merge on rank 0 fails.  Two files and two ranks: the merge holds the
    three records. *)
Example finalize_phase_few_files :
  (finalize_phase 2 resumed_world).1 = Ok None
  /\ (finalize_phase 2 two_files_world).1 = Ok (Some (RowArray three_records)).
Proof. vm_compute. split; reflexivity. Qed.

(** ** Cleanup *)

Lemma remove_files_lookup (fs : list string) :
  forall (d : StateDir) (f : string),
  remove_files fs d !! f = if decide (f ∈ fs) then None else d !! f.
Proof.
  unfold remove_files. induction fs as [|f0 fs IH]; intros d f; simpl.
  - destruct (decide (f ∈ [])) as [Hin|_]; [|reflexivity].
    apply elem_of_nil in Hin. contradiction.
  - rewrite IH. destruct (decide (f ∈ fs)) as [Hin|Hnin].
    + rewrite decide_True by (right; exact Hin). reflexivity.
    + destruct (decide (f = f0)) as [->|Hne].
      * rewrite decide_True by left. apply lookup_delete_eq.
      * rewrite decide_False by (rewrite elem_of_cons; tauto).
        apply lookup_delete_ne. congruence.
Qed.

Lemma remove_files_app (fs1 fs2 : list string) (d : StateDir) :
  remove_files (fs1 ++ fs2) d = remove_files fs2 (remove_files fs1 d).
Proof. apply foldl_app. Qed.

(** Removing files that are there and are listed once each. *)
Lemma unlink_all_present (to_delete_on_rank : list string) :
  forall (t : TrgDir) (d : StateDir) (tr : list Event) (u c r : nat),
  state_dir t = Some d ->
  NoDup to_delete_on_rank ->
  (forall f, f ∈ to_delete_on_rank -> is_Some (d !! f)) ->
  unlink_all to_delete_on_rank (mkWorld (Some t) tr u c r)
  = (Ok tt,
     mkWorld
       (Some (mkTrg (done_file t) (Some (remove_files to_delete_on_rank d))
                (res_file t))) tr u c r).
Proof.
  induction to_delete_on_rank as [|f fs IH]; intros t d tr u c r Hd Hnd Hall.
  - destruct t as [df sd rf]. simpl in *. subst sd. reflexivity.
  - apply NoDup_cons in Hnd as [Hnin Hnd].
    cbn [unlink_all]. rewrite bind_unfold. unfold unlink at 1.
    cbn [trg]. rewrite Hd.
    destruct (Hall f) as [recs Hf]; [left|]. rewrite Hf.
    unfold set_trg. cbn [trace uuid_calls time_calls random_calls].
    rewrite (IH _ (delete f d)); [reflexivity | reflexivity | exact Hnd |].
    intros f' Hf'. rewrite lookup_delete_ne; [apply Hall; right; exact Hf'|].
    intros ->. contradiction.
Qed.

(** A file that is not there stops the removal with [FileNotFoundError];
    the DONE file is as it was. *)
Lemma unlink_all_missing (to_delete_on_rank : list string) :
  forall (w : World) (d : StateDir),
  world_state_dir w = Some d ->
  (exists f, f ∈ to_delete_on_rank /\ d !! f = None) ->
  exists w', unlink_all to_delete_on_rank w = (Raise FileNotFoundError, w')
             /\ (t ← trg w'; done_file t) = (t ← trg w; done_file t).
Proof.
  induction to_delete_on_rank as [|f fs IH]; intros w d Hd (f0 & Hin & Hf0).
  - apply elem_of_nil in Hin. contradiction.
  - apply world_state_dir_Some in Hd as (t & Ht & Hd).
    cbn [unlink_all]. rewrite bind_unfold. unfold unlink at 1. cbv beta.
    rewrite Ht, Hd.
    destruct (d !! f) as [recs|] eqn:Hf.
    + apply elem_of_cons in Hin as [->|Hin]; [congruence|].
      destruct (IH (set_trg (mkTrg (done_file t) (Some (delete f d)) (res_file t)) w)
                  (delete f d) eq_refl) as (w' & Hrun & Hdone).
      { exists f0. split; [exact Hin|].
        rewrite lookup_delete_ne; [exact Hf0 | intros ->; congruence]. }
      exists w'. split; [exact Hrun|]. rewrite Hdone. reflexivity.
    + exists w. split; [reflexivity|]. rewrite Ht. reflexivity.
Qed.

(** X10. [cleanup] on a rank, with the STATE directory present: when the
    files handed over are there and listed once each, it removes exactly
    them, leaves every other file and [res.npy] alone, and appends the
    rank's line to the DONE file, creating it when needed; when one of
    them is missing it raises [FileNotFoundError] and the DONE file is
    not touched. *)
Theorem cleanup_removes_share (self : Executor)
    (to_delete_on_rank : list string) (w : World) (t : TrgDir) (d : StateDir) :
  trg w = Some t ->
  state_dir t = Some d ->
  (NoDup to_delete_on_rank ->
   (forall f, f ∈ to_delete_on_rank -> is_Some (d !! f)) ->
   exists w',
     cleanup self to_delete_on_rank w = (Ok tt, w')
     /\ trg w'
        = Some (mkTrg (Some (default [] (done_file t) ++ [RANK self]))
                  (Some (remove_files to_delete_on_rank d)) (res_file t))
     /\ trace w' = trace w
     /\ (forall f, remove_files to_delete_on_rank d !! f
                   = if decide (f ∈ to_delete_on_rank) then None else d !! f))
  /\ ((exists f, f ∈ to_delete_on_rank /\ d !! f = None) ->
      exists w',
        cleanup self to_delete_on_rank w = (Raise FileNotFoundError, w')
        /\ (t' ← trg w'; done_file t') = done_file t).
Proof.
  intros Ht Hd. split.
  - intros Hnd Hall. destruct w as [tg tr u c r]. simpl in Ht. subst tg.
    unfold cleanup. rewrite bind_unfold.
    rewrite (unlink_all_present to_delete_on_rank t d tr u c r Hd Hnd Hall).
    eexists. split; [reflexivity|]. split; [reflexivity|]. split; [reflexivity|].
    apply remove_files_lookup.
  - intros Hmiss. unfold cleanup. rewrite bind_unfold.
    destruct (unlink_all_missing to_delete_on_rank w d) as (w' & Hrun & Hdone);
      [unfold world_state_dir; rewrite Ht; exact Hd | exact Hmiss |].
    rewrite Hrun. exists w'. split; [reflexivity|].
    rewrite Hdone, Ht. reflexivity.
Qed.

Lemma cleanup_removes_share_witness :
  trg two_files_world
  = Some (mkTrg None
            (Some {[ "a.pkl" := take 2 three_records;
                     "b.pkl" := drop 2 three_records ]}) None)
  /\ state_dir (mkTrg None
                 (Some {[ "a.pkl" := take 2 three_records;
                          "b.pkl" := drop 2 three_records ]}) None)
     = Some {[ "a.pkl" := take 2 three_records; "b.pkl" := drop 2 three_records ]}
  /\ NoDup ["a.pkl"]
  /\ (forall f, f ∈ ["a.pkl"] ->
      is_Some (({[ "a.pkl" := take 2 three_records;
                   "b.pkl" := drop 2 three_records ]} : StateDir) !! f))
  /\ exists w',
       cleanup rank3_executor ["a.pkl"] two_files_world = (Ok tt, w')
       /\ trg w'
          = Some (mkTrg (Some [3%nat])
                    (Some (remove_files ["a.pkl"]
                             {[ "a.pkl" := take 2 three_records;
                                "b.pkl" := drop 2 three_records ]})) None).
Proof.
  assert (Hnd : NoDup ["a.pkl"]) by (apply NoDup_singleton).
  assert (Hall : forall f, f ∈ ["a.pkl"] ->
            is_Some (({[ "a.pkl" := take 2 three_records;
                         "b.pkl" := drop 2 three_records ]} : StateDir) !! f)).
  { intros f Hf. apply list_elem_of_singleton in Hf as ->.
    eexists. reflexivity. }
  split; [reflexivity|]. split; [reflexivity|]. split; [exact Hnd|].
  split; [exact Hall|].
  destruct (proj1 (cleanup_removes_share rank3_executor ["a.pkl"]
                     two_files_world _ _ eq_refl eq_refl) Hnd Hall)
    as (w' & Hrun & Htrg & _).
  exists w'. split; [exact Hrun | exact Htrg].
Defined.

(** ** The cleanup phase of the group *)

Lemma cleanup_run (self : Executor) (to_delete_on_rank : list string)
    (t : TrgDir) (d : StateDir) (tr : list Event) (u c r : nat) :
  state_dir t = Some d ->
  NoDup to_delete_on_rank ->
  (forall f, f ∈ to_delete_on_rank -> is_Some (d !! f)) ->
  cleanup self to_delete_on_rank (mkWorld (Some t) tr u c r)
  = (Ok tt,
     mkWorld
       (Some (mkTrg (Some (default [] (done_file t) ++ [RANK self]))
                (Some (remove_files to_delete_on_rank d)) (res_file t)))
       tr u c r).
Proof.
  intros Hd Hnd Hall. unfold cleanup. rewrite bind_unfold.
  rewrite (unlink_all_present to_delete_on_rank t d tr u c r Hd Hnd Hall).
  reflexivity.
Qed.

Lemma tags_nonempty (ranks : list nat) :
  ranks <> [] ->
  forall done : option (list nat),
  foldl (fun df rank => Some (default [] df ++ [rank])) done ranks
  = Some (default [] done ++ ranks).
Proof.
  induction ranks as [|rank ranks IH]; intros Hne done; [contradiction|].
  cbn [foldl]. destruct ranks as [|rank' ranks]; [reflexivity|].
  rewrite IH by discriminate. simpl. rewrite <- app_assoc. reflexivity.
Qed.

Lemma cleanup_shares_run (executor : nat -> Executor)
    (shares : list (list string)) (order : list nat) :
  forall (t : TrgDir) (d : StateDir) (tr : list Event) (u c r : nat),
  state_dir t = Some d ->
  NoDup (rank ← order; default [] (shares !! rank)) ->
  (forall f, f ∈ (rank ← order; default [] (shares !! rank)) -> is_Some (d !! f)) ->
  cleanup_shares executor shares order (mkWorld (Some t) tr u c r)
  = (Ok tt,
     mkWorld
       (Some (mkTrg
                (foldl (fun df rank => Some (default [] df ++ [rank])) (done_file t)
                   ((fun rank => RANK (executor rank)) <$> order))
                (Some (remove_files (rank ← order; default [] (shares !! rank)) d))
                (res_file t)))
       tr u c r).
Proof.
  induction order as [|rank order IH]; intros t d tr u c r Hd Hnd Hall.
  - destruct t as [df sd rf]. simpl in *. subst sd. reflexivity.
  - rewrite bind_cons in Hnd, Hall. apply NoDup_app in Hnd as (Hnd1 & Hdisj & Hnd2).
    cbn [cleanup_shares]. rewrite bind_unfold.
    rewrite (cleanup_run (executor rank) (default [] (shares !! rank)) t d tr u c r
               Hd Hnd1) by (intros f Hf; apply Hall, elem_of_app; left; exact Hf).
    rewrite (IH _ (remove_files (default [] (shares !! rank)) d));
      [|reflexivity|exact Hnd2|].
    + rewrite bind_cons, remove_files_app. reflexivity.
    + intros f Hf. rewrite remove_files_lookup.
      rewrite decide_False by (intros Hin; exact (Hdisj f Hin Hf)).
      apply Hall, elem_of_app. right. exact Hf.
Qed.

Lemma shares_in_rank_order {A : Type} (shares : list (list A)) :
  forall pre : list (list A),
  (rank ← seq (length pre) (length shares); default [] ((pre ++ shares) !! rank))
  = concat shares.
Proof.
  induction shares as [|share shares IH]; intros pre; [reflexivity|].
  cbn [length seq concat]. rewrite bind_cons.
  rewrite lookup_app_r, Nat.sub_diag by lia. cbn [lookup list_lookup default].
  f_equal. specialize (IH (pre ++ [share])).
  rewrite length_app, Nat.add_1_r, <- app_assoc in IH. exact IH.
Qed.

(** The files removed by the ranks, in whatever order they run, are the
    files of the directory, each once. *)
Lemma removed_by_all_ranks (SIZE : nat) (order : list nat) (d : StateDir) :
  (1 <= SIZE)%nat -> order ≡ₚ seq 0 SIZE ->
  (rank ← order; default [] (chunk_jobs SIZE (map_to_list d).*1 !! rank))
  ≡ₚ (map_to_list d).*1.
Proof.
  intros HS Horder. rewrite Horder.
  pose proof (shares_in_rank_order (chunk_jobs SIZE (map_to_list d).*1) []) as Hc.
  rewrite chunk_jobs_length in Hc. simpl in Hc. rewrite Hc.
  apply concat_chunk_jobs. exact HS.
Qed.

(** X12. The cleanup phase of a group of [SIZE >= 1] ranks, each
    cleaning the share of the listing it was dealt, in any order of the
    ranks: every call succeeds, the STATE directory ends empty, [res.npy]
    is as it was, and the DONE file has gained one line per rank; rank 0's
    [rmdir] of the STATE directory then succeeds; and from then on
    [calculate] on this job group, on any rank, returns [0.0] at once. *)
Theorem cleanup_phase_completes (uuid4_hex : nat -> string)
    (time_time np_random_random : nat -> float)
    (sy_solve : float -> float -> Z -> SolveResult)
    (executor : nat -> Executor) (SIZE : nat) (order : list nat)
    (w : World) (t : TrgDir) (d : StateDir) :
  (1 <= SIZE)%nat ->
  (forall rank, RANK (executor rank) = rank) ->
  order ≡ₚ seq 0 SIZE ->
  trg w = Some t ->
  state_dir t = Some d ->
  exists w1 w2,
    cleanup_shares executor (chunk_jobs SIZE (map_to_list d).*1) order w
    = (Ok tt, w1)
    /\ trg w1
       = Some (mkTrg (Some (default [] (done_file t) ++ order)) (Some ∅) (res_file t))
    /\ rmdir_state w1 = Some w2
    /\ trg w2
       = Some (mkTrg (Some (default [] (done_file t) ++ order)) None (res_file t))
    /\ trace w2 = trace w
    /\ forall self k_grid w_grid,
         calculate uuid4_hex time_time np_random_random sy_solve self k_grid
           w_grid w2
         = (Ok 0%float,
            add_events [EvLog (RANK self) WARNING (MsgDoneFileExists (cfg self))]
              w2).
Proof.
  intros HS Hrank Horder Ht Hd. destruct w as [tg tr u c r]. simpl in Ht. subst tg.
  set (shares := chunk_jobs SIZE (map_to_list d).*1).
  set (removed := rank ← order; default [] (shares !! rank)).
  assert (Hperm : removed ≡ₚ (map_to_list d).*1)
    by (apply removed_by_all_ranks; assumption).
  assert (Hnames : forall f, f ∈ removed <-> is_Some (d !! f)).
  { intros f. rewrite Hperm, list_elem_of_fmap. split.
    - intros ([f' recs] & -> & Hin). apply elem_of_map_to_list in Hin.
      exists recs. exact Hin.
    - intros [recs Hf]. exists (f, recs). split; [reflexivity|].
      apply elem_of_map_to_list. exact Hf. }
  assert (Hempty : remove_files removed d = ∅).
  { apply map_empty. intros f. rewrite remove_files_lookup.
    destruct (decide (f ∈ removed)) as [_|Hnin]; [reflexivity|].
    destruct (d !! f) as [recs|] eqn:Hf; [|reflexivity].
    exfalso. apply Hnin, Hnames. exists recs. exact Hf. }
  assert (Hranks : (fun rank => RANK (executor rank)) <$> order = order).
  { rewrite <- (list_fmap_id order) at 2. apply list_fmap_ext.
    intros _ rank _. apply Hrank. }
  assert (Hne : order <> []).
  { intros ->. apply Permutation_length in Horder.
    rewrite length_seq in Horder. simpl in Horder. lia. }
  pose proof (cleanup_shares_run executor shares order t d tr u c r Hd) as Hrun.
  fold removed in Hrun. rewrite Hempty, Hranks, (tags_nonempty order Hne) in Hrun.
  eexists _, _. split.
  - apply Hrun.
    + rewrite Hperm. apply NoDup_fst_map_to_list.
    + intros f Hf. apply Hnames. exact Hf.
  - split; [reflexivity|]. split; [reflexivity|].
    split; [reflexivity|]. split; [reflexivity|].
    intros self k_grid w_grid. apply calculate_done. eexists. reflexivity.
Qed.

Lemma cleanup_phase_completes_witness :
  (1 <= 2)%nat
  /\ (forall rank, RANK (mkExecutor 2 rank false false 0 (-1) "configs/000.yaml")
                   = rank)
  /\ [1%nat; 0%nat] ≡ₚ seq 0 2
  /\ exists w1 w2,
       cleanup_shares
         (fun rank => mkExecutor 2 rank false false 0 (-1) "configs/000.yaml")
         (chunk_jobs 2
            (map_to_list ({[ "a.pkl" := take 2 three_records;
                             "b.pkl" := drop 2 three_records ]} : StateDir)).*1)
         [1%nat; 0%nat] two_files_world = (Ok tt, w1)
       /\ trg w1 = Some (mkTrg (Some [1%nat; 0%nat]) (Some ∅) None)
       /\ rmdir_state w1 = Some w2
       /\ trg w2 = Some (mkTrg (Some [1%nat; 0%nat]) None None).
Proof.
  assert (H1 : (1 <= 2)%nat) by lia.
  assert (H3 : [1%nat; 0%nat] ≡ₚ seq 0 2) by (simpl; apply perm_swap).
  split; [exact H1|]. split; [reflexivity|]. split; [exact H3|].
  destruct (cleanup_phase_completes numeral_uuid4_hex constant_clock half_random
              constant_solver
              (fun rank => mkExecutor 2 rank false false 0 (-1) "configs/000.yaml")
              2 [1%nat; 0%nat] two_files_world _ _ H1 (fun rank => eq_refl) H3
              eq_refl eq_refl)
    as (w1 & w2 & Hrun & Htrg1 & Hrm & Htrg2 & _).
  exists w1, w2. split; [exact Hrun|]. split; [exact Htrg1|].
  split; [exact Hrm | exact Htrg2].
Defined.

(** ** What the compute phase never does *)

Section CalculateInvariant.
Variable uuid4_hex : nat -> string.
Variable time_time : nat -> float.
Variable np_random_random : nat -> float.
Variable sy_solve : float -> float -> Z -> SolveResult.
Variable self : Executor.
Variable R : World -> World -> Prop.
Variable allowed : Event -> Prop.
Hypothesis R_refl : forall w, R w w.
Hypothesis R_trans : forall w1 w2 w3, R w1 w2 -> R w2 w3 -> R w1 w3.
Hypothesis R_emit : forall e w, allowed e -> R w (add_events [e] w).
Hypothesis R_counters : forall w u c r, R w (mkWorld (trg w) (trace w) u c r).
Hypothesis R_write : forall w t d f q,
  trg w = Some t -> state_dir t = Some d ->
  R w (set_trg (mkTrg (done_file t) (Some (<[f := q]> d)) (res_file t)) w).
Hypothesis allowed_log : forall lvl msg,
  (lvl = DEBUG -> debug_flag self = true) -> allowed (EvLog (RANK self) lvl msg).
Hypothesis allowed_other : forall e,
  (forall rank lvl msg, e <> EvLog rank lvl msg) -> allowed e.

Local Abbreviation inv := (step_inv R).

Lemma inv_ret {A : Type} (a : A) : inv (mret a).
Proof. intros w. apply R_refl. Qed.

Lemma inv_raise {A : Type} (e : Exn) : inv (@raise A e).
Proof. intros w. apply R_refl. Qed.

Lemma inv_bind {A B : Type} (m : M A) (f : A -> M B) :
  inv m -> (forall a, inv (f a)) -> inv (m ≫= f).
Proof.
  intros Hm Hf w. rewrite bind_unfold. specialize (Hm w).
  destruct (m w) as [[a|e] w1]; simpl in *.
  - eapply R_trans; [exact Hm | apply Hf].
  - exact Hm.
Qed.

Lemma inv_emit (e : Event) : allowed e -> inv (emit e).
Proof. intros He w. apply R_emit. exact He. Qed.

Lemma inv_log (lvl : Level) (msg : Message) :
  lvl <> DEBUG -> inv (log self lvl msg).
Proof. intros Hl. apply inv_emit, allowed_log. intros ->. contradiction. Qed.

Lemma inv_log_debug (msg : Message) : inv (log_debug self msg).
Proof.
  unfold log_debug. destruct (debug_flag self) eqn:Hdbg.
  - apply inv_emit, allowed_log. intros _. reflexivity.
  - apply inv_ret.
Qed.

Lemma inv_now : inv (now time_time).
Proof. intros w. apply R_counters. Qed.

Lemma inv_random : inv (random np_random_random).
Proof. intros w. apply R_counters. Qed.

Lemma inv_fresh_uuid : inv (fresh_uuid uuid4_hex).
Proof. intros w. apply R_counters. Qed.

Lemma inv_pickle_dump (queue : list CheckpointRecord) (f : string) :
  inv (pickle_dump queue f).
Proof.
  intros w. unfold pickle_dump. destruct (trg w) as [t|] eqn:Ht; [|apply R_refl].
  destruct (state_dir t) as [d|] eqn:Hd; [|apply R_refl].
  apply (R_trans _ _ _ (R_write w t d f queue Ht Hd)).
  apply (R_emit (EvWrite f)), allowed_other. discriminate.
Qed.

Lemma inv_pickle_load (f : string) : inv (pickle_load f).
Proof.
  intros w. unfold pickle_load.
  destruct (d ← world_state_dir w; d !! f); [|apply R_refl].
  apply (R_emit (EvRead f) w), allowed_other. discriminate.
Qed.

Lemma inv_listdir_fullpath : inv listdir_fullpath.
Proof. intros w. apply (R_emit EvListDir w), allowed_other. discriminate. Qed.

Lemma inv_flush (b : Buffer) : inv (flush uuid4_hex b).
Proof.
  unfold flush. destruct (decide (0 < counter b)); [|apply inv_ret].
  apply inv_bind; [apply inv_fresh_uuid|]. intros u.
  apply inv_bind; [apply inv_pickle_dump|]. intros _. apply inv_ret.
Qed.

Lemma inv_Buffer_call (b : Buffer) (val : CheckpointRecord) :
  inv (Buffer_call uuid4_hex b val).
Proof.
  unfold Buffer_call. cbv zeta.
  match goal with |- context [decide ?P] => destruct (decide P) end;
    [apply inv_flush | apply inv_ret].
Qed.

Lemma inv_load_completed (checkpoints : list string) :
  forall completed_jobs, inv (load_completed checkpoints completed_jobs).
Proof.
  induction checkpoints as [|f rest IH]; intros completed_jobs; simpl.
  - apply inv_ret.
  - apply inv_bind; [apply inv_pickle_load|]. intros loaded. apply IH.
Qed.

Lemma inv_find_remaining_jobs (jobs : list GridPoint) :
  inv (find_remaining_jobs jobs).
Proof.
  unfold find_remaining_jobs, find_remaining_jobs_with.
  apply inv_bind; [apply inv_listdir_fullpath|]. intros checkpoints.
  apply inv_bind; [apply inv_load_completed|]. intros completed. apply inv_ret.
Qed.

Lemma inv_prep_jobs (k_grid w_grid : list float) :
  inv (prep_jobs self k_grid w_grid).
Proof.
  unfold prep_jobs.
  destruct (chunk_jobs (SIZE self) (product k_grid w_grid) !! RANK self);
    [apply inv_ret | apply inv_raise].
Qed.

Lemma inv_calculate_prepare (k_grid w_grid : list float) :
  inv (calculate_prepare self k_grid w_grid).
Proof.
  unfold calculate_prepare.
  apply inv_bind; [intros w; apply R_refl|]. intros [|].
  - apply inv_bind; [apply inv_log; discriminate|]. intros _. apply inv_ret.
  - apply inv_bind; [apply inv_prep_jobs|]. intros jobs.
    destruct (decide (length jobs = 0%nat)).
    + apply inv_bind; [apply inv_log; discriminate|]. intros _. apply inv_ret.
    + apply inv_bind; [apply inv_find_remaining_jobs|]. intros remaining.
      apply inv_ret.
Qed.

Lemma inv_solve_point (print_every L cc : Z) (_k _w : float) :
  inv (solve_point np_random_random sy_solve self print_every L cc _k _w).
Proof.
  unfold solve_point. destruct (negb (dry_run self)).
  - apply inv_bind; [apply inv_emit, allowed_other; discriminate|]. intros _.
    cbv zeta. apply inv_bind; [apply inv_log_debug|]. intros _.
    apply inv_bind.
    { match goal with |- context [if ?c then _ else _] => destruct c end;
        [apply inv_log; discriminate | apply inv_ret]. }
    intros _. apply inv_bind; [|intros _; apply inv_ret].
    match goal with |- context [decide ?P] => destruct (decide P) end;
      [apply inv_log; discriminate | apply inv_ret].
  - apply inv_bind; [apply inv_random|]. intros r1.
    apply inv_bind; [apply inv_random|]. intros r2. apply inv_ret.
Qed.

Lemma inv_loop_body (print_every L cc : Z) (job : GridPoint) (buffer : Buffer) :
  inv (loop_body uuid4_hex np_random_random sy_solve self print_every L cc job
         buffer).
Proof.
  unfold loop_body. destruct job as [_k _w].
  apply inv_bind; [apply inv_solve_point|]. intros [[[re im] tcomp] dim].
  apply inv_bind; [|intros _; apply inv_Buffer_call].
  match goal with |- context [decide ?P] => destruct (decide P) end;
    [apply inv_log; discriminate | apply inv_ret].
Qed.

Lemma inv_main_loop (print_every L : Z) (jobs : list GridPoint) :
  forall cc buffer,
  inv (main_loop uuid4_hex np_random_random sy_solve self print_every L cc jobs
         buffer).
Proof.
  induction jobs as [|job jobs IH]; intros cc buffer; simpl.
  - apply inv_ret.
  - apply inv_bind; [apply inv_loop_body|]. intros buffer'. apply IH.
Qed.

Lemma inv_calculate_run (jobs : list GridPoint) (buffer : Buffer) :
  inv (calculate_run uuid4_hex time_time np_random_random sy_solve self jobs
         buffer).
Proof.
  unfold calculate_run. apply inv_bind.
  { destruct (negb (dry_run self)).
    - unfold prime_system. apply inv_bind; [apply inv_now|]. intros _.
      apply inv_bind.
      { destruct (decide (RANK self = 0%nat));
          [apply inv_log; discriminate | apply inv_ret]. }
      intros _. apply inv_bind; [apply inv_now|]. intros _. apply inv_ret.
    - destruct (decide (RANK self = 0%nat));
        [apply inv_log; discriminate | apply inv_ret]. }
  intros _. cbv zeta. apply inv_bind.
  { destruct (decide (RANK self = 0%nat));
      [apply inv_log; discriminate | apply inv_ret]. }
  intros _. apply inv_bind; [apply inv_now|]. intros t0.
  apply inv_bind; [apply inv_main_loop|]. intros buffer'.
  apply inv_bind; [apply inv_flush|]. intros _.
  apply inv_bind; [apply inv_now|]. intros t1. apply inv_ret.
Qed.

Lemma inv_calculate (k_grid w_grid : list float) :
  inv (calculate uuid4_hex time_time np_random_random sy_solve self k_grid w_grid).
Proof.
  unfold calculate. apply inv_bind; [apply inv_calculate_prepare|].
  intros [elapsed|jobs buffer]; [apply inv_ret | apply inv_calculate_run].
Qed.

End CalculateInvariant.

Lemma trace_extends_refl (P : Event -> Prop) (w : World) : trace_extends P w w.
Proof. exists []. split; [symmetry; apply app_nil_r | constructor]. Qed.

Lemma trace_extends_trans (P : Event -> Prop) (w1 w2 w3 : World) :
  trace_extends P w1 w2 -> trace_extends P w2 w3 -> trace_extends P w1 w3.
Proof.
  intros (evs1 & H1 & HP1) (evs2 & H2 & HP2). exists (evs1 ++ evs2). split.
  - rewrite H2, H1, app_assoc. reflexivity.
  - apply Forall_app. split; assumption.
Qed.

(** X13. Whatever [calculate] does, and whether it returns or raises, it
    only appends to the trace, and every log record it appends is tagged
    with the executor's own rank; with the debug flag off none of them has
    level DEBUG. *)
Theorem calculate_logs_tagged (uuid4_hex : nat -> string)
    (time_time np_random_random : nat -> float)
    (sy_solve : float -> float -> Z -> SolveResult)
    (self : Executor) (k_grid w_grid : list float) (w : World) :
  trace_extends (logged_by self) w
    (calculate uuid4_hex time_time np_random_random sy_solve self k_grid w_grid
       w).2.
Proof.
  apply (inv_calculate uuid4_hex time_time np_random_random sy_solve self
           (trace_extends (logged_by self)) (logged_by self)).
  - apply trace_extends_refl.
  - apply trace_extends_trans.
  - intros e w0 He. exists [e]. split; [reflexivity | repeat constructor; exact He].
  - intros w0 u c r. exists []. split; [symmetry; apply app_nil_r | constructor].
  - intros w0 t d f q _ _. exists [].
    split; [symmetry; apply app_nil_r | constructor].
  - intros lvl msg Hdbg. split; [reflexivity | exact Hdbg].
  - intros e He. destruct e; try exact I. exfalso. eapply He. reflexivity.
Qed.



